(** * versionn: a shallow embedding of [lib/versionn.js]

    The development follows the file top to bottom: JavaScript strings and the
    string primitives the program calls, a backtracking matcher for the
    regular expressions it uses, the [VERSION] pattern and the command list,
    the [semver] and [path] helpers, the [Version] object with its methods,
    buffers and their UTF-8 text, the file operations and the batch runner
    [Version.changeFiles]. *)

From Stdlib Require Import NArith ZArith Lia Bool.
From stdpp Require Import base option list gmap strings.

Set Default Proof Using "Type".
Set Warnings "-register-all".
Local Open Scope N_scope.

(** ** JavaScript strings

    A JavaScript string is a sequence of UTF-16 code units.  Regular
    expressions without the [u] flag, [trim], [split] and [replace] all work
    code unit by code unit, so a string is a list of code units. *)

Module JS.

Abbreviation str := (list N).

(** A string literal of the source, as code units. *)
Definition lit (s : string) : str :=
  (fun a => Ascii.N_of_ascii a) <$> String.list_ascii_of_string s.

Definition str_eqb (a b : str) : bool := bool_decide (a = b).

(** [s.substring(a, b)] for [a <= b]. *)
Definition substring (s : str) (a b : nat) : str := take (b - a) (drop a s).

(** *** Character classes *)

Definition is_digit (c : N) : bool := (48 <=? c) && (c <=? 57).
Definition is_upper (c : N) : bool := (65 <=? c) && (c <=? 90).
Definition is_lower (c : N) : bool := (97 <=? c) && (c <=? 122).

(** [[a-zA-Z0-9]] *)
Definition is_alnum (c : N) : bool := is_lower c || is_upper c || is_digit c.

(** [\w]: the word characters used by [\b]. *)
Definition is_word (c : N) : bool := is_alnum c || (c =? 95).

(** LineTerminator: LF, CR, LS, PS. *)
Definition is_line_terminator (c : N) : bool :=
  (c =? 10) || (c =? 13) || (c =? 8232) || (c =? 8233).

(** [.] without the [s] flag: any code unit but a line terminator. *)
Definition is_dot (c : N) : bool := negb (is_line_terminator c).

(** WhiteSpace and LineTerminator, as [trim] and [\s] strip them. *)
Definition is_space (c : N) : bool :=
  (c =? 9) || (c =? 10) || (c =? 11) || (c =? 12) || (c =? 13) || (c =? 32)
  || (c =? 160) || (c =? 5760) || ((8192 <=? c) && (c <=? 8202))
  || (c =? 8232) || (c =? 8233) || (c =? 8239) || (c =? 8287)
  || (c =? 12288) || (c =? 65279).

(** *** [String.prototype.trim] *)

Fixpoint trim_start (s : str) : str :=
  match s with
  | c :: s' => if is_space c then trim_start s' else s
  | [] => []
  end.

Definition trim_end (s : str) : str := reverse (trim_start (reverse s)).

Definition trim (s : str) : str := trim_end (trim_start s).

(** *** [String.prototype.split] on a one-unit separator, and [join] *)

Fixpoint split_on (sep : N) (s : str) : list str :=
  match s with
  | [] => [[]]
  | c :: s' =>
      if c =? sep then [] :: split_on sep s'
      else match split_on sep s' with
           | w :: ws => (c :: w) :: ws
           | [] => [[c]]
           end
  end.

Fixpoint join (sep : str) (l : list str) : str :=
  match l with
  | [] => []
  | [w] => w
  | w :: ws => w ++ sep ++ join sep ws
  end.

(** *** Decimal numerals

    [+m] on a string of decimal digits, and [String(n)] for a non-negative
    integer below 2^53 (no exponent is printed below 1e21). *)

Definition digit_value (c : N) : N := c - 48.

Definition to_number (s : str) : N :=
  foldl (fun acc c => 10 * acc + digit_value c) 0 s.

Fixpoint digits_fuel (fuel : nat) (n : N) (acc : str) : str :=
  match fuel with
  | O => acc
  | S fuel' =>
      let acc' := (48 + n mod 10) :: acc in
      if n <? 10 then acc' else digits_fuel fuel' (n / 10) acc'
  end.

Definition of_number (n : N) : str := digits_fuel (S (N.to_nat (N.log2 n))) n [].

(** *** Values

    What [JSON.parse] can return, and [undefined].  Numbers are integers
    here: the program only tests a number for truthiness. *)

Inductive value : Type :=
| VUndefined
| VNull
| VBool (b : bool)
| VNumber (z : Z)
| VString (s : str)
| VArray (items : list value)
| VObject (fields : list (str * value)).

(** [typeof v === 'object'] *)
Definition typeof_object (v : value) : bool :=
  match v with
  | VNull | VArray _ | VObject _ => true
  | _ => false
  end.

(** ToBoolean *)
Definition truthy (v : value) : bool :=
  match v with
  | VUndefined | VNull => false
  | VBool b => b
  | VNumber z => negb (z =? 0)%Z
  | VString s => negb (str_eqb s [])
  | VArray _ | VObject _ => true
  end.

(** An optional string as a value: absent is [undefined]. *)
Definition of_option (o : option str) : value :=
  match o with
  | Some s => VString s
  | None => VUndefined
  end.

(** *** Errors and completions

    The errors this program creates or meets, and the two ways a call can
    end: normally with a result, or abruptly with a thrown error. *)

Inductive error : Type :=
| BadSemverVersion (version : value)   (* 'Bad semver version: ' + version *)
| VersionIsUndefined                   (* 'version is undefined' *)
| InvalidIncrement (release : str)     (* thrown by semver's inc *)
| TypeError                            (* thrown by the engine *)
| SyntaxError                          (* thrown by JSON.parse *)
| SystemError (code : str).            (* reported by fs: ENOENT, EACCES, ... *)

Inductive completion (A : Type) : Type :=
| Normal (a : A)
| Throw (e : error).
Arguments Normal {A} a.
Arguments Throw {A} e.

End JS.

(** ** Regular expressions

    The patterns of this program use literals, character classes, sequence,
    alternation, greedy and lazy repetition, capture groups and the
    assertions [^], [$] and [\b].  The matcher is the backtracking one of
    ECMAScript: [matches r input x] lists the states in which [r] can end
    when started in state [x], in the order backtracking tries them, so the
    head of the list is the match the engine returns. *)

Module Regex.
Import JS.

Inductive regex : Type :=
| Eps
| CharSet (p : N → bool)
| Seq (r1 r2 : regex)
| Alt (r1 r2 : regex)
| Star (greedy : bool) (r : regex)
| Group (i : nat) (r : regex)
| WordBoundary
| InputStart
| InputEnd.

Definition Chr (c : N) : regex := CharSet (N.eqb c).
Infix ">>" := Seq (at level 62, right associativity).
Definition Plus (greedy : bool) (r : regex) : regex := Seq r (Star greedy r).
Definition Opt (r : regex) : regex := Alt r Eps.

(** A literal word, one code unit after the other. *)
Fixpoint Word (w : str) : regex :=
  match w with
  | [] => Eps
  | c :: w' => Seq (Chr c) (Word w')
  end.

(** The matcher's state: where the match has got to, and the captures so
    far, each the pair of its start and end index. *)
Record mstate := MState {
  endIndex : nat;
  captures : list (option (nat * nat))
}.

Definition is_word_at (input : str) (i : nat) : bool :=
  match input !! i with
  | Some c => is_word c
  | None => false
  end.

(** [\b]: exactly one side of the position is a word character. *)
Definition at_word_boundary (input : str) (e : nat) : bool :=
  xorb (match e with O => false | S e' => is_word_at input e' end)
       (is_word_at input e).

(** Repetition.  An iteration that consumes nothing is rejected, as
    RepeatMatcher does, so [length input - endIndex] bounds the depth. *)
Fixpoint repeat_matcher (step : mstate → list mstate) (greedy : bool)
    (fuel : nat) (x : mstate) : list mstate :=
  match fuel with
  | O => [x]
  | S fuel' =>
      let more :=
        y ← step x;
        if bool_decide (endIndex x < endIndex y)%nat
        then repeat_matcher step greedy fuel' y else [] in
      if greedy then more ++ [x] else x :: more
  end.

Fixpoint matches (r : regex) (input : str) (x : mstate) : list mstate :=
  match r with
  | Eps => [x]
  | CharSet p =>
      match input !! endIndex x with
      | Some c => if p c then [MState (S (endIndex x)) (captures x)] else []
      | None => []
      end
  | Seq r1 r2 => y ← matches r1 input x; matches r2 input y
  | Alt r1 r2 => matches r1 input x ++ matches r2 input x
  | Star greedy r' =>
      repeat_matcher (matches r' input) greedy (length input - endIndex x) x
  | Group i r' =>
      (fun y => MState (endIndex y)
                  (<[i := Some (endIndex x, endIndex y)]> (captures y)))
        <$> matches r' input x
  | WordBoundary => if at_word_boundary input (endIndex x) then [x] else []
  | InputStart => if bool_decide (endIndex x = 0%nat) then [x] else []
  | InputEnd => if bool_decide (endIndex x = length input) then [x] else []
  end.

(** The result of [RegExp.prototype.exec] on a pattern without the [g] and
    [y] flags: the index of the match, and the final state. *)
Record match_result := MatchResult {
  index : nat;
  final : mstate
}.

Definition match_at (r : regex) (ngroups : nat) (input : str) (i : nat)
    : option match_result :=
  MatchResult i <$> head (matches r input (MState i (replicate (S ngroups) None))).

(** The first start index at which the pattern matches. *)
Definition exec (r : regex) (ngroups : nat) (input : str) : option match_result :=
  head (omap (match_at r ngroups input) (seq 0 (S (length input)))).

Definition last_index (m : match_result) : nat := endIndex (final m).

(** [m[0]], the matched substring. *)
Definition matched (input : str) (m : match_result) : str :=
  substring input (index m) (last_index m).

(** [m[i]] for a capture group: the captured substring, or undefined. *)
Definition capture (input : str) (m : match_result) (i : nat) : option str :=
  match captures (final m) !! i with
  | Some (Some (a, b)) => Some (substring input a b)
  | _ => None
  end.

(** [r.test(input)] *)
Definition test (r : regex) (ngroups : nat) (input : str) : bool :=
  bool_decide (is_Some (exec r ngroups input)).

(** *** [String.prototype.replace] with a pattern and a replacement string

    GetSubstitution expands the replacement template: [$$], [$&], [$`], [$']
    and [$n] / [$nn] are references, everything else is copied.  A two-digit
    reference beyond the number of groups falls back to its first digit.
    The patterns here have no named groups, so [$<] is copied. *)

Definition dollar : N := 36.

Definition capture_ref (caps : list (option str)) (idx : N) (ref : str) : str :=
  if (1 <=? idx) && (idx <=? N.of_nat (length caps))
  then default [] (default None (caps !! pred (N.to_nat idx)))
  else ref.

Fixpoint get_substitution (matched_str s : str) (position : nat)
    (caps : list (option str)) (template : str) : str :=
  let continue := get_substitution matched_str s position caps in
  match template with
  | [] => []
  | c :: t1 =>
      if negb (c =? dollar) then c :: continue t1 else
      match t1 with
      | [] => [c]
      | d1 :: t2 =>
          if d1 =? dollar then dollar :: continue t2
          else if d1 =? 96 then take position s ++ continue t2
          else if d1 =? 38 then matched_str ++ continue t2
          else if d1 =? 39 then
            drop (position + length matched_str) s ++ continue t2
          else if is_digit d1 then
            let one := capture_ref caps (digit_value d1) [c; d1] ++ continue t2 in
            match t2 with
            | [] => one
            | d2 :: t3 =>
                if is_digit d2 then
                  let idx := 10 * digit_value d1 + digit_value d2 in
                  if N.of_nat (length caps) <? idx then one
                  else capture_ref caps idx [c; d1; d2] ++ continue t3
                else one
            end
          else c :: continue t1
      end
  end.

(** The captures [m[1]], ..., [m[ngroups]] as strings. *)
Definition capture_list (input : str) (m : match_result) (ngroups : nat)
    : list (option str) :=
  capture input m <$> seq 1 ngroups.

(** [s.replace(r, replacement)] for a pattern without the [g] flag: only the
    first match is replaced. *)
Definition replace (r : regex) (ngroups : nat) (s replacement : str) : str :=
  match exec r ngroups s with
  | None => s
  | Some m =>
      take (index m) s
      ++ get_substitution (matched s m) s (index m)
           (capture_list s m ngroups) replacement
      ++ drop (last_index m) s
  end.

End Regex.

(** ** The constants of the module *)

Import JS Regex.

(** [const VERSION = /(\bVERSION\b.*?)(\d+\.\d+\.\d+(?:-[a-zA-Z0-9]+)?)/] *)
Definition token : regex :=
  Plus true (CharSet is_digit) >> Chr 46 >>
  Plus true (CharSet is_digit) >> Chr 46 >>
  Plus true (CharSet is_digit) >>
  Opt (Chr 45 >> Plus true (CharSet is_alnum)).

Definition marker : regex :=
  WordBoundary >> Word (lit "VERSION") >> WordBoundary >>
  Star false (CharSet is_dot).

Definition VERSION : regex := Group 1 marker >> Group 2 token.

(** [// allowed semver inc commands] *)
Definition CMDS : list str :=
  lit <$> ["premajor"; "preminor"; "prepatch"; "prerelease"; "major";
           "minor"; "patch"; "pre"; "same"; "set"]%string.

(** ** The [semver] package

    [versionn.js] calls three entry points of its dependency [semver]:
    [semver.valid(version)], [semver.parse(version, true)] and, on the parsed
    object, [inc(cmd)] and [toString()].  The package is not a file of this
    repository; the module follows its release line 7, where the candidate
    is trimmed before it is matched. *)

Module Semver.

Definition MAX_LENGTH : nat := 256.
Definition MAX_SAFE_INTEGER : N := 9007199254740991.

Definition digit : regex := CharSet is_digit.
Definition is_letter_dash (c : N) : bool := is_lower c || is_upper c || (c =? 45).
Definition is_letter_dash_number (c : N) : bool := is_alnum c || (c =? 45).

(** Modelled from the spec: the grammar of a semantic version, "major.minor.patch
    with an optional -prerelease suffix", is the one of the [semver] package,
    which is a dependency and not a file of this repository.  These are its
    regular expressions [FULL] (strict) and [LOOSE]. *)
Definition NUMERICIDENTIFIER : regex :=
  Alt (Chr 48) (CharSet (fun c => (49 <=? c) && (c <=? 57)) >> Star true digit).
Definition NUMERICIDENTIFIERLOOSE : regex := Plus true digit.
Definition NONNUMERICIDENTIFIER : regex :=
  Star true digit >> CharSet is_letter_dash >> Star true (CharSet is_letter_dash_number).
Definition MAINVERSION : regex :=
  Group 1 NUMERICIDENTIFIER >> Chr 46 >>
  Group 2 NUMERICIDENTIFIER >> Chr 46 >>
  Group 3 NUMERICIDENTIFIER.
Definition MAINVERSIONLOOSE : regex :=
  Group 1 NUMERICIDENTIFIERLOOSE >> Chr 46 >>
  Group 2 NUMERICIDENTIFIERLOOSE >> Chr 46 >>
  Group 3 NUMERICIDENTIFIERLOOSE.
Definition PRERELEASEIDENTIFIER : regex := Alt NUMERICIDENTIFIER NONNUMERICIDENTIFIER.
Definition PRERELEASEIDENTIFIERLOOSE : regex :=
  Alt NUMERICIDENTIFIERLOOSE NONNUMERICIDENTIFIER.
Definition PRERELEASE : regex :=
  Chr 45 >> Group 4 (PRERELEASEIDENTIFIER >> Star true (Chr 46 >> PRERELEASEIDENTIFIER)).
Definition PRERELEASELOOSE : regex :=
  Opt (Chr 45) >>
  Group 4 (PRERELEASEIDENTIFIERLOOSE >> Star true (Chr 46 >> PRERELEASEIDENTIFIERLOOSE)).
Definition BUILDIDENTIFIER : regex := Plus true (CharSet is_letter_dash_number).
Definition BUILD : regex :=
  Chr 43 >> Group 5 (BUILDIDENTIFIER >> Star true (Chr 46 >> BUILDIDENTIFIER)).
Definition FULLPLAIN : regex :=
  Opt (Chr 118) >> MAINVERSION >> Opt PRERELEASE >> Opt BUILD.
Definition FULL : regex := InputStart >> FULLPLAIN >> InputEnd.
Definition LOOSEPLAIN : regex :=
  Star true (CharSet (fun c => (c =? 118) || (c =? 61) || is_space c)) >>
  MAINVERSIONLOOSE >> Opt PRERELEASELOOSE >> Opt BUILD.
Definition LOOSE : regex := InputStart >> LOOSEPLAIN >> InputEnd.

(** Modelled from the spec: the parsed object of the [semver] package, a
    version "of the form major.minor.patch with an optional -prerelease
    suffix".  A prerelease identifier is a number or a string. *)
Record SemVer := mkSemVer {
  major : N;
  minor : N;
  patch : N;
  prerelease : list (N + str);
  build : list str;
  version : str
}.

(** A prerelease identifier as [join('.')] prints it. *)
Definition identifier_string (id : N + str) : str :=
  match id with
  | inl n => of_number n
  | inr s => s
  end.

(** Modelled from the spec: [format()] of the [semver] package, which
    "re-serializes" the version from its components (the build is not part
    of it). *)
Definition format (sv : SemVer) : SemVer :=
  let main :=
    of_number (major sv) ++ [46] ++ of_number (minor sv) ++ [46]
    ++ of_number (patch sv) in
  mkSemVer (major sv) (minor sv) (patch sv) (prerelease sv) (build sv)
    (match prerelease sv with
     | [] => main
     | ids => main ++ [45] ++ join [46] (identifier_string <$> ids)
     end).

(** [toString()] returns the [version] that [format] computed last. *)
Definition toString (sv : SemVer) : str := version sv.

(** Modelled from the spec: how the [semver] package reads a prerelease
    identifier; a numeric one becomes a number when it is a safe integer. *)
Definition numberify (id : str) : N + str :=
  if test (InputStart >> Plus true digit >> InputEnd) 0 id then
    let num := to_number id in
    if num <? MAX_SAFE_INTEGER then inl num else inr id
  else inr id.

(** Modelled from the spec: [new SemVer(version, options)] of the [semver]
    package, which validates a candidate "as a semantic version"; [None]
    stands for the TypeError it throws on a string that is too long, does
    not match, or has a component beyond the safe integers. *)
Definition SemVer_new (version : str) (loose : bool) : option SemVer :=
  if bool_decide (MAX_LENGTH < length version)%nat then None else
  let input := trim version in
  m ← exec (if loose then LOOSE else FULL) 5 input;
  n1 ← to_number <$> capture input m 1;
  n2 ← to_number <$> capture input m 2;
  n3 ← to_number <$> capture input m 3;
  if (MAX_SAFE_INTEGER <? n1) || (MAX_SAFE_INTEGER <? n2) || (MAX_SAFE_INTEGER <? n3)
  then None else
  let pre := match capture input m 4 with
             | None | Some [] => []
             | Some ids => numberify <$> split_on 46 ids
             end in
  let bld := match capture input m 5 with
             | None | Some [] => []
             | Some ids => split_on 46 ids
             end in
  Some (format (mkSemVer n1 n2 n3 pre bld [])).

(** Modelled from the spec: [semver.parse(version, loose)] "parses the
    currently stored version per semantic-versioning rules": the object, or
    null when the argument is not a string or the constructor throws. *)
Definition parse (version : value) (loose : bool) : option SemVer :=
  match version with
  | VString s => SemVer_new s loose
  | _ => None
  end.

(** Modelled from the spec: [semver.valid(version)] "validates the
    extracted string as a semantic version": the normalised version string,
    or null. *)
Definition valid (version : value) : option str :=
  Semver.version <$> parse version false.

(** Modelled from the spec: the release ['pre'] of the [semver] package
    "sets/increments a prerelease identifier": it bumps the last numeric
    identifier, or appends [0]. *)
Fixpoint bump_last_number (ids : list (N + str)) : option (list (N + str)) :=
  match ids with
  | [] => None
  | id :: ids' =>
      match bump_last_number ids' with
      | Some bumped => Some (id :: bumped)
      | None =>
          match id with
          | inl n => Some (inl (n + 1) :: ids')
          | inr _ => None
          end
      end
  end.

(** Assignment to the numeric components and the prerelease list. *)
Definition with_version_parts (sv : SemVer) (ma mi pa : N) (pre : list (N + str))
    : SemVer :=
  mkSemVer ma mi pa pre (build sv) (version sv).

(** Modelled from the spec: the release ['pre'], which on a version
    without prerelease "sets" the identifier [0]. *)
Definition inc_pre (sv : SemVer) : SemVer :=
  with_version_parts sv (major sv) (minor sv) (patch sv)
    (match prerelease sv with
     | [] => [inl 0]
     | ids => match bump_last_number ids with
              | Some bumped => bumped
              | None => ids ++ [inl 0]
              end
     end).

(** Modelled from the spec: the release ['patch']: a prerelease becomes its
    release, any other version gets the next patch number. *)
Definition inc_patch (sv : SemVer) : SemVer :=
  with_version_parts sv (major sv) (minor sv)
    (match prerelease sv with [] => patch sv + 1 | _ => patch sv end) [].

(** Modelled from the spec: [inc(release)] of the [semver] package, "the
    corresponding semantic-version increment algorithm (standard rules:
    bumping major resets minor/patch to 0 and clears prerelease; bumping a
    pre- variant sets/increments a prerelease identifier)".  Any other
    release name makes it throw. *)
Definition inc (sv : SemVer) (release : str) : completion SemVer :=
  let named name := str_eqb release (lit name) in
  if named "premajor"%string then
    Normal (format (inc_pre (with_version_parts sv (major sv + 1) 0 0 [])))
  else if named "preminor"%string then
    Normal (format (inc_pre (with_version_parts sv (major sv) (minor sv + 1) 0 [])))
  else if named "prepatch"%string then
    Normal (format (inc_pre (inc_patch
      (with_version_parts sv (major sv) (minor sv) (patch sv) []))))
  else if named "prerelease"%string then
    Normal (format (inc_pre
      (match prerelease sv with [] => inc_patch sv | _ => sv end)))
  else if named "major"%string then
    Normal (format (with_version_parts sv
      (if negb (minor sv =? 0) || negb (patch sv =? 0)
          || bool_decide (prerelease sv = [])
       then major sv + 1 else major sv) 0 0 []))
  else if named "minor"%string then
    Normal (format (with_version_parts sv (major sv)
      (if negb (patch sv =? 0) || bool_decide (prerelease sv = [])
       then minor sv + 1 else minor sv) 0 []))
  else if named "patch"%string then Normal (format (inc_patch sv))
  else if named "pre"%string then Normal (format (inc_pre sv))
  else Throw (InvalidIncrement release).

End Semver.

(** ** The [path] module of Node, on POSIX paths *)

Module Path.

Definition slash : N := 47.
Definition dot : N := 46.

Fixpoint drop_slashes (s : str) : str :=
  match s with
  | c :: s' => if c =? slash then drop_slashes s' else s
  | [] => []
  end.

Fixpoint until_slash (s : str) : str :=
  match s with
  | c :: s' => if c =? slash then [] else c :: until_slash s'
  | [] => []
  end.

(** [path.basename(p)]: the last portion of the path, trailing separators
    ignored. *)
Definition basename (p : str) : str :=
  reverse (until_slash (drop_slashes (reverse p))).

(** The part of a name after its last dot, read from the reversed name. *)
Fixpoint until_dot (s : str) : option (str * str) :=
  match s with
  | c :: s' =>
      if c =? dot then Some ([], s')
      else '(ext, before) ← until_dot s'; Some (c :: ext, before)
  | [] => None
  end.

(** [path.extname(p)]: from the last dot of the last portion to its end;
    empty when there is no dot, when the last dot is the first character,
    and for [..]. *)
Definition extname (p : str) : str :=
  let name := basename p in
  match until_dot (reverse name) with
  | None => []
  | Some (ext, before) =>
      if str_eqb before [] || str_eqb name [dot; dot] then []
      else dot :: reverse ext
  end.

End Path.

(** ** The [Version] object *)

(** The [options] argument of the constructor. *)
Record Options := mkOptions {
  o_version : option str;
  o_cmd : option str;
  o_type : option str
}.

(** The fields of a [Version] object.  The field [data] is set to [null] by
    the constructor and never read again: it is left out. *)
Record Version := mkVersion {
  file : str;
  options : Options;
  version : option str;
  cmd : str
}.

Definition no_options : Options := mkOptions None None None.

(** [function Version (file, options)] *)
Definition new_Version (file : str) (opts : option Options) : Version :=
  let o := default no_options opts in
  mkVersion file
    (if str_eqb (Path.basename file) (lit "VERSION")
     then mkOptions (o_version o) (o_cmd o) (Some (lit "VERSION"))
     else o)
    (o_version o)
    (match o_cmd o with
     | Some c => if str_eqb c [] then lit "same" else c
     | None => lit "same"
     end).

Definition is_VERSION_type (this : Version) : bool :=
  bool_decide (o_type (options this) = Some (lit "VERSION")).

Definition set_version (this : Version) (v : option str) : Version :=
  mkVersion (file this) (options this) v (cmd this).

(** [Version.prototype.setVersion]: the error returned (if any) and the
    object afterwards. *)
Definition setVersion (this : Version) (version : value) : option error * Version :=
  match version, Semver.valid version with
  | VString s, Some _ => (None, set_version this (Some s))
  | _, _ => (Some (BadSemverVersion version), set_version this None)
  end.

(** Reading the property [version] of a value that passed
    [typeof data === 'object']. *)
Fixpoint get_field (name : str) (fields : list (str * value)) : value :=
  match fields with
  | [] => VUndefined
  | (k, w) :: fields' => if str_eqb k name then w else get_field name fields'
  end.

Definition get_version (data : value) : completion value :=
  match data with
  | VObject fields => Normal (get_field (lit "version") fields)
  | VNull => Throw TypeError
  | _ => Normal VUndefined
  end.

Fixpoint set_field (name : str) (v : value) (fields : list (str * value))
    : list (str * value) :=
  match fields with
  | [] => [(name, v)]
  | (k, w) :: fields' =>
      if str_eqb k name then (k, v) :: fields'
      else (k, w) :: set_field name v fields'
  end.

(** ToString of a primitive value (objects never reach it). *)
Definition prim_to_string (v : value) : str :=
  match v with
  | VUndefined => lit "undefined"
  | VNull => lit "null"
  | VBool true => lit "true"
  | VBool false => lit "false"
  | VNumber z => (if (z <? 0)%Z then [45] else []) ++ of_number (Z.to_N (Z.abs z))
  | VString s => s
  | VArray _ | VObject _ => []
  end.

(** [Version.prototype._extract] *)
Definition _extract (this : Version) (data : value)
    : completion (option error * Version) :=
  if typeof_object data then
    match get_version data with
    | Normal ver => Normal (setVersion this ver)
    | Throw e => Throw e
    end
  else if is_VERSION_type this then
    match data with
    | VString s => Normal (setVersion this (VString (trim s)))
    | _ => Throw TypeError
    end
  else
    let input := prim_to_string data in
    Normal (setVersion this
      (match exec VERSION 2 input with
       | Some t => of_option (capture input t 2)
       | None => VUndefined
       end)).

(** [cmd = cmd || this.cmd] *)
Definition chosen_cmd (this : Version) (cmd_arg : option str) : str :=
  match cmd_arg with
  | Some c => if str_eqb c [] then cmd this else c
  | None => cmd this
  end.

(** [Version.prototype.inc]: the value returned and the object afterwards. *)
Definition inc (this : Version) (cmd_arg : option str)
    : completion (option str * Version) :=
  let sv := Semver.parse (of_option (version this)) true in
  let cmd := chosen_cmd this cmd_arg in
  match sv with
  | Some sv =>
      if negb (str_eqb cmd []) && bool_decide (cmd ∈ CMDS) then
        match (if negb (str_eqb cmd (lit "same")) then Semver.inc sv cmd
               else Normal sv) with
        | Normal sv' =>
            Normal (Some (Semver.toString sv'),
                    set_version this (Some (Semver.toString sv')))
        | Throw e => Throw e
        end
      else Normal (None, this)
  | None => Normal (None, this)
  end.

(** [Version.prototype._change] *)
Definition _change (this : Version) (data : value) : completion value :=
  if typeof_object data then
    match get_version data with
    | Normal ver =>
        Normal (match data with
                | VObject fields =>
                    if truthy ver
                    then VObject (set_field (lit "version") (of_option (version this)) fields)
                    else data
                | _ => data
                end)
    | Throw e => Throw e
    end
  else if is_VERSION_type this then Normal (of_option (version this))
  else
    match data with
    | VString s =>
        Normal (VString (replace VERSION 2 s
                  (lit "$1" ++ prim_to_string (of_option (version this)))))
    | _ => Throw TypeError
    end.

(** ** Buffers

    [fs.readFile] without an encoding calls back with a [Buffer], the bytes
    of the file; [data.toString()] decodes them as UTF-8.  [fs.writeFile]
    with a string encodes it as UTF-8.  A byte is a number below 256. *)

Module UTF8.

(** U+FFFD, the replacement character. *)
Definition replacement : N := 65533.

(** The surrogate code units: high D800..DBFF, low DC00..DFFF. *)
Definition is_high (c : N) : bool := (55296 <=? c) && (c <=? 56319).
Definition is_low (c : N) : bool := (56320 <=? c) && (c <=? 57343).
Definition in_range (lo hi b : N) : bool := (lo <=? b) && (b <=? hi).

(** The surrogate pair of a code point beyond the basic plane. *)
Definition pair_of (cp : N) : str :=
  [55296 + (cp - 65536) / 1024; 56320 + (cp - 65536) mod 1024].

(** The UTF-8 decoder of the Encoding Standard, which
    [Buffer.prototype.toString] follows.  A lead byte fixes how many
    continuation bytes follow and the range of the first of them.  A byte
    that cannot continue the sequence ends it: what was read of the
    sequence becomes U+FFFD, and the byte is decoded again on its own.  An
    input that ends inside a sequence ends with U+FFFD. *)
Fixpoint decode (bs : list N) : str :=
  match bs with
  | [] => []
  | b0 :: bs1 =>
      if b0 <? 128 then b0 :: decode bs1
      else if in_range 194 223 b0 then
        match bs1 with
        | b1 :: bs2 =>
            if in_range 128 191 b1
            then ((b0 - 192) * 64 + (b1 - 128)) :: decode bs2
            else replacement :: decode bs1
        | [] => [replacement]
        end
      else if in_range 224 239 b0 then
        match bs1 with
        | b1 :: bs2 =>
            if in_range (if b0 =? 224 then 160 else 128)
                 (if b0 =? 237 then 159 else 191) b1 then
              match bs2 with
              | b2 :: bs3 =>
                  if in_range 128 191 b2
                  then (((b0 - 224) * 64 + (b1 - 128)) * 64 + (b2 - 128))
                       :: decode bs3
                  else replacement :: decode bs2
              | [] => [replacement]
              end
            else replacement :: decode bs1
        | [] => [replacement]
        end
      else if in_range 240 244 b0 then
        match bs1 with
        | b1 :: bs2 =>
            if in_range (if b0 =? 240 then 144 else 128)
                 (if b0 =? 244 then 143 else 191) b1 then
              match bs2 with
              | b2 :: bs3 =>
                  if in_range 128 191 b2 then
                    match bs3 with
                    | b3 :: bs4 =>
                        if in_range 128 191 b3
                        then pair_of
                               ((((b0 - 240) * 64 + (b1 - 128)) * 64
                                 + (b2 - 128)) * 64 + (b3 - 128))
                             ++ decode bs4
                        else replacement :: decode bs3
                    | [] => [replacement]
                    end
                  else replacement :: decode bs2
              | [] => [replacement]
              end
            else replacement :: decode bs1
        | [] => [replacement]
        end
      else replacement :: decode bs1
  end.

(** The bytes of a code point. *)
Definition encode_cp (cp : N) : list N :=
  if cp <? 128 then [cp]
  else if cp <? 2048 then [192 + cp / 64; 128 + cp mod 64]
  else if cp <? 65536 then
    [224 + cp / 64 / 64; 128 + (cp / 64) mod 64; 128 + cp mod 64]
  else [240 + cp / 64 / 64 / 64; 128 + (cp / 64 / 64) mod 64;
        128 + (cp / 64) mod 64; 128 + cp mod 64].

(** The UTF-8 encoder that [fs.writeFile] applies to a string: a surrogate
    pair is one code point, a surrogate on its own is written as U+FFFD. *)
Fixpoint encode (s : str) : list N :=
  match s with
  | [] => []
  | c :: s1 =>
      if is_high c then
        match s1 with
        | d :: s2 =>
            if is_low d
            then encode_cp (65536 + (c - 55296) * 1024 + (d - 56320)) ++ encode s2
            else encode_cp replacement ++ encode s1
        | [] => encode_cp replacement
        end
      else if is_low c then encode_cp replacement ++ encode s1
      else encode_cp c ++ encode s1
  end.

End UTF8.

Record Buffer := mkBuffer { octets : list N }.

(** [buf.toString()] *)
Definition toString (buf : Buffer) : str := UTF8.decode (octets buf).

(** The bytes [fs.writeFile] writes for a string. *)
Definition Buffer_from (s : str) : Buffer := mkBuffer (UTF8.encode s).

(** ** Files

    The file system as [fs.readFile] and [fs.writeFile] see it: a path names
    a file with its bytes, or nothing.  A missing file cannot be read, a
    file can forbid reading or writing. *)

Record file_node := mkFile {
  content : Buffer;
  readable : bool;
  writable : bool
}.

Abbreviation filesystem := (gmap str file_node).

Definition fs_readFile (fs : filesystem) (path : str) : error + Buffer :=
  match fs !! path with
  | None => inl (SystemError (lit "ENOENT"))
  | Some f => if readable f then inr (content f) else inl (SystemError (lit "EACCES"))
  end.

Definition fs_writeFile (fs : filesystem) (path : str) (data : str)
    : option error * filesystem :=
  match fs !! path with
  | None => (None, <[path := mkFile (Buffer_from data) true true]> fs)
  | Some f =>
      if writable f
      then (None, <[path := mkFile (Buffer_from data) (readable f) true]> fs)
      else (Some (SystemError (lit "EACCES")), fs)
  end.

(** [JSON.parse] (no result when it throws a SyntaxError) and
    [JSON.stringify(data, null, 2)] are the engine's; the program depends on
    them only through these two signatures. *)
Class JSON := {
  JSON_parse : str → option value;
  JSON_stringify : value → str
}.

Section Files.
Context `{JSON}.

(** [Version.prototype.readFile]: what the callback receives, an error or
    the data. *)
Definition readFile (fs : filesystem) (this : Version) : error + value :=
  match fs_readFile fs (file this) with
  | inl err => inl err
  | inr buf =>
      let data := toString buf in
      if str_eqb (Path.extname (file this)) (lit ".json") then
        match JSON_parse data with
        | Some parsed => inr parsed
        | None => inl SyntaxError
        end
      else inr (VString data)
  end.

(** [Version.prototype.writeFile], up to the call of [fs.writeFile]: the
    text handed over.  [fs.writeFile] throws on data that is not a string. *)
Definition writeFile (this : Version) (data : value) : completion str :=
  if typeof_object data then Normal (JSON_stringify data ++ [10])
  else match data with
       | VString s => Normal s
       | _ => Throw TypeError
       end.

(** [Version.prototype.extract]: the arguments the callback receives, and
    the object afterwards. *)
Definition extract (fs : filesystem) (this : Version)
    : completion ((option error * option str) * Version) :=
  match readFile fs this with
  | inl err => Normal ((Some err, version this), this)
  | inr data =>
      match _extract this data with
      | Normal (err, this') => Normal ((err, version this'), this')
      | Throw e => Throw e
      end
  end.

(** [Version.prototype.change] runs in two turns of the event loop: the
    callback of the read, and the callback of the write. *)
Inductive read_turn : Type :=
| CallsBack (err : error)        (* [cb(err)]: the operation is over *)
| Writes (text : str)            (* [fs.writeFile] was called with [text] *)
| Uncaught (e : error).          (* the callback threw *)

Definition change_on_read (fs : filesystem) (this : Version) : read_turn :=
  match readFile fs this with
  | inl err => CallsBack err
  | inr data =>
      match _change this data with
      | Throw e => Uncaught e
      | Normal data' =>
          match writeFile this data' with
          | Throw e => Uncaught e
          | Normal text => Writes text
          end
      end
  end.

Definition change_on_write (fs : filesystem) (this : Version) (text : str)
    : option error * filesystem :=
  fs_writeFile fs (file this) text.

(** The whole operation when nothing else touches the file system between
    the two turns: what the callback receives, and the file system. *)
Definition change (fs : filesystem) (this : Version)
    : completion (option error * filesystem) :=
  match change_on_read fs this with
  | CallsBack err => Normal (Some err, fs)
  | Writes text => Normal (change_on_write fs this text)
  | Uncaught e => Throw e
  end.

(** ** [Version.changeFiles]

    Each file's operation is in flight from the call of [v.change] until its
    callback runs.  The event loop decides which in-flight operation gets
    its next turn; a schedule is the list of its choices. *)

Inductive phase : Type :=
| Reading
| Writing (text : str).

Record batch := mkBatch {
  b_fs : filesystem;
  b_next : nat;                        (* [i]: the next file to start *)
  b_left : nat;                        (* [l]: operations not yet finished *)
  b_running : gmap nat phase;          (* the operations in flight *)
  b_err : list str;                    (* [err]: the failed paths *)
  b_log : list (nat * option error)    (* finished operations, oldest first *)
}.

Inductive state : Type :=
| Active (b : batch)
| Returned (result : error + list str) (fs : filesystem)
           (log : list (nat * option error))
| Crashed (e : error) (b : batch).

(** The concurrency limit [changeFiles] passes to [asyncc.eachLimit]. *)
Definition limit : nat := 5.

(** The object each task creates: [new Version(file, { version })]. *)
Definition task_Version (files : list str) (version : str) (j : nat) : Version :=
  new_Version (default [] (files !! j)) (Some (mkOptions (Some version) None None)).

(** Modelled from the spec: [run(i++)] of [asyncc.eachLimit], "the next
    pending file (if any) is admitted": the next file's operation starts,
    which is the call of [v.change]. *)
Definition start_next (b : batch) : batch :=
  mkBatch (b_fs b) (S (b_next b)) (b_left b)
    (<[b_next b := Reading]> (b_running b)) (b_err b) (b_log b).

(** Modelled from the spec: [asyncc.eachLimit(5, files, task, final)] is a
    dependency, not a file of this repository.  It runs "at most 5 files
    concurrently at any time, advancing to the next queued file as each
    in-flight one completes, regardless of its outcome", and calls [final]
    "once every file has finished".  Here the first [limit] tasks are
    started. *)
Definition eachLimit_start (fs : filesystem) (files : list str) : state :=
  match files with
  | [] => Returned (inr []) fs []
  | _ =>
      Active (Nat.iter (Nat.min limit (length files)) start_next
                (mkBatch fs 0 (length files) ∅ [] []))
  end.

(** [Version.changeFiles (files, version, cb)]: the state in which the call
    returns. *)
Definition changeFiles (fs : filesystem) (files : list str) (version : option str)
    : state :=
  match version with
  | None => Returned (inl VersionIsUndefined) fs []
  | Some _ => eachLimit_start fs files
  end.

(** The callback [function (_err) { if (_err) { err.push(file) }; _cb() }],
    followed by what [eachLimit] does when a task calls back (modelled from
    the spec, as above): one fewer is left, the next file is started if
    there is one, and [final], which is [cb(err)], runs when none is left. *)
Definition task_done (files : list str) (b : batch) (fs : filesystem) (j : nat)
    (_err : option error) : state :=
  let err := match _err with
             | Some _ => b_err b ++ [default [] (files !! j)]
             | None => b_err b
             end in
  let b' := mkBatch fs (b_next b) (pred (b_left b))
              (delete j (b_running b)) err (b_log b ++ [(j, _err)]) in
  if bool_decide (b_next b' < length files)%nat then Active (start_next b')
  else if bool_decide (b_left b' = 0%nat) then Returned (inr err) fs (b_log b')
  else Active b'.

(** One turn of the event loop: operation [j] gets its pending callback. *)
Definition turn (files : list str) (version : str) (b : batch) (j : nat)
    : option state :=
  let this := task_Version files version j in
  ph ← b_running b !! j;
  Some match ph with
       | Reading =>
           match change_on_read (b_fs b) this with
           | CallsBack err => task_done files b (b_fs b) j (Some err)
           | Writes text =>
               Active (mkBatch (b_fs b) (b_next b) (b_left b)
                         (<[j := Writing text]> (b_running b))
                         (b_err b) (b_log b))
           | Uncaught e => Crashed e b
           end
       | Writing text =>
           let '(err, fs') := change_on_write (b_fs b) this text in
           task_done files b fs' j err
       end.

(** A run follows a schedule from a state; no turn is possible once the
    call has returned or the process has crashed. *)
Fixpoint run (files : list str) (version : str) (st : state)
    (schedule : list nat) : option state :=
  match schedule with
  | [] => Some st
  | j :: schedule' =>
      match st with
      | Active b => st' ← turn files version b j; run files version st' schedule'
      | _ => None
      end
  end.

End Files.

(** * Specification

    The notions the theorems below are stated with. *)

Section Specification.
Local Open Scope nat_scope.

(** The number of leading code units of [s] that satisfy [p]. *)
Fixpoint span (p : N → bool) (s : str) : nat :=
  match s with
  | c :: s' => if p c then S (span p s') else 0
  | [] => 0
  end.

(** The matcher state at position [k] with the captures [caps]. *)
Definition at_index (caps : list (option (nat * nat))) (k : nat) : mstate :=
  MState k caps.

(** Where a maximal run of [p] that starts at [e] ends; none if it is empty. *)
Definition run_end (p : N → bool) (s : str) (e : nat) : option nat :=
  match span p (drop e s) with
  | 0 => None
  | n => Some (e + n)
  end.

(** Where the optional [-alphanumeric] suffix that starts at [e] ends. *)
Definition suffix_end (s : str) (e : nat) : nat :=
  if bool_decide (s !! e = Some 45%N)
  then default e (run_end is_alnum s (S e)) else e.

(** Where the version token that starts at [j] ends, if there is one. *)
Definition token_end (s : str) (j : nat) : option nat :=
  e1 ← run_end is_digit s j;
  if bool_decide (s !! e1 = Some 46%N) then
    e2 ← run_end is_digit s (S e1);
    if bool_decide (s !! e2 = Some 46%N) then
      e3 ← run_end is_digit s (S e2);
      Some (suffix_end s e3)
    else None
  else None.

(** The marker [\bVERSION\b] stands at index [i]. *)
Definition marker_at (s : str) (i : nat) : bool :=
  at_word_boundary s i
  && bool_decide (take 7 (drop i s) = lit "VERSION")
  && at_word_boundary s (i + 7).

(** The first index of [js] at which a token starts, with the token's end. *)
Fixpoint first_token (s : str) (js : list nat) : option (nat * nat) :=
  match js with
  | [] => None
  | j :: js' =>
      match token_end s j with
      | Some k => Some (j, k)
      | None => first_token s js'
      end
  end.

(** The match of the pattern that starts at [i]: where the token starts and
    where it ends. *)
Definition version_at (s : str) (i : nat) : option (nat * nat) :=
  if marker_at s i
  then first_token s (seq (i + 7) (S (span is_dot (drop (i + 7) s))))
  else None.

Definition VERSION_result (i : nat) (jk : nat * nat) : match_result :=
  MatchResult i (MState jk.2 [None; Some (i, jk.1); Some jk]).

(** The first match of the pattern in [s]: its start, the start of the
    token and the end of the token. *)
Definition find_version (s : str) : option (nat * (nat * nat)) :=
  head (omap (fun i => pair i <$> version_at s i) (seq 0 (S (length s)))).

(** [\d+]: a non-empty string of digits. *)
Definition digits (w : str) : Prop :=
  w ≠ [] ∧ Forall (fun c => is_digit c = true) w.

(** [(?:-[a-zA-Z0-9]+)?]: nothing, or a dash and a non-empty alphanumeric
    string. *)
Definition prerelease_suffix (w : str) : Prop :=
  w = [] ∨ ∃ p, w = 45%N :: p ∧ p ≠ [] ∧ Forall (fun c => is_alnum c = true) p.

(** [\d+\.\d+\.\d+(?:-[a-zA-Z0-9]+)?] *)
Definition token_shape (w : str) : Prop :=
  ∃ a b c x, w = a ++ [46%N] ++ b ++ [46%N] ++ c ++ x
    ∧ digits a ∧ digits b ∧ digits c ∧ prerelease_suffix x.

(** An occurrence of the pattern in [s]: the word [VERSION] at [i] between
    word boundaries, then code units none of which is a line terminator up
    to [j], then a token from [j] to [k]. *)
Record occurrence (s : str) (i j k : nat) : Prop := mkOccurrence {
  occ_order : i + 7 ≤ j ∧ j ≤ k ∧ k ≤ length s;
  occ_word : substring s i (i + 7) = lit "VERSION";
  occ_left : at_word_boundary s i = true;
  occ_right : at_word_boundary s (i + 7) = true;
  occ_between : Forall (fun c => is_dot c = true) (substring s (i + 7) j);
  occ_token : token_shape (substring s j k)
}.

(** The text [replace] puts where the token was. *)
Definition replacement_text (s : str) (i j k : nat) (t : str) : str :=
  get_substitution (substring s i k) s i
    [Some (substring s i j); Some (substring s j k)] t.

(** The code units a pattern can consume. *)
Fixpoint alphabet (r : regex) (c : N) : bool :=
  match r with
  | CharSet p => p c
  | Seq r1 r2 | Alt r1 r2 => alphabet r1 c || alphabet r2 c
  | Star _ r' | Group _ r' => alphabet r' c
  | Eps | WordBoundary | InputStart | InputEnd => false
  end.

(** Between [a] and [b] the input holds only code units [p] accepts. *)
Definition stretch (p : N → bool) (s : str) (a b : nat) : Prop :=
  a ≤ b ∧ ∀ k, a ≤ k < b → ∃ c, s !! k = Some c ∧ p c = true.

(** The paths of the failed operations of a log, in the order they finished. *)
Definition failed_paths (files : list str) (log : list (nat * option error))
    : list str :=
  omap (fun e => match e.2 with
                 | Some _ => Some (default [] (files !! e.1))
                 | None => None
                 end) log.

(** What holds of the batch between two turns. *)
Record batch_inv (files : list str) (b : batch) : Prop := mkBatchInv {
  inv_next : (b_next b ≤ length files)%nat;
  inv_cap : (size (b_running b) ≤ limit)%nat;
  inv_full : (b_next b < length files)%nat → size (b_running b) = limit;
  inv_left : b_left b = (size (b_running b) + (length files - b_next b))%nat;
  inv_started : ∀ j, (j < b_next b)%nat ↔
                     is_Some (b_running b !! j) ∨ j ∈ (b_log b).*1;
  inv_once : ∀ j, is_Some (b_running b !! j) → j ∉ (b_log b).*1;
  inv_nodup : NoDup (b_log b).*1;
  inv_err : b_err b = failed_paths files (b_log b);
  inv_busy : b_running b ≠ ∅
}.

Definition state_inv (files : list str) (st : state) : Prop :=
  match st with
  | Active b | Crashed _ b => batch_inv files b
  | Returned result _ log =>
      result = inr (failed_paths files log) ∧ log.*1 ≡ₚ seq 0 (length files)
  end.

(** The first occurrence of the pattern in [s]: the leftmost start, then the
    shortest stretch between the word and the token, then the longest
    token. *)
Definition first_occurrence (s : str) (i j k : nat) : Prop :=
  occurrence s i j k
  ∧ ∀ i' j' k', occurrence s i' j' k' →
      i < i' ∨ (i = i' ∧ j < j') ∨ (i = i' ∧ j = j' ∧ k' ≤ k).

(** A file that is neither JSON-kind (by its extension) nor a plain version
    file (by its type). *)
Definition pattern_embedded (this : Version) : Prop :=
  str_eqb (Path.extname (file this)) (lit ".json") = false
  ∧ is_VERSION_type this = false.

(** The pattern as it would be if the stretch between the word and the
    token could cross line breaks ([.] with the [s] flag). *)
Definition VERSION_across_lines : regex :=
  Group 1 (WordBoundary >> Word (lit "VERSION") >> WordBoundary >>
           Star false (CharSet (fun _ => true)))
  >> Group 2 token.

(** The word, a line break, a version. *)
Definition line_break_sample : str := lit "VERSION" ++ [10%N] ++ lit "1.2.3".

(** The text [readFile] decodes from the file, when the file can be read. *)
Definition read_text (fs : filesystem) (path : str) : error + str :=
  match fs_readFile fs path with
  | inl err => inl err
  | inr buf => inr (toString buf)
  end.

(** Well-formed UTF-16: every high surrogate is followed by a low one, and
    no low surrogate stands on its own. *)
Fixpoint well_formed_utf16 (s : str) : bool :=
  match s with
  | [] => true
  | c :: s1 =>
      if UTF8.is_high c then
        match s1 with
        | d :: s2 => UTF8.is_low d && well_formed_utf16 s2
        | [] => false
        end
      else negb (UTF8.is_low c) && (c <? 65536)%N && well_formed_utf16 s1
  end.

(** Well-formed UTF-8, by the table of well-formed byte sequences of the
    Unicode Standard (Table 3-7): no overlong forms, no surrogates, nothing
    beyond U+10FFFF. *)
Fixpoint well_formed_utf8 (bs : list N) : bool :=
  match bs with
  | [] => true
  | b0 :: bs1 =>
      if (b0 <? 128)%N then well_formed_utf8 bs1
      else if UTF8.in_range 194 223 b0 then
        match bs1 with
        | b1 :: bs2 => UTF8.in_range 128 191 b1 && well_formed_utf8 bs2
        | [] => false
        end
      else if UTF8.in_range 224 239 b0 then
        match bs1 with
        | b1 :: b2 :: bs3 =>
            UTF8.in_range (if (b0 =? 224)%N then 160 else 128)%N
              (if (b0 =? 237)%N then 159 else 191)%N b1
            && UTF8.in_range 128 191 b2 && well_formed_utf8 bs3
        | _ => false
        end
      else if UTF8.in_range 240 244 b0 then
        match bs1 with
        | b1 :: b2 :: b3 :: bs4 =>
            UTF8.in_range (if (b0 =? 240)%N then 144 else 128)%N
              (if (b0 =? 244)%N then 143 else 191)%N b1
            && UTF8.in_range 128 191 b2 && UTF8.in_range 128 191 b3
            && well_formed_utf8 bs4
        | _ => false
        end
      else false
  end.

(** A code unit that is a character of its own: no surrogate. *)
Definition plain_unit (c : N) : Prop :=
  ((c < 55296) ∨ (57343 < c))%N ∧ (c < 65536)%N.

(** A file that can be read and written and holds the text, encoded. *)
Definition text_file (s : str) : file_node := mkFile (Buffer_from s) true true.

(** The stored version is absent or a string [semver.valid] accepts: the
    test [setVersion] makes. *)
Definition accepted_or_absent (this : Version) : Prop :=
  match version this with
  | Some v => is_Some (Semver.valid (VString v))
  | None => True
  end.

(** The invariant in the words of the specification: the stored version is
    absent or has the shape major.minor.patch with an optional prerelease
    identifier of alphanumerics. *)
Definition shape_or_absent (this : Version) : Prop :=
  match version this with
  | Some v => token_shape v
  | None => True
  end.

(** A numeral without a leading zero: [0], or digits that begin with a
    digit other than [0]. *)
Definition numeral (w : str) : Prop :=
  digits w ∧ (head w = Some 48%N → w = [48%N]).

(** A strict version: major.minor.patch with an optional prerelease
    identifier of alphanumerics, in the words of the specification, where
    moreover the three numbers are numerals not above the largest safe
    integer, the identifier is no numeral with a leading zero, and the
    string has no more than 256 code units. *)
Definition strict_version (v : str) : Prop :=
  ∃ a b c x, v = a ++ [46%N] ++ b ++ [46%N] ++ c ++ x
    ∧ numeral a ∧ numeral b ∧ numeral c ∧ prerelease_suffix x
    ∧ (∀ p, x = 45%N :: p → Forall (fun u => is_digit u = true) p → numeral p)
    ∧ (to_number a ≤ Semver.MAX_SAFE_INTEGER)%N
    ∧ (to_number b ≤ Semver.MAX_SAFE_INTEGER)%N
    ∧ (to_number c ≤ Semver.MAX_SAFE_INTEGER)%N
    ∧ (length v ≤ Semver.MAX_LENGTH)%nat.

(** A lenient version: once trimmed and without a leading [v], the string
    begins with three numerals with dots between, none above the largest
    safe integer, and goes on with nothing, a dash or a plus sign; and it
    has no more than 256 code units. *)
Definition lenient_version (v : str) : Prop :=
  ∃ a b c rest,
    (trim v = a ++ [46%N] ++ b ++ [46%N] ++ c ++ rest
     ∨ trim v = 118%N :: a ++ [46%N] ++ b ++ [46%N] ++ c ++ rest)
    ∧ numeral a ∧ numeral b ∧ numeral c
    ∧ (rest = [] ∨ head rest = Some 45%N ∨ head rest = Some 43%N)
    ∧ (to_number a ≤ Semver.MAX_SAFE_INTEGER)%N
    ∧ (to_number b ≤ Semver.MAX_SAFE_INTEGER)%N
    ∧ (to_number c ≤ Semver.MAX_SAFE_INTEGER)%N
    ∧ (length v ≤ Semver.MAX_LENGTH)%nat.

(** The pattern has a capture group [i]. *)
Fixpoint has_group (r : regex) (i : nat) : bool :=
  match r with
  | Group j r' => (i =? j)%nat || has_group r' i
  | Seq r1 r2 | Alt r1 r2 => has_group r1 i || has_group r2 i
  | Star _ r' => has_group r' i
  | _ => false
  end.

(** A stand-in for the engine's JSON in the examples: it parses the text
    [null] and nothing else. *)
Definition example_JSON : JSON :=
  {| JSON_parse s := if str_eqb s (lit "null") then Some VNull else None;
     JSON_stringify _ := lit "null" |}.

(** An example file system. *)
Definition example_fs : filesystem :=
  list_to_map
    [(lit "version.js", text_file (lit "const VERSION = '1.2.3'"));
     (lit "README", text_file (lit "no version here"));
     (lit "VERSION", text_file (lit " 1.2.3 "));
     (lit "VERSION.txt", text_file (lit "1.2.3"));
     (lit "data.json", text_file (lit "null"))].

(** A file system with two files whose bytes are no well-formed UTF-8: each
    begins with the byte [e9], the letter e with an acute accent in
    Latin-1. *)
Definition latin1_fs : filesystem :=
  list_to_map
    [(lit "notes.txt", mkFile (mkBuffer [233%N]) true true);
     (lit "version.js",
      mkFile (mkBuffer (233%N :: UTF8.encode (lit " VERSION 1.2.3"))) true true)].

(** A batch is stuck on [path] while the file holds the text [null], and no
    operation on it has got past its read. *)
Definition stuck_on (files : list str) (path : str) (b : batch) : Prop :=
  read_text (b_fs b) path = inr (lit "null")
  ∧ ∀ k, files !! k = Some path →
         (k ∉ (b_log b).*1) ∧ (∀ text, b_running b !! k ≠ Some (Writing text)).

Definition never_returns (files : list str) (path : str) (st : state) : Prop :=
  match st with
  | Active b => stuck_on files path b
  | Crashed _ _ => True
  | Returned _ _ _ => False
  end.

(** The turns an operation in flight still needs at most: the read
    callback and the write callback. *)
Definition phase_turns (ph : phase) : nat :=
  match ph with
  | Reading => 2
  | Writing _ => 1
  end.

Definition running_turns (running : gmap nat phase) : nat :=
  map_fold (fun _ ph acc => phase_turns ph + acc) 0 running.

(** The turns a batch still needs at most. *)
Definition turns_left (files : list str) (st : state) : nat :=
  match st with
  | Active b => 2 * (length files - b_next b) + running_turns (b_running b)
  | Returned _ _ _ | Crashed _ _ => 0
  end.

(** The capture groups of a pattern, each with the code units its body can
    consume. *)
Fixpoint group_alphabet (r : regex) (i : nat) (c : N) : bool :=
  match r with
  | Group j r' => ((i =? j) && alphabet r' c) || group_alphabet r' i c
  | Seq r1 r2 | Alt r1 r2 => group_alphabet r1 i c || group_alphabet r2 i c
  | Star _ r' => group_alphabet r' i c
  | Eps | CharSet _ | WordBoundary | InputStart | InputEnd => false
  end.

(** A code unit of a prerelease suffix: a letter, a digit, a dash or a dot. *)
Definition is_prerelease_unit (c : N) : bool :=
  Semver.is_letter_dash_number c || (c =? 46)%N.

(** The shape of a version as [format] prints it: major.minor.patch, then
    possibly a dash and a non-empty prerelease suffix. *)
Definition version_shape (w : str) : Prop :=
  ∃ a b c x, w = a ++ [46%N] ++ b ++ [46%N] ++ c ++ x
    ∧ digits a ∧ digits b ∧ digits c
    ∧ (x = [] ∨ ∃ p, x = 45%N :: p ∧ p ≠ []
                     ∧ Forall (fun u => is_prerelease_unit u = true) p).

(** A prerelease identifier of a parsed version: a number, or a string of
    letters, digits and dashes. *)
Definition identifier_ok (id : N + str) : Prop :=
  match id with
  | inl _ => True
  | inr w => Forall (fun u => Semver.is_letter_dash_number u = true) w
  end.

(** A prerelease list prints as nothing or as a non-empty suffix. *)
Definition prerelease_ok (ids : list (N + str)) : Prop :=
  Forall identifier_ok ids
  ∧ (ids = [] ∨ 2 ≤ length ids
     ∨ ∃ id, ids = [id] ∧ Semver.identifier_string id ≠ []).

(** The file system, the operations in flight and the log of a state of
    a batch. *)
Definition fs_of (st : state) : filesystem :=
  match st with
  | Active b | Crashed _ b => b_fs b
  | Returned _ fs _ => fs
  end.

Definition running_of (st : state) : gmap nat phase :=
  match st with
  | Active b | Crashed _ b => b_running b
  | Returned _ _ _ => ∅
  end.

Definition log_of (st : state) : list (nat * option error) :=
  match st with
  | Active b | Crashed _ b => b_log b
  | Returned _ _ log => log
  end.

(** The same files exist in both file systems, with the same permissions. *)
Definition same_files (fs fs' : filesystem) : Prop :=
  ∀ path, match fs !! path, fs' !! path with
          | None, None => True
          | Some f, Some f' => readable f = readable f' ∧ writable f = writable f'
          | _, _ => False
          end.

(** Every operation that is about to write is among those of [running]. *)
Definition fewer_writing (running' running : gmap nat phase) : Prop :=
  ∀ j text, running' !! j = Some (Writing text) → running !! j = Some (Writing text).

(** What a batch on the file system [fs0] keeps true of the files: those
    outside the list are as they were, no file appeared or disappeared or
    changed its permissions, and an operation about to write has its file. *)
Definition frame_ok (fs0 : filesystem) (files : list str) (st : state) : Prop :=
  (∀ path, path ∉ files → fs_of st !! path = fs0 !! path)
  ∧ same_files fs0 (fs_of st)
  ∧ ∀ j text, running_of st !! j = Some (Writing text) →
              is_Some (fs_of st !! default [] (files !! j)).

(** What a batch on distinct files keeps true: a finished operation
    reported what the change of its file alone reports on the file system
    the batch started with, and its file holds what that change leaves; an
    operation about to write holds the text that change writes; the file of
    an operation that has not finished is as it was. *)
Definition isolated_ok `{JSON} (fs0 : filesystem) (files : list str)
    (version : str) (st : state) : Prop :=
  (∀ j r, (j, r) ∈ log_of st →
     ∃ fsj, change fs0 (task_Version files version j) = Normal (r, fsj)
            ∧ fs_of st !! default [] (files !! j) = fsj !! default [] (files !! j))
  ∧ (∀ j text, running_of st !! j = Some (Writing text) →
       change_on_read fs0 (task_Version files version j) = Writes text)
  ∧ (∀ j, (j < length files)%nat → j ∉ (log_of st).*1 →
       fs_of st !! default [] (files !! j) = fs0 !! default [] (files !! j)).

End Specification.

(** * Properties *)

(** ** UTF-8 and UTF-16 *)

Section Codec.
Import UTF8.

Ltac divmod x d :=
  let q := fresh "q" in
  let r := fresh "r" in
  let Hq := fresh "Hq" in
  let Hr := fresh "Hr" in
  assert (x = d * (x / d) + x mod d) as Hq by (apply N.div_mod; lia);
  assert (x mod d < d) as Hr by (apply N.mod_upper_bound; lia);
  set (q := x / d) in *; set (r := x mod d) in *; clearbody q r.

Ltac cmp :=
  repeat match goal with
  | |- context [?a <? ?b] => destruct (N.ltb_spec a b); try lia
  | |- context [?a <=? ?b] => destruct (N.leb_spec a b); try lia
  | |- context [?a =? ?b] => destruct (N.eqb_spec a b); try lia
  end.

Lemma strong_list_ind {A} (P : list A → Prop) :
  (∀ l, (∀ l', length l' < length l → P l')%nat → P l) → ∀ l, P l.
Proof.
  intros Hstep l. remember (length l) as n eqn:Hn.
  revert l Hn. induction (lt_wf n) as [n _ IH]. intros l ->.
  apply Hstep. intros l' Hlt. by eapply IH.
Qed.

Lemma encode_bmp c s :
  c < 55296 ∨ 57343 < c → encode (c :: s) = encode_cp c ++ encode s.
Proof. intros Hc. cbn [encode]. unfold is_high, is_low. cmp; done. Qed.

Lemma encode_pair cp s :
  65536 ≤ cp < 1114112 → encode (pair_of cp ++ s) = encode_cp cp ++ encode s.
Proof.
  intros Hcp. unfold pair_of. cbn [app encode].
  divmod (cp - 65536) 1024. unfold is_high, is_low. cmp. cbn [andb].
  do 2 f_equal. lia.
Qed.

Lemma encode_cp_1 b0 : b0 < 128 → encode_cp b0 = [b0].
Proof. intros H0. unfold encode_cp. cmp; done. Qed.

Lemma encode_cp_2 b0 b1 :
  194 ≤ b0 ≤ 223 → 128 ≤ b1 ≤ 191 →
  encode_cp ((b0 - 192) * 64 + (b1 - 128)) = [b0; b1].
Proof.
  intros H0 H1. unfold encode_cp.
  set (cp := (b0 - 192) * 64 + (b1 - 128)).
  assert (128 ≤ cp < 2048) as Hcp by (unfold cp; lia).
  assert (cp / 64 = b0 - 192 ∧ cp mod 64 = b1 - 128) as [-> ->].
  { divmod cp 64. unfold cp in *. lia. }
  cmp. f_equal; [lia|]. f_equal. lia.
Qed.

Lemma encode_cp_3 b0 b1 b2 :
  224 ≤ b0 ≤ 239 →
  (if b0 =? 224 then 160 else 128) ≤ b1 → b1 ≤ 191 → 128 ≤ b2 ≤ 191 →
  encode_cp (((b0 - 224) * 64 + (b1 - 128)) * 64 + (b2 - 128)) = [b0; b1; b2].
Proof.
  intros H0 H1 H1' H2. unfold encode_cp.
  assert (128 ≤ b1 ∧ (b0 = 224 → 160 ≤ b1)) as [H1a H1b].
  { destruct (N.eqb_spec b0 224); lia. }
  set (cp := ((b0 - 224) * 64 + (b1 - 128)) * 64 + (b2 - 128)).
  assert (2048 ≤ cp < 65536) as Hcp by (unfold cp; lia).
  assert (cp / 64 = (b0 - 224) * 64 + (b1 - 128) ∧ cp mod 64 = b2 - 128) as [-> ->].
  { divmod cp 64. unfold cp in *. lia. }
  assert (((b0 - 224) * 64 + (b1 - 128)) / 64 = b0 - 224
          ∧ ((b0 - 224) * 64 + (b1 - 128)) mod 64 = b1 - 128) as [-> ->].
  { divmod ((b0 - 224) * 64 + (b1 - 128)) 64. lia. }
  cmp. f_equal; [lia|]. f_equal; [lia|]. f_equal. lia.
Qed.

Lemma encode_cp_4 b0 b1 b2 b3 :
  240 ≤ b0 ≤ 244 →
  (if b0 =? 240 then 144 else 128) ≤ b1 → b1 ≤ 191 →
  128 ≤ b2 ≤ 191 → 128 ≤ b3 ≤ 191 →
  encode_cp ((((b0 - 240) * 64 + (b1 - 128)) * 64 + (b2 - 128)) * 64 + (b3 - 128))
  = [b0; b1; b2; b3].
Proof.
  intros H0 H1 H1' H2 H3. unfold encode_cp.
  assert (128 ≤ b1 ∧ (b0 = 240 → 144 ≤ b1)) as [H1a H1b].
  { destruct (N.eqb_spec b0 240); lia. }
  set (cp := (((b0 - 240) * 64 + (b1 - 128)) * 64 + (b2 - 128)) * 64 + (b3 - 128)).
  assert (65536 ≤ cp) as Hcp by (unfold cp; lia).
  assert (cp / 64 = ((b0 - 240) * 64 + (b1 - 128)) * 64 + (b2 - 128)
          ∧ cp mod 64 = b3 - 128) as [-> ->].
  { divmod cp 64. unfold cp in *. lia. }
  assert ((((b0 - 240) * 64 + (b1 - 128)) * 64 + (b2 - 128)) / 64
          = (b0 - 240) * 64 + (b1 - 128)
          ∧ (((b0 - 240) * 64 + (b1 - 128)) * 64 + (b2 - 128)) mod 64 = b2 - 128)
    as [-> ->].
  { divmod (((b0 - 240) * 64 + (b1 - 128)) * 64 + (b2 - 128)) 64. lia. }
  assert (((b0 - 240) * 64 + (b1 - 128)) / 64 = b0 - 240
          ∧ ((b0 - 240) * 64 + (b1 - 128)) mod 64 = b1 - 128) as [-> ->].
  { divmod ((b0 - 240) * 64 + (b1 - 128)) 64. lia. }
  cmp. f_equal; [lia|]. f_equal; [lia|]. f_equal; [lia|]. f_equal. lia.
Qed.

Ltac range H :=
  unfold in_range in H; apply andb_true_iff in H as [?%N.leb_le ?%N.leb_le].

(** Well-formed UTF-8 survives decoding and encoding. *)
Lemma encode_decode bs : well_formed_utf8 bs = true → encode (decode bs) = bs.
Proof.
  induction bs as [bs IH] using strong_list_ind.
  destruct bs as [|b0 bs1]; [done|]. cbn [well_formed_utf8 decode].
  destruct (N.ltb_spec b0 128) as [H0|H0].
  { intros Hwf. rewrite encode_bmp, encode_cp_1 by lia. simpl. f_equal.
    apply IH; [simpl; lia|done]. }
  destruct (in_range 194 223 b0) eqn:R2.
  { range R2. destruct bs1 as [|b1 bs2]; [done|].
    intros [R1 Hwf]%andb_true_iff. rewrite R1. range R1.
    rewrite encode_bmp, encode_cp_2 by lia. simpl. do 2 f_equal.
    apply IH; [simpl; lia|done]. }
  destruct (in_range 224 239 b0) eqn:R3.
  { range R3. destruct bs1 as [|b1 [|b2 bs3]]; [done..|].
    intros [[R1 R2']%andb_true_iff Hwf]%andb_true_iff. rewrite R1, R2'.
    range R1. range R2'.
    rewrite encode_bmp, encode_cp_3 by
      (try done; try lia; destruct (N.eqb_spec b0 224); destruct (N.eqb_spec b0 237); lia).
    simpl. do 3 f_equal. apply IH; [simpl; lia|done]. }
  destruct (in_range 240 244 b0) eqn:R4; [|done].
  range R4. destruct bs1 as [|b1 [|b2 [|b3 bs4]]]; [done..|].
  intros [[[R1 R2']%andb_true_iff R3']%andb_true_iff Hwf]%andb_true_iff.
  rewrite R1, R2', R3'. range R1. range R2'. range R3'.
  rewrite encode_pair, encode_cp_4 by
    (try done; try lia; destruct (N.eqb_spec b0 240); destruct (N.eqb_spec b0 244); lia).
  simpl. do 4 f_equal. apply IH; [simpl; lia|done].
Qed.


Ltac decide_cmp :=
  repeat match goal with
  | |- context [?a <? ?b] =>
      first [ replace (a <? b) with true by (symmetry; apply N.ltb_lt; lia)
            | replace (a <? b) with false by (symmetry; apply N.ltb_ge; lia) ]
  | |- context [?a <=? ?b] =>
      first [ replace (a <=? b) with true by (symmetry; apply N.leb_le; lia)
            | replace (a <=? b) with false by (symmetry; apply N.leb_gt; lia) ]
  | |- context [?a =? ?b] =>
      first [ replace (a =? b) with true by (symmetry; apply N.eqb_eq; lia)
            | replace (a =? b) with false by (symmetry; apply N.eqb_neq; lia) ]
  end.

Lemma decode_cons b0 bs1 :
  decode (b0 :: bs1)
  = ltac:(let t := eval cbn [decode] in (decode (b0 :: bs1)) in exact t).
Proof. reflexivity. Qed.

Lemma decode_1 b0 bs : b0 < 128 → decode (b0 :: bs) = b0 :: decode bs.
Proof. intros H0. rewrite decode_cons. by decide_cmp. Qed.

Lemma decode_2 b0 b1 bs :
  194 ≤ b0 ≤ 223 → 128 ≤ b1 ≤ 191 →
  decode (b0 :: b1 :: bs) = ((b0 - 192) * 64 + (b1 - 128)) :: decode bs.
Proof.
  intros H0 H1. rewrite decode_cons. unfold in_range. by decide_cmp.
Qed.

Lemma decode_3 b0 b1 b2 bs :
  224 ≤ b0 ≤ 239 → 128 ≤ b1 ≤ 191 → (b0 = 224 → 160 ≤ b1) →
  (b0 = 237 → b1 ≤ 159) → 128 ≤ b2 ≤ 191 →
  decode (b0 :: b1 :: b2 :: bs)
  = (((b0 - 224) * 64 + (b1 - 128)) * 64 + (b2 - 128)) :: decode bs.
Proof.
  intros H0 H1 Hlo Hhi H2. rewrite decode_cons. unfold in_range.
  destruct (N.eqb_spec b0 224); destruct (N.eqb_spec b0 237); try lia;
    by decide_cmp.
Qed.

Lemma decode_4 b0 b1 b2 b3 bs :
  240 ≤ b0 ≤ 244 → 128 ≤ b1 ≤ 191 → (b0 = 240 → 144 ≤ b1) →
  (b0 = 244 → b1 ≤ 143) → 128 ≤ b2 ≤ 191 → 128 ≤ b3 ≤ 191 →
  decode (b0 :: b1 :: b2 :: b3 :: bs)
  = pair_of ((((b0 - 240) * 64 + (b1 - 128)) * 64 + (b2 - 128)) * 64 + (b3 - 128))
    ++ decode bs.
Proof.
  intros H0 H1 Hlo Hhi H2 H3. rewrite decode_cons. unfold in_range.
  destruct (N.eqb_spec b0 240); destruct (N.eqb_spec b0 244); try lia;
    by decide_cmp.
Qed.

Lemma decode_encode_cp cp bs :
  cp < 55296 ∨ 57343 < cp → cp < 1114112 →
  decode (encode_cp cp ++ bs)
  = (if cp <? 65536 then [cp] else pair_of cp) ++ decode bs.
Proof.
  intros Hs Hmax. unfold encode_cp.
  destruct (N.ltb_spec cp 128) as [H1|H1].
  { cbn [app]. rewrite decode_1 by done. by decide_cmp. }
  destruct (N.ltb_spec cp 2048) as [H2|H2].
  { divmod cp 64. cbn [app]. rewrite decode_2 by lia. decide_cmp.
    cbn [app]. f_equal. lia. }
  destruct (N.ltb_spec cp 65536) as [H3|H3].
  { divmod cp 64. divmod q 64. cbn [app]. rewrite decode_3 by lia.
    cbn [app]. f_equal. lia. }
  divmod cp 64. divmod q 64. divmod q0 64. cbn [app].
  rewrite decode_4 by lia. do 2 f_equal. lia.
Qed.

(** Well-formed UTF-16 survives encoding and decoding. *)
Lemma decode_encode s : well_formed_utf16 s = true → decode (encode s) = s.
Proof.
  induction s as [s IH] using strong_list_ind.
  destruct s as [|c s1]; [done|]. cbn [well_formed_utf16 encode].
  destruct (is_high c) eqn:Hh.
  - destruct s1 as [|d s2]; [done|]. intros [Hl Hwf]%andb_true_iff. rewrite Hl.
    unfold is_high in Hh. unfold is_low in Hl.
    apply andb_true_iff in Hh as [?%N.leb_le ?%N.leb_le].
    apply andb_true_iff in Hl as [?%N.leb_le ?%N.leb_le].
    rewrite decode_encode_cp by lia.
    destruct (N.ltb_spec (65536 + (c - 55296) * 1024 + (d - 56320)) 65536); [lia|].
    unfold pair_of. rewrite IH by (simpl; lia || done). cbn [app].
    replace (65536 + (c - 55296) * 1024 + (d - 56320) - 65536)
      with ((c - 55296) * 1024 + (d - 56320)) by lia.
    divmod ((c - 55296) * 1024 + (d - 56320)) 1024.
    f_equal; [lia|]. f_equal. lia.
  - intros [[Hl Hc%N.ltb_lt]%andb_true_iff Hwf]%andb_true_iff.
    apply negb_true_iff in Hl. rewrite Hl.
    assert (c < 55296 ∨ 57343 < c) as Hs.
    { unfold is_high, is_low in *.
      destruct (N.leb_spec 55296 c); destruct (N.leb_spec c 56319);
        destruct (N.leb_spec 56320 c); destruct (N.leb_spec c 57343);
        simpl in *; try done; lia. }
    rewrite decode_encode_cp by lia.
    destruct (N.ltb_spec c 65536); [|lia]. cbn [app]. f_equal.
    apply IH; [simpl; lia|done].
Qed.

Lemma well_formed_pair_of cp s :
  65536 ≤ cp < 1114112 →
  well_formed_utf16 (pair_of cp ++ s) = well_formed_utf16 s.
Proof.
  intros Hcp. unfold pair_of. cbn [app well_formed_utf16].
  divmod (cp - 65536) 1024. unfold is_high, is_low. cmp. done.
Qed.

Lemma well_formed_bmp c s :
  c < 55296 ∨ 57343 < c → c < 65536 →
  well_formed_utf16 (c :: s) = well_formed_utf16 s.
Proof.
  intros Hs Hc. cbn [well_formed_utf16]. unfold is_high, is_low. cmp; done.
Qed.

(** Whatever the bytes, the decoded text is well-formed UTF-16: it holds no
    lone surrogate. *)
Lemma decode_well_formed bs : well_formed_utf16 (decode bs) = true.
Proof.
  induction bs as [bs IH] using strong_list_ind.
  assert (∀ bs', (length bs' < length bs)%nat →
            well_formed_utf16 (replacement :: decode bs') = true) as Hrep.
  { intros bs' Hlt. rewrite well_formed_bmp by (unfold replacement; lia).
    by apply IH. }
  destruct bs as [|b0 bs1]; [done|]. cbn [decode].
  destruct (N.ltb_spec b0 128) as [H0|H0].
  { rewrite well_formed_bmp by lia. apply IH. simpl. lia. }
  destruct (in_range 194 223 b0) eqn:R2.
  { range R2. destruct bs1 as [|b1 bs2]; [done|].
    destruct (in_range 128 191 b1) eqn:R1; [|apply Hrep; simpl; lia].
    range R1. rewrite well_formed_bmp by lia. apply IH. simpl. lia. }
  destruct (in_range 224 239 b0) eqn:R3.
  { range R3. destruct bs1 as [|b1 bs2]; [done|].
    destruct (in_range _ _ b1) eqn:R1; [|apply Hrep; simpl; lia].
    destruct bs2 as [|b2 bs3]; [done|].
    destruct (in_range 128 191 b2) eqn:R2'; [|apply Hrep; simpl; lia].
    range R1. range R2'.
    rewrite well_formed_bmp; [apply IH; simpl; lia| |];
      destruct (N.eqb_spec b0 224); destruct (N.eqb_spec b0 237); lia. }
  destruct (in_range 240 244 b0) eqn:R4; [|apply Hrep; simpl; lia].
  range R4. destruct bs1 as [|b1 bs2]; [done|].
  destruct (in_range _ _ b1) eqn:R1; [|apply Hrep; simpl; lia].
  destruct bs2 as [|b2 bs3]; [done|].
  destruct (in_range 128 191 b2) eqn:R2'; [|apply Hrep; simpl; lia].
  destruct bs3 as [|b3 bs4]; [done|].
  destruct (in_range 128 191 b3) eqn:R3'; [|apply Hrep; simpl; lia].
  range R1. range R2'. range R3'.
  rewrite well_formed_pair_of; [apply IH; simpl; lia|].
  destruct (N.eqb_spec b0 240); destruct (N.eqb_spec b0 244); lia.
Qed.

(** Encoding two texts one after the other, when the cut does not fall
    inside a surrogate pair. *)
Lemma encode_app_r a b :
  (∀ c, head b = Some c → is_low c = false) →
  encode (a ++ b) = encode a ++ encode b.
Proof.
  intros Hb. induction a as [a IH] using strong_list_ind.
  destruct a as [|c a1]; [done|]. cbn [app encode].
  destruct (is_high c) eqn:Hh.
  - destruct a1 as [|d a2]; cbn [app].
    + destruct b as [|d b']; [by rewrite app_nil_r|].
      by rewrite (Hb d eq_refl).
    + destruct (is_low d); rewrite <- app_assoc; f_equal.
      * apply IH. simpl. lia.
      * apply (IH (d :: a2)). simpl. lia.
  - destruct (is_low c); rewrite <- app_assoc; f_equal; apply IH; simpl; lia.
Qed.

Lemma encode_app_l a b :
  (∀ c, last a = Some c → is_high c = false) →
  encode (a ++ b) = encode a ++ encode b.
Proof.
  induction a as [a IH] using strong_list_ind. intros Ha.
  destruct a as [|c a1]; [done|]. cbn [app encode].
  destruct (is_high c) eqn:Hh.
  - destruct a1 as [|d a2]; cbn [app].
    + by rewrite (Ha c eq_refl) in Hh.
    + destruct (is_low d); rewrite <- app_assoc; f_equal.
      * apply IH; [simpl; lia|]. intros c' Hc'. apply Ha.
        destruct a2; [done|]. done.
      * apply (IH (d :: a2)); [simpl; lia|]. intros c' Hc'. by apply Ha.
  - destruct (is_low c); rewrite <- app_assoc; f_equal;
      (apply IH; [simpl; lia|]; intros c' Hc'; apply Ha;
       destruct a1; [done|done]).
Qed.

Lemma well_formed_utf16_app a b :
  well_formed_utf16 a = true → well_formed_utf16 b = true →
  well_formed_utf16 (a ++ b) = true.
Proof.
  intros Ha Hb. induction a as [a IH] using strong_list_ind.
  destruct a as [|c a1]; [done|]. cbn [app well_formed_utf16] in *.
  destruct (is_high c).
  - destruct a1 as [|d a2]; [done|]. cbn [app].
    apply andb_true_iff in Ha as [-> Ha]. apply IH; [simpl; lia|done].
  - apply andb_true_iff in Ha as [-> Ha]. apply IH; [simpl; lia|done].
Qed.

(** Cutting a well-formed text where no surrogate pair is cut. *)
Lemma well_formed_utf16_cut_r a b :
  well_formed_utf16 (a ++ b) = true →
  (∀ c, head b = Some c → is_low c = false) →
  well_formed_utf16 a = true ∧ well_formed_utf16 b = true.
Proof.
  intros Hab Hb. induction a as [a IH] using strong_list_ind.
  destruct a as [|c a1]; [done|]. cbn [app well_formed_utf16] in *.
  destruct (is_high c).
  - destruct a1 as [|d a2]; cbn [app] in *.
    + destruct b as [|d b']; [done|]. by rewrite (Hb d eq_refl) in Hab.
    + apply andb_true_iff in Hab as [-> Hab]. apply IH; [simpl; lia|done].
  - apply andb_true_iff in Hab as [-> Hab]. apply IH; [simpl; lia|done].
Qed.

Lemma well_formed_utf16_cut_l a b :
  well_formed_utf16 (a ++ b) = true →
  (∀ c, last a = Some c → is_high c = false) →
  well_formed_utf16 a = true ∧ well_formed_utf16 b = true.
Proof.
  induction a as [a IH] using strong_list_ind. intros Hab Ha.
  destruct a as [|c a1]; [done|]. cbn [app well_formed_utf16] in *.
  destruct (is_high c) eqn:Hh.
  - destruct a1 as [|d a2]; cbn [app] in *.
    + by rewrite (Ha c eq_refl) in Hh.
    + apply andb_true_iff in Hab as [-> Hab]. apply IH; [simpl; lia|done|].
      intros c' Hc'. apply Ha. by destruct a2.
  - apply andb_true_iff in Hab as [-> Hab]. apply IH; [simpl; lia|done|].
    intros c' Hc'. apply Ha. by destruct a1.
Qed.

(** A text without surrogates is well-formed. *)
Lemma well_formed_utf16_plain s :
  Forall plain_unit s → well_formed_utf16 s = true.
Proof.
  induction 1 as [|c s [Hc Hc'] _ IH]; [done|].
  by rewrite well_formed_bmp.
Qed.

Lemma plain_unit_not_low c : plain_unit c → is_low c = false.
Proof. intros [Hc _]. unfold is_low. cmp; done. Qed.

Lemma plain_unit_not_high c : plain_unit c → is_high c = false.
Proof. intros [Hc _]. unfold is_high. cmp; done. Qed.

Lemma ascii_plain_unit c : c < 128 → plain_unit c.
Proof. intros Hc. unfold plain_unit. lia. Qed.

Lemma Buffer_from_toString buf :
  well_formed_utf8 (octets buf) = true → Buffer_from (toString buf) = buf.
Proof.
  intros Hwf. destruct buf as [bs]. unfold Buffer_from, toString. simpl in *.
  by rewrite encode_decode.
Qed.

Lemma toString_Buffer_from s :
  well_formed_utf16 s = true → toString (Buffer_from s) = s.
Proof. apply decode_encode. Qed.

Lemma toString_well_formed buf : well_formed_utf16 (toString buf) = true.
Proof. apply decode_well_formed. Qed.

End Codec.

Section ReadText.
Context `{JSON}.

(** [readFile] through the text it decodes. *)
Lemma readFile_read_text fs this :
  readFile fs this
  = match read_text fs (file this) with
    | inl err => inl err
    | inr data =>
        if str_eqb (Path.extname (file this)) (lit ".json") then
          match JSON_parse data with
          | Some parsed => inr parsed
          | None => inl SyntaxError
          end
        else inr (VString data)
    end.
Proof.
  unfold readFile, read_text. by destruct (fs_readFile fs (file this)).
Qed.

End ReadText.

(** ** The matcher on the shapes the [VERSION] pattern is made of *)

Section Spans.
Local Open Scope nat_scope.

Lemma span_le p s : span p s ≤ length s.
Proof. induction s as [|c s IH]; simpl; [lia|]. destruct (p c); simpl; lia. Qed.

Lemma span_all p s : Forall (fun c => p c = true) (take (span p s) s).
Proof.
  induction s as [|c s IH]; simpl; [constructor|].
  destruct (p c) eqn:E; simpl; [|constructor]. by constructor.
Qed.

Lemma span_stop p s c : s !! span p s = Some c → p c = false.
Proof.
  induction s as [|d s IH]; simpl; [done|].
  destruct (p d) eqn:E; simpl; [done|]. by intros [= <-].
Qed.

Lemma span_prefix p w s :
  Forall (fun c => p c = true) w → span p (w ++ s) = length w + span p s.
Proof. induction 1 as [|c w Hc _ IH]; simpl; [done|]. by rewrite Hc, IH. Qed.

Lemma drop_lookup_cons {A} (l : list A) e c :
  l !! e = Some c → drop e l = c :: drop (S e) l.
Proof. intros. by apply drop_S. Qed.

Lemma repeat_charset p s greedy fuel e caps :
  length s - e ≤ fuel →
  repeat_matcher (matches (CharSet p) s) greedy fuel (MState e caps)
  = at_index caps <$>
      (if greedy then reverse (seq e (S (span p (drop e s))))
       else seq e (S (span p (drop e s)))).
Proof.
  revert e. induction fuel as [|fuel IH]; intros e Hfuel.
  - rewrite drop_ge by lia. simpl. by destruct greedy.
  - simpl. destruct (s !! e) as [c|] eqn:Hc.
    + rewrite (drop_lookup_cons _ _ _ Hc). simpl.
      apply lookup_lt_Some in Hc.
      destruct (p c) eqn:Hp; simpl.
      * rewrite bool_decide_true by lia. rewrite app_nil_r.
        rewrite IH by lia.
        destruct greedy; [|done].
        rewrite reverse_cons, fmap_app. done.
      * by destruct greedy.
    + apply lookup_ge_None in Hc. rewrite drop_ge by lia. simpl.
      by destruct greedy.
Qed.

Lemma matches_star_charset p s greedy e caps :
  matches (Star greedy (CharSet p)) s (MState e caps)
  = at_index caps <$>
      (if greedy then reverse (seq e (S (span p (drop e s))))
       else seq e (S (span p (drop e s)))).
Proof. simpl matches. by apply repeat_charset. Qed.

Lemma matches_charset p s e caps :
  matches (CharSet p) s (MState e caps)
  = match s !! e with
    | Some c => if p c then [MState (S e) caps] else []
    | None => []
    end.
Proof. done. Qed.

End Spans.

Section MatcherFacts.
Local Open Scope nat_scope.

Lemma bind_all_nil {A B} (f : A → list B) (l : list A) :
  (∀ y, y ∈ l → f y = []) → l ≫= f = [].
Proof.
  induction l as [|y l IH]; intros Hf; [done|].
  rewrite bind_cons, Hf, IH; [done| |]; intros; try apply Hf; set_solver.
Qed.

Lemma bind_one {A B} (f : A → list B) (y : A) : [y] ≫= f = f y.
Proof. simpl. apply app_nil_r. Qed.

Lemma head_app_l {A} (l1 l2 : list A) :
  head (l1 ++ l2) = match head l1 with Some z => Some z | None => head l2 end.
Proof. by destruct l1. Qed.

Lemma matches_word w s e caps :
  matches (Word w) s (MState e caps)
  = if bool_decide (take (length w) (drop e s) = w)
    then [MState (e + length w) caps] else [].
Proof.
  revert e. induction w as [|c w IH]; intros e; simpl.
  - by rewrite Nat.add_0_r.
  - destruct (s !! e) as [d|] eqn:Hd.
    + rewrite (drop_lookup_cons _ _ _ Hd). simpl.
      destruct (N.eqb_spec c d) as [->|Hne]; simpl.
      * rewrite app_nil_r, IH.
        replace (S e + length w) with (e + S (length w)) by lia.
        repeat case_bool_decide; congruence.
      * case_bool_decide; [congruence|done].
    + apply lookup_ge_None in Hd. rewrite drop_ge by lia. simpl.
      try case_bool_decide; done.
Qed.

Lemma matches_plus_charset p s greedy e caps :
  matches (Plus greedy (CharSet p)) s (MState e caps)
  = at_index caps <$>
      (if greedy then reverse (seq (S e) (span p (drop e s)))
       else seq (S e) (span p (drop e s))).
Proof.
  unfold Plus. change (matches (?a >> ?b) s ?x) with (y ← matches a s x; matches b s y).
  rewrite matches_charset. destruct (s !! e) as [c|] eqn:Hc.
  - rewrite (drop_lookup_cons _ _ _ Hc). simpl span.
    destruct (p c); [|by destruct greedy].
    rewrite bind_one. apply matches_star_charset.
  - apply lookup_ge_None in Hc. rewrite drop_ge by lia. by destruct greedy.
Qed.

Lemma lookup_in_span p s e k :
  e ≤ k < e + span p (drop e s) → ∃ c, s !! k = Some c ∧ p c = true.
Proof.
  intros Hk. pose proof (span_all p (drop e s)) as Hall.
  pose proof (span_le p (drop e s)) as Hle.
  rewrite Forall_lookup in Hall.
  destruct (lookup_lt_is_Some_2 (take (span p (drop e s)) (drop e s)) (k - e)) as [c Hc].
  { rewrite length_take. lia. }
  exists c. split; [|by eapply Hall].
  rewrite lookup_take_lt in Hc by lia. rewrite lookup_drop in Hc.
  by replace (e + (k - e)) with k in Hc by lia.
Qed.

(** A greedy run followed by a code unit outside the class: the run must be
    maximal, backtracking into it cannot succeed. *)
Lemma matches_run_then p c r s e caps :
  p c = false →
  matches (Plus true (CharSet p) >> Chr c >> r) s (MState e caps)
  = match run_end p s e with
    | Some e1 =>
        if bool_decide (s !! e1 = Some c) then matches r s (MState (S e1) caps)
        else []
    | None => []
    end.
Proof.
  intros Hpc.
  change (matches (?a >> ?b) s ?x) with (y ← matches a s x; matches b s y).
  rewrite matches_plus_charset. unfold run_end.
  pose proof (lookup_in_span p s e) as Hin.
  destruct (span p (drop e s)) as [|n]; [done|].
  rewrite seq_S, reverse_snoc, fmap_cons, bind_cons.
  rewrite (bind_all_nil _ (at_index caps <$> _)).
  - rewrite app_nil_r. replace (S e + n) with (e + S n) by lia.
    change (matches (?a >> ?b) s ?x) with (y ← matches a s x; matches b s y).
    unfold at_index, Chr. rewrite matches_charset.
    destruct (s !! (e + S n)) as [d|]; [|by case_bool_decide].
    destruct (N.eqb_spec c d) as [->|Hne]; case_bool_decide; try congruence;
      [apply bind_one|done].
  - intros y [k [-> Hk]]%list_elem_of_fmap.
    apply elem_of_reverse, elem_of_seq in Hk.
    destruct (Hin k) as [d [Hd Hpd]]; [lia|].
    change (matches (?a >> ?b) s ?x) with (y ← matches a s x; matches b s y).
    unfold at_index, Chr. rewrite matches_charset, Hd.
    destruct (N.eqb_spec c d) as [->|Hne]; [congruence|done].
Qed.

End MatcherFacts.

Section VersionPattern.
Local Open Scope nat_scope.

Lemma head_map {A B} (f : A → B) (l : list A) : head (f <$> l) = f <$> head l.
Proof. by destruct l. Qed.

Lemma head_run p s e caps :
  head (at_index caps <$> reverse (seq (S e) (span p (drop e s))))
  = at_index caps <$> run_end p s e.
Proof.
  unfold run_end. destruct (span p (drop e s)) as [|n]; [done|].
  rewrite seq_S, reverse_snoc. simpl. do 3 f_equal. lia.
Qed.

Lemma head_matches_suffix s e caps :
  head (matches (Opt (Chr 45 >> Plus true (CharSet is_alnum))) s (MState e caps))
  = Some (MState (suffix_end s e) caps).
Proof.
  unfold Opt, suffix_end.
  change (matches (Alt ?a ?b) s ?x) with (matches a s x ++ matches b s x).
  change (matches (?a >> ?b) s ?x) with (y ← matches a s x; matches b s y).
  rewrite head_app_l. unfold Chr. rewrite matches_charset.
  destruct (s !! e) as [d|]; [|by case_bool_decide].
  destruct (N.eqb_spec 45 d) as [<-|Hne]; case_bool_decide; try congruence; [|done].
  rewrite bind_one, matches_plus_charset, head_run.
  by destruct (run_end is_alnum s (S e)).
Qed.

Lemma head_matches_token s j caps :
  head (matches token s (MState j caps)) = at_index caps <$> token_end s j.
Proof.
  unfold token, token_end.
  rewrite matches_run_then by done.
  destruct (run_end is_digit s j) as [e1|]; [cbn [mbind option_bind]|done].
  case_bool_decide; [|done].
  rewrite matches_run_then by done.
  destruct (run_end is_digit s (S e1)) as [e2|]; [cbn [mbind option_bind]|done].
  case_bool_decide; [|done].
  change (matches (?a >> ?b) s ?x) with (y ← matches a s x; matches b s y).
  rewrite matches_plus_charset. unfold run_end.
  destruct (span is_digit (drop (S e2) s)) as [|n]; [done|].
  rewrite seq_S, reverse_snoc, fmap_cons, bind_cons, head_app_l.
  unfold at_index at 1. rewrite head_matches_suffix. simpl.
  by replace (S (S (e2 + n))) with (S (e2 + S n)) by lia.
Qed.

Lemma matches_marker s i caps :
  matches marker s (MState i caps)
  = if marker_at s i
    then at_index caps <$> seq (i + 7) (S (span is_dot (drop (i + 7) s)))
    else [].
Proof.
  unfold marker, marker_at.
  change (matches (?a >> ?b) s ?x) with (y ← matches a s x; matches b s y).
  change (matches WordBoundary s ?x)
    with (if at_word_boundary s (endIndex x) then [x] else []).
  simpl endIndex. destruct (at_word_boundary s i); [|done].
  rewrite bind_one.
  change (matches (?a >> ?b) s ?x) with (y ← matches a s x; matches b s y).
  rewrite matches_word. change (length (lit "VERSION")) with 7.
  case_bool_decide; [|done]. rewrite bind_one.
  change (matches (?a >> ?b) s ?x) with (y ← matches a s x; matches b s y).
  change (matches WordBoundary s ?x)
    with (if at_word_boundary s (endIndex x) then [x] else []).
  simpl endIndex. destruct (at_word_boundary s (i + 7)); [|done].
  rewrite bind_one. apply matches_star_charset.
Qed.

Lemma head_group_token s i js :
  head (y ← (fun y => MState (endIndex y) (<[1 := Some (i, endIndex y)]> (captures y)))
             <$> (at_index [None; None; None] <$> js);
        matches (Group 2 token) s y)
  = (fun jk => final (VERSION_result i jk)) <$> first_token s js.
Proof.
  induction js as [|j js IH]; [done|].
  rewrite !fmap_cons, bind_cons, head_app_l, IH. simpl first_token.
  change (matches (Group ?g ?r) s ?x)
    with ((fun y => MState (endIndex y)
             (<[g := Some (endIndex x, endIndex y)]> (captures y)))
          <$> matches r s x).
  rewrite head_map.
  unfold at_index at 1. simpl endIndex. simpl captures.
  rewrite head_matches_token.
  destruct (token_end s j) as [k|]; [|done]. done.
Qed.

Lemma match_at_VERSION s i :
  match_at VERSION 2 s i = VERSION_result i <$> version_at s i.
Proof.
  unfold match_at, VERSION, version_at.
  change (matches (?a >> ?b) s ?x) with (y ← matches a s x; matches b s y).
  change (matches (Group ?g ?r) s ?x)
    with ((fun y => MState (endIndex y)
             (<[g := Some (endIndex x, endIndex y)]> (captures y)))
          <$> matches r s x) at 2.
  rewrite matches_marker. simpl endIndex.
  destruct (marker_at s i); [|done].
  change (replicate 3 None) with ([None; None; None] : list (option (nat * nat))).
  rewrite head_group_token.
  by destruct (first_token s _).
Qed.

Lemma exec_VERSION s :
  exec VERSION 2 s = (fun r => VERSION_result r.1 r.2) <$> find_version s.
Proof.
  unfold exec, find_version.
  induction (seq 0 (S (length s))) as [|i l IH]; [done|].
  simpl. rewrite match_at_VERSION.
  destruct (version_at s i) as [jk|]; simpl; [done|apply IH].
Qed.

End VersionPattern.

(** ** What the [VERSION] pattern matches, in plain terms *)

Section Substrings.
Local Open Scope nat_scope.

Lemma substring_split (s : str) a b c :
  a ≤ b → b ≤ c → substring s a c = substring s a b ++ substring s b c.
Proof.
  intros Hab Hbc. unfold substring.
  replace (c - a) with ((b - a) + (c - b)) by lia.
  rewrite <- take_take_drop, drop_drop.
  by replace (a + (b - a)) with b by lia.
Qed.

Lemma substring_one (s : str) e c : s !! e = Some c → substring s e (S e) = [c].
Proof.
  intros Hc. unfold substring. rewrite (drop_lookup_cons _ _ _ Hc).
  by replace (S e - e) with 1 by lia.
Qed.

Lemma substring_length (s : str) a b :
  a ≤ b → b ≤ length s → length (substring s a b) = b - a.
Proof. intros. unfold substring. rewrite length_take, length_drop. lia. Qed.

Lemma run_end_spec p s e e1 :
  run_end p s e = Some e1 →
  e < e1 ∧ e1 ≤ length s ∧ e1 = e + span p (drop e s)
  ∧ Forall (fun c => p c = true) (substring s e e1)
  ∧ substring s e e1 ≠ [].
Proof.
  unfold run_end. pose proof (span_le p (drop e s)) as Hle.
  pose proof (span_all p (drop e s)) as Hall.
  rewrite length_drop in Hle.
  destruct (span p (drop e s)) as [|n] eqn:Hn; [done|]. intros [= <-].
  assert (substring s e (e + S n) = take (S n) (drop e s)) as ->.
  { unfold substring. f_equal. lia. }
  repeat split; try lia; [done|].
  intros Hnil%(f_equal length). rewrite length_take, length_drop in Hnil.
  cbn [length] in Hnil. lia.
Qed.

Lemma suffix_end_spec s e :
  e ≤ length s →
  e ≤ suffix_end s e ∧ suffix_end s e ≤ length s
  ∧ prerelease_suffix (substring s e (suffix_end s e)).
Proof.
  intros He. unfold suffix_end.
  assert (prerelease_suffix (substring s e e)) as Hnone.
  { left. unfold substring. by rewrite Nat.sub_diag. }
  case_bool_decide as Hdash; [|done].
  destruct (run_end is_alnum s (S e)) as [e1|] eqn:Hrun; simpl; [|done].
  apply run_end_spec in Hrun as (? & ? & _ & Hall & Hne).
  repeat split; try lia. right. exists (substring s (S e) e1).
  rewrite (substring_split s e (S e) e1) by lia.
  by rewrite (substring_one _ _ _ Hdash).
Qed.

Lemma token_end_sound s j k :
  token_end s j = Some k →
  j ≤ k ∧ k ≤ length s ∧ token_shape (substring s j k).
Proof.
  unfold token_end. intros Hk.
  destruct (run_end is_digit s j) as [e1|] eqn:H1; [simpl in Hk|done].
  case_bool_decide as Hd1; [|done].
  destruct (run_end is_digit s (S e1)) as [e2|] eqn:H2; [simpl in Hk|done].
  case_bool_decide as Hd2; [|done].
  destruct (run_end is_digit s (S e2)) as [e3|] eqn:H3; [simpl in Hk|done].
  injection Hk as <-.
  apply run_end_spec in H1 as (? & ? & _ & Ha & Hna).
  apply run_end_spec in H2 as (? & ? & _ & Hb & Hnb).
  apply run_end_spec in H3 as (? & ? & _ & Hc & Hnc).
  destruct (suffix_end_spec s e3) as (? & ? & Hx); [lia|].
  repeat split; try lia.
  exists (substring s j e1), (substring s (S e1) e2), (substring s (S e2) e3),
    (substring s e3 (suffix_end s e3)).
  split; [|done].
  rewrite (substring_split s j e1) by lia.
  rewrite (substring_split s e1 (S e1)) by lia.
  rewrite (substring_split s (S e1) e2) by lia.
  rewrite (substring_split s e2 (S e2)) by lia.
  rewrite (substring_split s (S e2) e3) by lia.
  by rewrite (substring_one _ _ _ Hd1), (substring_one _ _ _ Hd2).
Qed.

End Substrings.

Section Occurrences.
Local Open Scope nat_scope.

Lemma drop_app_at (s : str) e w t :
  drop e s = w ++ t → drop (e + length w) s = t.
Proof. intros Hd. by rewrite <- drop_drop, Hd, drop_app_length. Qed.

Lemma lookup_drop_head (s : str) e c t : drop e s = c :: t → s !! e = Some c.
Proof.
  intros Hd. pose proof (lookup_drop s e 0) as Hl.
  rewrite Hd, Nat.add_0_r in Hl. done.
Qed.

Lemma run_end_app p s e w t :
  drop e s = w ++ t → w ≠ [] → Forall (fun c => p c = true) w →
  run_end p s e = Some (e + length w + span p t).
Proof.
  intros Hd Hne Hall. unfold run_end. rewrite Hd, span_prefix by done.
  destruct w; [done|]. simpl. f_equal. lia.
Qed.

Lemma token_end_max s j k' :
  j ≤ k' → k' ≤ length s → token_shape (substring s j k') →
  ∃ k, token_end s j = Some k ∧ k' ≤ k.
Proof.
  intros Hjk Hk (a & b & c & x & Hw & [Hna Ha] & [Hnb Hb] & [Hnc Hc] & Hx).
  assert (k' = j + (length a + 1 + length b + 1 + length c + length x)) as Hlen.
  { pose proof (substring_length s j k' Hjk Hk) as Hl.
    rewrite Hw, !length_app in Hl. simpl in Hl. lia. }
  assert (drop j s = a ++ 46%N :: b ++ 46%N :: c ++ x ++ drop k' s) as Hd.
  { rewrite <- (take_drop (k' - j) (drop j s)), drop_drop.
    replace (j + (k' - j)) with k' by lia.
    fold (substring s j k'). rewrite Hw. by rewrite <- !app_assoc. }
  unfold token_end.
  rewrite (run_end_app _ _ _ _ _ Hd Hna Ha). simpl span. rewrite Nat.add_0_r.
  apply drop_app_at in Hd. cbn [mbind option_bind].
  rewrite (lookup_drop_head _ _ _ _ Hd), bool_decide_true by done.
  apply (drop_app_at _ _ [46%N]) in Hd. simpl length in Hd.
  replace (j + length a + 1) with (S (j + length a)) in Hd by lia.
  rewrite (run_end_app _ _ _ _ _ Hd Hnb Hb). simpl span. rewrite Nat.add_0_r.
  apply drop_app_at in Hd. cbn [mbind option_bind].
  rewrite (lookup_drop_head _ _ _ _ Hd), bool_decide_true by done.
  apply (drop_app_at _ _ [46%N]) in Hd. simpl length in Hd.
  replace (S (j + length a) + length b + 1)
    with (S (S (j + length a) + length b)) in Hd by lia.
  pose proof (run_end_app _ _ _ _ _ Hd Hnc Hc) as Hrun. rewrite Hrun.
  cbn [mbind option_bind]. eexists; split; [done|].
  apply run_end_spec in Hrun as (_ & Hle3 & _).
  destruct (suffix_end_spec s _ Hle3) as (Hge & _ & _).
  destruct Hx as [->|(p & -> & Hnp & Hp)].
  - simpl in Hlen. lia.
  - clear Hge. simpl span in *. rewrite Nat.add_0_r in *.
    apply drop_app_at in Hd. unfold suffix_end.
    rewrite (lookup_drop_head _ _ _ _ Hd), bool_decide_true by done.
    apply (drop_app_at _ _ [45%N]) in Hd. simpl length in Hd.
    replace (S (S (j + length a) + length b) + length c + 1)
      with (S (S (S (j + length a) + length b) + length c)) in Hd by lia.
    rewrite (run_end_app _ _ _ _ _ Hd Hnp Hp). simpl in *. lia.
Qed.

Lemma first_token_Some s lo n j k :
  first_token s (seq lo n) = Some (j, k) ↔
  lo ≤ j < lo + n ∧ token_end s j = Some k
  ∧ ∀ j', lo ≤ j' < j → token_end s j' = None.
Proof.
  revert lo. induction n as [|n IH]; intros lo; simpl.
  - split; [done|lia].
  - destruct (token_end s lo) as [k0|] eqn:Hlo.
    + split.
      * intros [= <- <-]. repeat split; try lia; done.
      * intros (Hj & Hk & Hmin). destruct (decide (j = lo)) as [->|Hne].
        { congruence. }
        rewrite Hmin in Hlo by lia. done.
    + rewrite IH. split.
      * intros (Hj & Hk & Hmin). repeat split; try lia; [done|].
        intros j' Hj'. destruct (decide (j' = lo)) as [->|]; [done|].
        apply Hmin. lia.
      * intros (Hj & Hk & Hmin). destruct (decide (j = lo)) as [->|Hne].
        { congruence. }
        repeat split; try lia; [done|]. intros j' Hj'. apply Hmin. lia.
Qed.

Lemma first_token_None s lo n :
  first_token s (seq lo n) = None ↔ ∀ j, lo ≤ j < lo + n → token_end s j = None.
Proof.
  revert lo. induction n as [|n IH]; intros lo; simpl.
  - split; [lia|done].
  - destruct (token_end s lo) as [k0|] eqn:Hlo.
    + split; [done|]. intros Hall. rewrite Hall in Hlo by lia. done.
    + rewrite IH. split.
      * intros Hall j Hj. destruct (decide (j = lo)) as [->|]; [done|].
        apply Hall. lia.
      * intros Hall j Hj. apply Hall. lia.
Qed.

Lemma span_take_all p (l : str) n :
  n ≤ length l → (Forall (fun c => p c = true) (take n l) ↔ n ≤ span p l).
Proof.
  revert n. induction l as [|c l IH]; intros n Hn; simpl in *.
  - assert (n = 0) as -> by lia. split; [lia|constructor].
  - destruct n as [|n]; [split; [lia|constructor]|]. simpl.
    rewrite Forall_cons. destruct (p c); simpl.
    + rewrite IH by lia. split; [intros [_ ?]|intros ?; split; [done|]]; lia.
    + split; [intros [? _]; done|lia].
Qed.

Lemma marker_at_spec s i :
  marker_at s i = true ↔
  substring s i (i + 7) = lit "VERSION"
  ∧ at_word_boundary s i = true ∧ at_word_boundary s (i + 7) = true.
Proof.
  unfold marker_at, substring. replace (i + 7 - i) with 7 by lia.
  rewrite !andb_true_iff, bool_decide_eq_true. tauto.
Qed.

(** The match found at a start index is an occurrence, and the first in
    backtracking order among the occurrences that start there. *)
Lemma version_at_Some s i j k :
  version_at s i = Some (j, k) →
  occurrence s i j k
  ∧ ∀ j' k', occurrence s i j' k' → j < j' ∨ (j = j' ∧ k' ≤ k).
Proof.
  unfold version_at. destruct (marker_at s i) eqn:Hm; [|done].
  apply marker_at_spec in Hm as (Hw & Hl & Hr).
  intros (Hj & Hk & Hmin)%first_token_Some.
  destruct (token_end_sound _ _ _ Hk) as (Hjk & Hks & Htok).
  assert (i + 7 ≤ length s) as Hi7.
  { apply (f_equal length) in Hw. unfold substring in Hw.
    rewrite length_take, length_drop in Hw. change (length (lit "VERSION")) with 7 in Hw.
    lia. }
  split.
  - split; try done; [lia|].
    unfold substring. apply (span_take_all is_dot); [rewrite length_drop|]; lia.
  - intros j' k' [(Hij' & Hjk' & Hks') _ _ _ Hbet' Htok'].
    destruct (token_end_max _ _ _ Hjk' Hks' Htok') as (k0 & Hk0 & Hle).
    destruct (decide (j' < j)) as [Hlt|Hge].
    { rewrite Hmin in Hk0 by lia. done. }
    destruct (decide (j = j')) as [<-|Hne]; [|lia].
    right. split; [done|]. congruence.
Qed.

Lemma version_at_None s i j k : version_at s i = None → ¬ occurrence s i j k.
Proof.
  unfold version_at. intros Hv [(Hij & Hjk & Hks) Hw Hl Hr Hbet Htok].
  rewrite (proj2 (marker_at_spec s i)) in Hv by done.
  rewrite first_token_None in Hv.
  destruct (token_end_max _ _ _ Hjk Hks Htok) as (k0 & Hk0 & _).
  rewrite Hv in Hk0; [done|].
  unfold substring in Hbet. apply (span_take_all is_dot) in Hbet;
    [|rewrite length_drop]; lia.
Qed.

Lemma head_omap_seq_Some {A} (f : nat → option A) lo n i a :
  head (omap (fun i => pair i <$> f i) (seq lo n)) = Some (i, a) ↔
  lo ≤ i < lo + n ∧ f i = Some a ∧ ∀ i', lo ≤ i' < i → f i' = None.
Proof.
  revert lo. induction n as [|n IH]; intros lo; simpl.
  - split; [done|lia].
  - destruct (f lo) as [a0|] eqn:Hlo; simpl.
    + split.
      * intros [= <- <-]. repeat split; try lia; done.
      * intros (Hi & Ha & Hmin). destruct (decide (i = lo)) as [->|Hne].
        { congruence. }
        rewrite Hmin in Hlo by lia. done.
    + rewrite IH. split.
      * intros (Hi & Ha & Hmin). repeat split; try lia; [done|].
        intros i' Hi'. destruct (decide (i' = lo)) as [->|]; [done|].
        apply Hmin. lia.
      * intros (Hi & Ha & Hmin). destruct (decide (i = lo)) as [->|Hne].
        { congruence. }
        repeat split; try lia; [done|]. intros i' Hi'. apply Hmin. lia.
Qed.

Lemma head_omap_seq_None {A} (f : nat → option A) lo n :
  head (omap (fun i => pair i <$> f i) (seq lo n)) = None ↔
  ∀ i, lo ≤ i < lo + n → f i = None.
Proof.
  revert lo. induction n as [|n IH]; intros lo; simpl.
  - split; [lia|done].
  - destruct (f lo) as [a0|] eqn:Hlo; simpl.
    + split; [done|]. intros Hall. rewrite Hall in Hlo by lia. done.
    + rewrite IH. split.
      * intros Hall i Hi. destruct (decide (i = lo)) as [->|]; [done|].
        apply Hall. lia.
      * intros Hall i Hi. apply Hall. lia.
Qed.

(** The first match is an occurrence of the pattern, and it comes first
    among all occurrences: leftmost start, then the shortest stretch
    between the word and the token, then the longest token. *)
Lemma find_version_Some s i j k :
  find_version s = Some (i, (j, k)) →
  occurrence s i j k
  ∧ ∀ i' j' k', occurrence s i' j' k' →
      i < i' ∨ (i = i' ∧ j < j') ∨ (i = i' ∧ j = j' ∧ k' ≤ k).
Proof.
  unfold find_version. intros (Hi & Hv & Hmin)%head_omap_seq_Some.
  destruct (version_at_Some _ _ _ _ Hv) as [Hocc Hfirst]. split; [done|].
  intros i' j' k' Hocc'.
  destruct (decide (i' < i)) as [Hlt|Hge].
  { exfalso. eapply version_at_None; [|done]. apply Hmin. lia. }
  destruct (decide (i = i')) as [<-|Hne]; [|lia].
  destruct (Hfirst _ _ Hocc') as [?|[? ?]]; [right; left|right; right]; done.
Qed.

Lemma find_version_None s i j k : find_version s = None → ¬ occurrence s i j k.
Proof.
  unfold find_version. rewrite head_omap_seq_None. intros Hall Hocc.
  eapply version_at_None; [|done]. apply Hall.
  destruct Hocc as [(? & ? & ?) _ _ _ _ _]. lia.
Qed.

End Occurrences.

Section Replacement.
Local Open Scope nat_scope.

Lemma get_substitution_plain m s pos caps (t : str) :
  dollar ∉ t → get_substitution m s pos caps t = t.
Proof.
  induction t as [|c t IH]; intros Hd; [done|].
  simpl. destruct (N.eqb_spec c dollar) as [->|Hne]; simpl.
  - exfalso. apply Hd. by left.
  - f_equal. apply IH. intros Hin. apply Hd. by right.
Qed.

(** [$1] in front of any text: the first capture, also when the text starts
    with a digit, since [$1d] names a group that does not exist. *)
Lemma get_substitution_first m s pos (c1 c2 : option str) (t : str) :
  get_substitution m s pos [c1; c2] (lit "$1" ++ t)
  = default [] c1 ++ get_substitution m s pos [c1; c2] t.
Proof.
  change (lit "$1" ++ t) with (dollar :: 49%N :: t).
  cbn [get_substitution]. 
  change (negb (dollar =? dollar)%N) with false. cbv iota.
  change (49 =? dollar)%N with false. change (49 =? 96)%N with false.
  change (49 =? 38)%N with false. change (49 =? 39)%N with false.
  change (is_digit 49) with true. cbv iota.
  change (capture_ref [c1; c2] (digit_value 49) [dollar; 49%N]) with (default [] c1).
  destruct t as [|d2 t3]; [done|].
  destruct (is_digit d2) eqn:Hd; [|done].
  assert ((N.of_nat (length [c1; c2]) <? 10 * digit_value 49 + digit_value d2)%N = true) as ->; [|done].
  apply N.ltb_lt. change (digit_value 49) with 1%N. simpl. lia.
Qed.

Lemma capture_list_VERSION s i jk :
  capture_list s (VERSION_result i jk) 2
  = [Some (substring s i jk.1); Some (substring s jk.1 jk.2)].
Proof. by destruct jk. Qed.

Lemma replace_VERSION s t :
  replace VERSION 2 s (lit "$1" ++ t)
  = match find_version s with
    | Some (i, (j, k)) =>
        take i s ++ substring s i j ++ replacement_text s i j k t ++ drop k s
    | None => s
    end.
Proof.
  unfold replace. rewrite exec_VERSION.
  destruct (find_version s) as [[i [j k]]|]; [|done].
  cbn [fmap option_fmap option_map fst snd].
  rewrite capture_list_VERSION, get_substitution_first.
  cbn [fst snd default]. unfold replacement_text, matched, last_index.
  cbn [index final endIndex VERSION_result snd]. by rewrite <- app_assoc.
Qed.

Lemma drop_substring (s : str) a b :
  a ≤ b → drop a s = substring s a b ++ drop b s.
Proof.
  intros Hab. unfold substring.
  rewrite <- (take_drop (b - a) (drop a s)) at 1. rewrite drop_drop.
  by replace (a + (b - a)) with b by lia.
Qed.

Lemma occurrence_split s i j k :
  occurrence s i j k →
  s = take i s ++ substring s i j ++ substring s j k ++ drop k s.
Proof.
  intros [(Hij & Hjk & Hk) _ _ _ _ _].
  rewrite <- (drop_substring s j k), <- (drop_substring s i j) by lia.
  by rewrite take_drop.
Qed.

End Replacement.

Section Alphabet.
Local Open Scope nat_scope.

Lemma stretch_refl p s a : stretch p s a a.
Proof. split; [done|]. lia. Qed.

Lemma stretch_trans p s a b c :
  stretch p s a b → stretch p s b c → stretch p s a c.
Proof.
  intros [Hab H1] [Hbc H2]. split; [lia|]. intros k Hk.
  destruct (decide (k < b)); [apply H1|apply H2]; lia.
Qed.

Lemma stretch_mono (p q : N → bool) s a b :
  (∀ c, p c = true → q c = true) → stretch p s a b → stretch q s a b.
Proof. intros Hpq [Hab H1]. split; [done|]. intros k Hk. destruct (H1 k Hk) as (c & ? & ?). eauto. Qed.

Lemma repeat_matcher_stretch p s step greedy fuel x y :
  (∀ x y, y ∈ step x → stretch p s (endIndex x) (endIndex y)) →
  y ∈ repeat_matcher step greedy fuel x →
  stretch p s (endIndex x) (endIndex y).
Proof.
  intros Hstep. revert x. induction fuel as [|fuel IH]; intros x; simpl.
  - intros ->%list_elem_of_singleton. apply stretch_refl.
  - assert (y ∈ (z ← step x;
                 if bool_decide (endIndex x < endIndex z)
                 then repeat_matcher step greedy fuel z else []) →
            stretch p s (endIndex x) (endIndex y)) as Hmore.
    { intros (z & Hy & Hz)%list_elem_of_bind.
      case_bool_decide; [|by apply elem_of_nil in Hy].
      eapply stretch_trans; [by apply Hstep|by apply IH]. }
    destruct greedy.
    + intros [?| ->%list_elem_of_singleton]%elem_of_app; [auto|apply stretch_refl].
    + intros [->|?]%elem_of_cons; [apply stretch_refl|auto].
Qed.

Lemma matches_stretch r s x y :
  y ∈ matches r s x → stretch (alphabet r) s (endIndex x) (endIndex y).
Proof.
  revert x y. induction r as [|p|r1 IH1 r2 IH2|r1 IH1 r2 IH2|g r IH|i r IH| | |];
    intros x y; simpl.
  - intros ->%list_elem_of_singleton. apply stretch_refl.
  - destruct (s !! endIndex x) as [c|] eqn:Hc; [|by intros ?%elem_of_nil].
    destruct (p c) eqn:Hp; [|by intros ?%elem_of_nil].
    intros ->%list_elem_of_singleton. simpl. split; [lia|].
    intros k Hk. exists c. by replace k with (endIndex x) by lia.
  - intros (z & Hy & Hz)%list_elem_of_bind.
    eapply stretch_trans; (eapply stretch_mono; [|eauto]);
      intros c Hc; rewrite Hc; by rewrite ?orb_true_r.
  - intros [Hy|Hy]%elem_of_app; (eapply stretch_mono; [|eauto]);
      intros c Hc; rewrite Hc; by rewrite ?orb_true_r.
  - apply repeat_matcher_stretch. intros ? ?. apply IH.
  - intros (z & -> & Hz)%list_elem_of_fmap. simpl. by apply IH.
  - destruct (at_word_boundary _ _); [|by intros ?%elem_of_nil].
    intros ->%list_elem_of_singleton. apply stretch_refl.
  - case_bool_decide; [|by intros ?%elem_of_nil].
    intros ->%list_elem_of_singleton. apply stretch_refl.
  - case_bool_decide; [|by intros ?%elem_of_nil].
    intros ->%list_elem_of_singleton. apply stretch_refl.
Qed.

Lemma exec_elem r n s m :
  exec r n s = Some m →
  final m ∈ matches r s (MState (index m) (replicate (S n) None)).
Proof.
  unfold exec. intros Hh%head_Some_elem_of.
  apply list_elem_of_omap in Hh as (i & _ & Hm).
  unfold match_at in Hm.
  destruct (head (matches r s _)) as [y|] eqn:Hy; [|done].
  injection Hm as <-. simpl. by apply head_Some_elem_of.
Qed.

(** A pattern anchored at both ends consumes the whole input. *)
Lemma exec_anchored r n s m :
  exec (InputStart >> r >> InputEnd) n s = Some m →
  Forall (fun c => alphabet r c = true) s.
Proof.
  intros Hm%exec_elem. simpl in Hm.
  case_bool_decide as H0; [|by apply elem_of_nil in Hm].
  simpl in Hm. rewrite app_nil_r in Hm.
  apply list_elem_of_bind in Hm as (z & Hy & Hz).
  case_bool_decide as Hend; [|by apply elem_of_nil in Hy].
  apply matches_stretch in Hz as [_ Hz]. simpl in Hz.
  apply Forall_lookup. intros k c Hk.
  destruct (Hz k) as (c' & Hc' & Hp).
  { apply lookup_lt_Some in Hk. lia. }
  congruence.
Qed.

Lemma trim_start_elem c s : c ∈ s → is_space c = true ∨ c ∈ trim_start s.
Proof.
  induction s as [|d s IH]; [by intros ?%elem_of_nil|].
  simpl. destruct (is_space d) eqn:Hd.
  - intros [->|?]%elem_of_cons; auto.
  - auto.
Qed.

Lemma trim_elem c s : c ∈ s → is_space c = true ∨ c ∈ trim s.
Proof.
  intros [?|Hc]%trim_start_elem; [by left|].
  unfold trim, trim_end.
  apply elem_of_reverse, trim_start_elem in Hc as [?|Hc]; [by left|].
  right. by apply elem_of_reverse.
Qed.

(** A string [semver.valid] accepts holds no [$]. *)
Lemma valid_no_dollar v : is_Some (Semver.valid (VString v)) → dollar ∉ v.
Proof.
  intros [w Hw] Hin. unfold Semver.valid in Hw. simpl in Hw.
  unfold Semver.SemVer_new in Hw. case_bool_decide; [done|].
  destruct (exec Semver.FULL 5 (trim v)) as [m|] eqn:Hm; [|done].
  apply exec_anchored in Hm. rewrite Forall_forall in Hm.
  apply trim_elem in Hin as [Hsp|Hin]; [done|].
  apply Hm in Hin. done.
Qed.

End Alphabet.

(** ** What a capture group can hold, and the shape of a printed version *)

Section CaptureAlphabet.
Local Open Scope nat_scope.

Lemma digits_fuel_digits fuel n acc :
  ∃ d, digits_fuel (S fuel) n acc = d ++ acc ∧ digits d.
Proof.
  revert n acc. induction fuel as [|fuel IH]; intros n acc.
  - exists [(48 + n mod 10)%N]. simpl.
    assert (is_digit (48 + n mod 10) = true) as Hd.
    { assert (n mod 10 < 10)%N as Hr by (by apply N.mod_upper_bound).
      revert Hr. generalize (n mod 10)%N as r. intros r Hr.
      unfold is_digit. apply andb_true_iff. split; apply N.leb_le; lia. }
    split; [by destruct (n <? 10)%N|]. split; [done|]. by constructor.
  - assert (is_digit (48 + n mod 10) = true) as Hd.
    { assert (n mod 10 < 10)%N as Hr by (by apply N.mod_upper_bound).
      revert Hr. generalize (n mod 10)%N as r. intros r Hr.
      unfold is_digit. apply andb_true_iff. split; apply N.leb_le; lia. }
    change (digits_fuel (S (S fuel)) n acc)
      with (if (n <? 10)%N then (48 + n mod 10)%N :: acc
            else digits_fuel (S fuel) (n / 10) ((48 + n mod 10)%N :: acc)).
    destruct (n <? 10)%N.
    + exists [(48 + n mod 10)%N]. split; [done|]. split; [done|]. by constructor.
    + destruct (IH (n / 10)%N ((48 + n mod 10)%N :: acc)) as (d & -> & Hne & Hall).
      exists (d ++ [(48 + n mod 10)%N]). split; [by rewrite <- app_assoc|].
      split; [by destruct d|]. apply Forall_app. split; [done|]. by constructor.
Qed.

Lemma of_number_digits n : digits (of_number n).
Proof.
  unfold of_number. destruct (digits_fuel_digits (N.to_nat (N.log2 n)) n [])
    as (d & -> & Hd). by rewrite app_nil_r.
Qed.

Lemma stretch_substring p s a b :
  stretch p s a b → Forall (fun c => p c = true) (substring s a b).
Proof.
  intros [Hab Hall]. apply Forall_lookup. intros k c Hk. unfold substring in Hk.
  apply lookup_take_Some in Hk as [Hk Hlt]. rewrite lookup_drop in Hk.
  destruct (Hall (a + k)) as (c' & Hc' & Hp); [lia|]. congruence.
Qed.

Lemma repeat_matcher_captures (P : mstate → Prop) step greedy fuel x y :
  (∀ x y, P x → y ∈ step x → P y) →
  P x → y ∈ repeat_matcher step greedy fuel x → P y.
Proof.
  intros Hstep. revert x. induction fuel as [|fuel IH]; intros x Hx; simpl.
  - by intros ->%list_elem_of_singleton.
  - assert (y ∈ (z ← step x;
                 if bool_decide (endIndex x < endIndex z)
                 then repeat_matcher step greedy fuel z else []) → P y) as Hmore.
    { intros (z & Hy & Hz)%list_elem_of_bind.
      case_bool_decide; [|by apply elem_of_nil in Hy].
      apply (IH z); [by eapply Hstep|done]. }
    destruct greedy.
    + intros [?| ->%list_elem_of_singleton]%elem_of_app; auto.
    + intros [->|?]%elem_of_cons; auto.
Qed.

(** Matching keeps every capture within what its group can consume. *)
Lemma matches_captures (q : nat → N → bool) r s x y :
  (∀ i c, group_alphabet r i c = true → q i c = true) →
  (∀ i a b, captures x !! i = Some (Some (a, b)) → stretch (q i) s a b) →
  y ∈ matches r s x →
  ∀ i a b, captures y !! i = Some (Some (a, b)) → stretch (q i) s a b.
Proof.
  revert x y. induction r as [|p|r1 IH1 r2 IH2|r1 IH1 r2 IH2|g r IH|j r IH| | |];
    intros x y Hq Hx; simpl.
  - by intros ->%list_elem_of_singleton.
  - destruct (s !! endIndex x) as [c|]; [|by intros ?%elem_of_nil].
    destruct (p c); [|by intros ?%elem_of_nil].
    by intros ->%list_elem_of_singleton.
  - intros (z & Hy & Hz)%list_elem_of_bind.
    eapply (IH2 z y); [| |done].
    + intros i c Hc. apply Hq. simpl. by rewrite Hc, orb_true_r.
    + eapply (IH1 x z); [|done|done].
      intros i c Hc. apply Hq. simpl. by rewrite Hc.
  - intros [Hy|Hy]%elem_of_app.
    + eapply (IH1 x y); [|done|done].
      intros i c Hc. apply Hq. simpl. by rewrite Hc.
    + eapply (IH2 x y); [|done|done].
      intros i c Hc. apply Hq. simpl. by rewrite Hc, orb_true_r.
  - apply (repeat_matcher_captures
             (fun z => ∀ i a b, captures z !! i = Some (Some (a, b)) →
                                stretch (q i) s a b)); [|done].
    intros x' y' Hx' Hy'. by eapply (IH x' y').
  - intros (z & -> & Hz)%list_elem_of_fmap. simpl.
    assert (∀ i a b, captures z !! i = Some (Some (a, b)) → stretch (q i) s a b)
      as Hzc.
    { eapply (IH x z); [|done|done].
      intros i c Hc. apply Hq. simpl. by rewrite Hc, orb_true_r. }
    intros i a b Hi. destruct (decide (i = j)) as [->|Hne].
    + apply list_lookup_insert_Some in Hi as [(_ & Heq & _)|[? _]]; [|done].
      injection Heq as <- <-.
      eapply stretch_mono; [|by apply matches_stretch].
      intros c Hc. apply Hq. simpl. by rewrite Nat.eqb_refl, Hc.
    + rewrite list_lookup_insert_ne in Hi by done. by apply Hzc.
  - destruct (at_word_boundary _ _); [|by intros ?%elem_of_nil].
    by intros ->%list_elem_of_singleton.
  - case_bool_decide; [|by intros ?%elem_of_nil].
    by intros ->%list_elem_of_singleton.
  - case_bool_decide; [|by intros ?%elem_of_nil].
    by intros ->%list_elem_of_singleton.
Qed.

(** A capture of a match holds only code units its group can consume. *)
Lemma exec_capture r n s m i w :
  exec r n s = Some m → capture s m i = Some w →
  Forall (fun c => group_alphabet r i c = true) w.
Proof.
  intros Hm%exec_elem. unfold capture.
  destruct (captures (final m) !! i) as [[[a b]|]|] eqn:Hi; try done.
  intros [= <-]. apply stretch_substring.
  eapply (matches_captures (group_alphabet r)); [done| |exact Hm|exact Hi].
  intros j a' b' Hj. cbn [captures] in Hj.
  apply lookup_replicate in Hj as [? _]. done.
Qed.

End CaptureAlphabet.

Section VersionShape.
Local Open Scope nat_scope.

Lemma split_on_nonempty sep s : split_on sep s ≠ [].
Proof.
  destruct s as [|c s]; simpl; [done|].
  destruct (c =? sep)%N; [done|]. by destruct (split_on sep s).
Qed.

Lemma split_on_single sep s w : split_on sep s = [w] → w = s.
Proof.
  revert w. induction s as [|c s IH]; intros w; simpl.
  - by intros [= <-].
  - destruct (c =? sep)%N.
    + intros [= _ Hnil]. by apply split_on_nonempty in Hnil.
    + destruct (split_on sep s) as [|w' ws] eqn:E; [by apply split_on_nonempty in E|].
      intros [= <- ->]. by rewrite (IH w').
Qed.

Lemma split_on_Forall (P : N → Prop) sep s :
  Forall P s →
  Forall (Forall (fun c => P c ∧ c ≠ sep)) (split_on sep s).
Proof.
  induction 1 as [|c s Hc _ IH]; simpl; [by repeat constructor|].
  destruct (N.eqb_spec c sep) as [->|Hne]; [by repeat constructor|].
  destruct (split_on sep s) as [|w ws]; [by repeat constructor|].
  apply Forall_cons in IH as [Hw Hws]. by repeat constructor.
Qed.

Lemma join_Forall (P : N → Prop) sep l :
  Forall P sep → Forall (Forall P) l → Forall P (join sep l).
Proof.
  intros Hsep. induction 1 as [|w l Hw _ IH]; simpl; [constructor|].
  destruct l as [|w' l]; [done|]. by rewrite !Forall_app.
Qed.

Lemma join_two_nonempty sep l : sep ≠ [] → 2 ≤ length l → join sep l ≠ [].
Proof.
  intros Hsep Hl. destruct l as [|w [|w' l]]; simpl in Hl; try lia.
  simpl. intros Hnil%app_eq_nil. destruct Hnil as [_ Hnil%app_eq_nil].
  by destruct Hnil.
Qed.

Lemma digits_letter_dash_number w :
  digits w → Forall (fun u => Semver.is_letter_dash_number u = true) w.
Proof.
  intros [_ Hd]. eapply Forall_impl; [exact Hd|]. intros c Hc; simpl in *.
  unfold Semver.is_letter_dash_number, is_alnum. by rewrite Hc, !orb_true_r.
Qed.

Lemma identifier_string_ok id :
  identifier_ok id →
  Forall (fun u => is_prerelease_unit u = true) (Semver.identifier_string id).
Proof.
  intros Hid. eapply Forall_impl.
  - destruct id as [n|w]; simpl; [apply digits_letter_dash_number, of_number_digits|exact Hid].
  - intros c Hc; simpl in *. unfold is_prerelease_unit. by rewrite Hc.
Qed.

(** What [format] prints has the shape of a version. *)
Lemma format_shape sv :
  prerelease_ok (Semver.prerelease sv) →
  version_shape (Semver.version (Semver.format sv)).
Proof.
  intros [Hall Hne]. unfold Semver.format, version_shape. cbn [Semver.version].
  exists (of_number (Semver.major sv)), (of_number (Semver.minor sv)),
    (of_number (Semver.patch sv)).
  destruct (Semver.prerelease sv) as [|id ids] eqn:Hpre.
  - exists []. rewrite app_nil_r.
    repeat split; try apply of_number_digits. by left.
  - exists (45%N :: join [46%N] (Semver.identifier_string <$> id :: ids)).
    split; [by rewrite <- !app_assoc|].
    repeat split; try apply of_number_digits. right. eexists. split; [done|]. split.
    + destruct Hne as [?|[Hlen|(id' & [= -> ->] & Hs)]]; [done| |done].
      apply join_two_nonempty; [done|]. by rewrite length_fmap.
    + apply join_Forall; [by repeat constructor|].
      apply Forall_fmap. eapply Forall_impl; [exact Hall|].
      apply identifier_string_ok.
Qed.

Lemma numberify_ok w :
  Forall (fun u => Semver.is_letter_dash_number u = true) w →
  identifier_ok (Semver.numberify w)
  ∧ (w ≠ [] → Semver.identifier_string (Semver.numberify w) ≠ []).
Proof.
  intros Hw. unfold Semver.numberify.
  destruct (test _ _ _); [destruct (_ <? _)%N|]; simpl; try done.
  split; [done|]. intros _. by destruct (of_number_digits (to_number w)).
Qed.

Lemma prerelease_unit_piece c :
  is_prerelease_unit c = true ∧ c ≠ 46%N → Semver.is_letter_dash_number c = true.
Proof.
  unfold is_prerelease_unit. intros [Hc Hne].
  apply orb_true_iff in Hc as [?|Heq%N.eqb_eq]; done.
Qed.

Lemma prerelease_of_capture ids :
  ids ≠ [] → Forall (fun u => is_prerelease_unit u = true) ids →
  prerelease_ok (Semver.numberify <$> split_on 46 ids).
Proof.
  intros Hne Hall.
  pose proof (split_on_Forall _ 46%N ids Hall) as Hpieces.
  assert (Forall (Forall (fun u => Semver.is_letter_dash_number u = true))
            (split_on 46 ids)) as Hok.
  { eapply Forall_impl; [exact Hpieces|]. intros w Hw; simpl in *.
    eapply Forall_impl; [exact Hw|]. apply prerelease_unit_piece. }
  split.
  - apply Forall_fmap. eapply Forall_impl; [exact Hok|].
    intros w Hw. by apply numberify_ok.
  - destruct (split_on 46 ids) as [|w [|w' ws]] eqn:E.
    + by apply split_on_nonempty in E.
    + right. right. eexists. split; [done|].
      apply split_on_single in E as ->.
      apply Forall_cons in Hok as [Hw _]. by apply numberify_ok.
    + right. left. simpl. lia.
Qed.

Lemma group_4_units (loose : bool) c :
  group_alphabet (if loose then Semver.LOOSE else Semver.FULL) 4 c = true →
  is_prerelease_unit c = true.
Proof.
  destruct loose; cbn -[N.leb N.eqb];
    unfold is_prerelease_unit, Semver.is_letter_dash_number, Semver.is_letter_dash,
      is_alnum, is_lower, is_upper, is_digit;
    rewrite ?orb_false_r;
    repeat (rewrite ?orb_true_iff, ?andb_true_iff, ?N.leb_le, ?N.eqb_eq); lia.
Qed.

(** A parsed version is formatted, and its prerelease list prints well. *)
Lemma SemVer_new_formatted v loose sv :
  Semver.SemVer_new v loose = Some sv →
  ∃ sv0, sv = Semver.format sv0 ∧ prerelease_ok (Semver.prerelease sv0).
Proof.
  unfold Semver.SemVer_new. case_bool_decide; [done|].
  destruct (exec _ 5 (trim v)) as [m|] eqn:Hm; [cbn [mbind option_bind]|done].
  destruct (capture (trim v) m 1) as [c1|]; [cbn [fmap option_fmap option_map mbind option_bind]|done].
  destruct (capture (trim v) m 2) as [c2|]; [cbn [fmap option_fmap option_map mbind option_bind]|done].
  destruct (capture (trim v) m 3) as [c3|]; [cbn [fmap option_fmap option_map mbind option_bind]|done].
  destruct (_ || _); [done|]. intros [= <-]. eexists. split; [done|].
  cbn [Semver.prerelease].
  destruct (capture (trim v) m 4) as [[|u ids]|] eqn:H4;
    try (split; [constructor|by left]).
  apply prerelease_of_capture; [done|].
  eapply Forall_impl; [exact (exec_capture _ _ _ _ _ _ Hm H4)|].
  apply group_4_units.
Qed.

Lemma bump_last_number_facts ids bumped :
  Semver.bump_last_number ids = Some bumped →
  Forall identifier_ok ids →
  Forall identifier_ok bumped ∧ length bumped = length ids
  ∧ (∀ id, ids = [id] → ∃ n, bumped = [inl n]).
Proof.
  revert bumped. induction ids as [|id ids IH]; intros bumped; simpl; [done|].
  intros Hb [Hid Hids]%Forall_cons.
  destruct (Semver.bump_last_number ids) as [b'|] eqn:E.
  - injection Hb as <-. destruct (IH b' eq_refl Hids) as (Hall & Hlen & _).
    split; [by constructor|]. split; [simpl; congruence|].
    intros id' [= -> ->]. done.
  - destruct id as [n|w]; [|done]. injection Hb as <-.
    split; [constructor; [exact I|done]|]. split; [done|].
    intros id' [= <- ->]. eauto.
Qed.

Lemma bump_last_number_ok ids bumped :
  Semver.bump_last_number ids = Some bumped →
  prerelease_ok ids → prerelease_ok bumped.
Proof.
  intros Hb [Hall Hne].
  destruct (bump_last_number_facts _ _ Hb Hall) as (Hall' & Hlen & Hone).
  split; [done|]. destruct Hne as [->|[Hlen2|(id & -> & _)]]; [done| |].
  - right. left. lia.
  - destruct (Hone id eq_refl) as [n ->]. right. right. eexists. split; [done|].
    by destruct (of_number_digits n).
Qed.

Lemma prerelease_ok_nil : prerelease_ok [].
Proof. split; [constructor|by left]. Qed.

Lemma inc_pre_ok sv :
  prerelease_ok (Semver.prerelease sv) →
  prerelease_ok (Semver.prerelease (Semver.inc_pre sv)).
Proof.
  intros Hok. unfold Semver.inc_pre. cbn [Semver.prerelease Semver.with_version_parts].
  destruct (Semver.prerelease sv) as [|id ids] eqn:Hpre.
  - split; [by repeat constructor|]. right. right. eexists. split; [done|].
    by destruct (of_number_digits 0).
  - destruct (Semver.bump_last_number (id :: ids)) as [bumped|] eqn:Hb.
    + by eapply bump_last_number_ok.
    + destruct Hok as [Hall _]. split.
      * apply Forall_app. split; [done|]. by repeat constructor.
      * right. left. rewrite length_app. simpl. lia.
Qed.

(** Whatever [inc] of the package returns is formatted and prints well. *)
Lemma Semver_inc_formatted sv release sv' :
  Semver.inc sv release = Normal sv' →
  prerelease_ok (Semver.prerelease sv) →
  ∃ sv0, sv' = Semver.format sv0 ∧ prerelease_ok (Semver.prerelease sv0).
Proof.
  unfold Semver.inc. intros Hinc Hok.
  repeat (match type of Hinc with
          | (if ?b then _ else _) = _ => destruct b
          end;
          [injection Hinc as <-; eexists; split; [done|]|]); [..|done].
  - by apply inc_pre_ok, prerelease_ok_nil.
  - by apply inc_pre_ok, prerelease_ok_nil.
  - by apply inc_pre_ok, prerelease_ok_nil.
  - apply inc_pre_ok.
    destruct (Semver.prerelease sv) eqn:E; [apply prerelease_ok_nil|by rewrite E].
  - apply prerelease_ok_nil.
  - apply prerelease_ok_nil.
  - apply prerelease_ok_nil.
  - by apply inc_pre_ok.
Qed.

(** What [Version.prototype.inc] returns has the shape of a version. *)
Lemma inc_version_shape this cmd_arg w this' :
  inc this cmd_arg = Normal (Some w, this') → version_shape w.
Proof.
  unfold inc.
  destruct (Semver.parse _ _) as [sv|] eqn:Hparse; [|done].
  destruct (version this) as [v|]; [|done]. simpl in Hparse.
  apply SemVer_new_formatted in Hparse as (sv0 & -> & Hok0).
  destruct (_ && _); [|done].
  destruct (negb _).
  - destruct (Semver.inc _ _) as [sv'|e] eqn:Hinc; [|done].
    intros [= <- _].
    apply Semver_inc_formatted in Hinc as (sv1 & -> & Hok1); [|done].
    by apply format_shape.
  - intros [= <- _]. by apply format_shape.
Qed.

End VersionShape.

Section Batch.
Context `{JSON}.
Local Open Scope nat_scope.

Lemma iter_start_next fs n m :
  let b := Nat.iter m start_next (mkBatch fs 0 n ∅ [] []) in
  b_next b = m ∧ b_left b = n ∧ b_log b = [] ∧ b_err b = [] ∧ b_fs b = fs
  ∧ size (b_running b) = m ∧ ∀ j, is_Some (b_running b !! j) ↔ j < m.
Proof.
  induction m as [|m IH]; simpl.
  - repeat split; try done; [by intros [? ?]|lia].
  - destruct IH as (Hn & Hl & Hlog & Herr & Hfs & Hsz & Hdom).
    rewrite Hn. repeat split; try done.
    + rewrite map_size_insert_None, Hsz; [done|].
      destruct (_ !! m) eqn:E; [|done].
      assert (m < m); [|lia]. apply Hdom. by rewrite E.
    + destruct (decide (j = m)) as [->|Hne]; [lia|].
      rewrite lookup_insert_ne by done. rewrite Hdom. lia.
    + destruct (decide (j = m)) as [->|Hne].
      * intros _. rewrite lookup_insert_eq. done.
      * rewrite lookup_insert_ne by done. rewrite Hdom. lia.
Qed.

Lemma start_inv fs files :
  files ≠ [] →
  batch_inv files
    (Nat.iter (Nat.min limit (length files)) start_next
       (mkBatch fs 0 (length files) ∅ [] [])).
Proof.
  intros Hne. assert (1 ≤ length files) as Hn by (destruct files; simpl; [done|lia]).
  assert (Nat.min limit (length files) ≤ limit) as Hm1 by lia.
  assert (Nat.min limit (length files) ≤ length files) as Hm2 by lia.
  assert (Nat.min limit (length files) < length files →
          Nat.min limit (length files) = limit) as Hm3 by lia.
  assert (1 ≤ Nat.min limit (length files)) as Hm4 by (unfold limit; lia).
  revert Hm1 Hm2 Hm3 Hm4. generalize (Nat.min limit (length files)) as m.
  intros m Hm1 Hm2 Hm3 Hm4.
  destruct (iter_start_next fs (length files) m)
    as (Hnext & Hl & Hlog & Herr & Hfs & Hsz & Hdom).
  split; rewrite ?Hnext, ?Hsz, ?Hlog, ?Herr, ?Hl; try done; try lia.
  - intros j. rewrite Hdom. simpl. rewrite elem_of_nil. tauto.
  - intros j _. apply not_elem_of_nil.
  - constructor.
  - intros Hempty. rewrite Hempty, map_size_empty in Hsz. lia.
Qed.

Lemma eachLimit_start_inv fs files : state_inv files (eachLimit_start fs files).
Proof.
  unfold eachLimit_start. destruct files as [|f l] eqn:E; [done|].
  rewrite <- E. apply start_inv. by rewrite E.
Qed.

Lemma failed_paths_snoc files log j e :
  failed_paths files (log ++ [(j, e)])
  = failed_paths files log
    ++ match e with Some _ => [default [] (files !! j)] | None => [] end.
Proof. unfold failed_paths. rewrite omap_app. by destruct e. Qed.

Lemma task_done_inv files b fs j ph e :
  batch_inv files b → b_running b !! j = Some ph →
  state_inv files (task_done files b fs j e).
Proof.
  intros [Hnext Hcap Hfull Hleft Hstarted Honce Hnodup Herr Hbusy] Hj.
  assert (j < b_next b) as Hjn by (apply Hstarted; left; by rewrite Hj).
  assert (j ∉ (b_log b).*1) as Hjlog by (apply Honce; by rewrite Hj).
  assert (size (delete j (b_running b)) = pred (size (b_running b))) as Hsz.
  { apply map_size_delete_Some. by rewrite Hj. }
  assert (1 ≤ size (b_running b)) as Hpos.
  { destruct (size (b_running b)) eqn:E; [|lia].
    apply map_size_empty_inv in E. done. }
  assert (NoDup ((b_log b ++ [(j, e)]).*1)) as Hnodup'.
  { rewrite fmap_app. apply NoDup_app. repeat split; [done| |apply NoDup_singleton].
    simpl. intros k Hk ->%list_elem_of_singleton. done. }
  assert ((match e with
           | Some _ => b_err b ++ [default [] (files !! j)]
           | None => b_err b
           end) = failed_paths files (b_log b ++ [(j, e)])) as Herr'.
  { rewrite failed_paths_snoc, Herr. destruct e; [done|by rewrite app_nil_r]. }
  unfold task_done. cbn [b_next b_left b_log b_running b_err b_fs].
  case_bool_decide as Hmore; [|case_bool_decide as Hzero].
  - (* the next file is started *)
    simpl state_inv. unfold start_next. cbn [b_next b_left b_log b_running b_err b_fs].
    assert (delete j (b_running b) !! b_next b = None) as Hfresh.
    { rewrite lookup_delete_ne by lia.
      destruct (b_running b !! b_next b) eqn:E; [|done].
      assert (b_next b < b_next b); [|lia]. apply Hstarted. left. by rewrite E. }
    assert (size (<[b_next b:=Reading]> (delete j (b_running b))) = limit) as Hsz'.
    { rewrite map_size_insert_None, Hsz by done. rewrite Hfull by done.
      unfold limit. lia. }
    split; cbn [b_next b_left b_log b_running b_err b_fs].
    + lia.
    + lia.
    + done.
    + rewrite Hsz'. specialize (Hfull Hmore). unfold limit in *. lia.
    + intros k. rewrite fmap_app, elem_of_app. simpl.
      rewrite list_elem_of_singleton.
      destruct (decide (k = b_next b)) as [->|Hk].
      { rewrite lookup_insert_eq. split; [by left|lia]. }
      rewrite lookup_insert_ne by done.
      destruct (decide (k = j)) as [->|Hkj].
      { split; [by right; right|lia]. }
      rewrite lookup_delete_ne by done.
      specialize (Hstarted k). split; [|intros [?|[?|?]]]; try lia.
      * intros ?. assert (k < b_next b) as Hlt by lia.
        apply Hstarted in Hlt as [?|?]; auto.
      * assert (k < b_next b); [|lia]. apply Hstarted. by left.
      * assert (k < b_next b); [|lia]. apply Hstarted. by right.
    + intros k Hk. rewrite fmap_app, elem_of_app. simpl.
      rewrite list_elem_of_singleton.
      destruct (decide (k = b_next b)) as [->|Hkn].
      { intros [Hin|Heq]; [|lia].
        assert (b_next b < b_next b); [|lia]. apply Hstarted. by right. }
      rewrite lookup_insert_ne in Hk by done.
      destruct (decide (k = j)) as [->|Hkj].
      { rewrite lookup_delete_eq in Hk. by destruct Hk. }
      rewrite lookup_delete_ne in Hk by done.
      intros [Hin| ->]; [|done]. by apply (Honce k).
    + done.
    + done.
    + intros Hempty. apply (f_equal (lookup (b_next b))) in Hempty.
      rewrite lookup_insert_eq, lookup_empty in Hempty. done.
  - (* the last operation has finished *)
    simpl state_inv. split; [by rewrite Herr'|].
    simpl in Hzero.
    assert (b_next b = length files) as Hall by lia.
    assert (delete j (b_running b) = ∅) as Hempty.
    { apply map_size_empty_inv. lia. }
    apply NoDup_Permutation; [done|apply NoDup_seq|].
    intros k. rewrite elem_of_seq, fmap_app, elem_of_app. simpl.
    rewrite list_elem_of_singleton.
    destruct (decide (k = j)) as [->|Hkj]; [split; [lia|by right]|].
    assert (b_running b !! k = None) as Hk.
    { rewrite <- (lookup_delete_ne (b_running b) j k) by done.
      by rewrite Hempty, lookup_empty. }
    specialize (Hstarted k). rewrite Hk in Hstarted. split.
    + intros [Hin|?]; [|done]. assert (k < b_next b); [|lia].
      apply Hstarted. by right.
    + intros ?. assert (k < b_next b) as Hlt by lia.
      apply Hstarted in Hlt as [[? ?]|?]; [done|by left].
  - (* others are still in flight *)
    simpl state_inv. simpl in Hzero.
    split; cbn [b_next b_left b_log b_running b_err b_fs].
    + done.
    + lia.
    + lia.
    + lia.
    + intros k. rewrite fmap_app, elem_of_app. simpl.
      rewrite list_elem_of_singleton.
      destruct (decide (k = j)) as [->|Hkj]; [split; [by right; right|lia]|].
      rewrite lookup_delete_ne by done. rewrite Hstarted. tauto.
    + intros k Hk. rewrite fmap_app, elem_of_app. simpl.
      rewrite list_elem_of_singleton.
      destruct (decide (k = j)) as [->|Hkj].
      { rewrite lookup_delete_eq in Hk. by destruct Hk. }
      rewrite lookup_delete_ne in Hk by done.
      intros [Hin| ->]; [|done]. by apply (Honce k).
    + done.
    + done.
    + intros Hempty. rewrite Hempty, map_size_empty in Hsz. lia.
Qed.

Lemma turn_inv files version b j st :
  batch_inv files b → turn files version b j = Some st → state_inv files st.
Proof.
  intros Hinv. unfold turn.
  destruct (b_running b !! j) as [ph|] eqn:Hj; [|done].
  cbn [mbind option_bind]. intros [= <-].
  destruct ph as [|text].
  - destruct (change_on_read _ _) as [err|text|e].
    + by eapply task_done_inv.
    + destruct Hinv as [Hnext Hcap Hfull Hleft Hstarted Honce Hnodup Herr Hbusy].
      assert (size (<[j:=Writing text]> (b_running b)) = size (b_running b)) as Hsz.
      { apply map_size_insert_Some. by rewrite Hj. }
      assert (∀ k, is_Some (<[j:=Writing text]> (b_running b) !! k)
                   ↔ is_Some (b_running b !! k)) as Hdom.
      { intros k. destruct (decide (k = j)) as [->|Hk].
        - rewrite lookup_insert_eq, Hj. split; eauto.
        - by rewrite lookup_insert_ne. }
      simpl state_inv. split; cbn [b_next b_left b_log b_running b_err b_fs];
        rewrite ?Hsz; try done.
      * intros k. by rewrite Hdom.
      * intros k. rewrite Hdom. apply Honce.
      * intros Hempty. rewrite Hempty, map_size_empty in Hsz.
        symmetry in Hsz. apply map_size_empty_inv in Hsz. done.
    + done.
  - destruct (change_on_write _ _ _) as [err fs']. by eapply task_done_inv.
Qed.

Lemma run_inv files version st schedule st' :
  state_inv files st → run files version st schedule = Some st' →
  state_inv files st'.
Proof.
  revert st. induction schedule as [|j schedule IH]; intros st Hinv; simpl.
  - by intros [= <-].
  - destruct st as [b| |]; try done.
    destruct (turn files version b j) as [st1|] eqn:Hturn; [|done].
    cbn [mbind option_bind]. apply IH. by eapply turn_inv.
Qed.

End Batch.

(** ** The claims *)

Section VersionMethods.
Local Open Scope nat_scope.

Lemma valid_is_string x w : Semver.valid x = Some w → ∃ s, x = VString s.
Proof. destruct x; try done. eauto. Qed.

Lemma setVersion_valid this v :
  is_Some (Semver.valid (VString v)) →
  setVersion this (VString v) = (None, set_version this (Some v)).
Proof. intros [w Hw]. unfold setVersion. by rewrite Hw. Qed.

Lemma setVersion_invalid this x :
  Semver.valid x = None →
  setVersion this x = (Some (BadSemverVersion x), set_version this None).
Proof. intros Hx. unfold setVersion. destruct x; try done. by rewrite Hx. Qed.

Lemma inc_noop this cmd_arg :
  Semver.parse (of_option (version this)) true = None
  ∨ chosen_cmd this cmd_arg ∉ CMDS →
  inc this cmd_arg = Normal (None, this).
Proof.
  unfold inc. intros [->|Hcmd]; [done|].
  destruct (Semver.parse _ _); [|done].
  rewrite (bool_decide_eq_false_2 _ Hcmd). by rewrite andb_false_r.
Qed.

(** C1.  With the stored version "1.2.3", [inc] gives "2.0.0" for [major],
    "1.3.0" for [minor], "1.2.4" for [patch], "1.2.4-0" for [prerelease] and
    "1.2.3" for [same], and stores what it returns.  Whatever is stored,
    [inc] returns absent and changes nothing when the stored version does
    not parse, in particular when it is missing, and when the command, the
    argument or else the object's own, is not in [CMDS]. *)
Theorem inc_commands :
  (∀ this, version this = Some (lit "1.2.3") →
     inc this (Some (lit "major"))
       = Normal (Some (lit "2.0.0"), set_version this (Some (lit "2.0.0")))
     ∧ inc this (Some (lit "minor"))
       = Normal (Some (lit "1.3.0"), set_version this (Some (lit "1.3.0")))
     ∧ inc this (Some (lit "patch"))
       = Normal (Some (lit "1.2.4"), set_version this (Some (lit "1.2.4")))
     ∧ inc this (Some (lit "prerelease"))
       = Normal (Some (lit "1.2.4-0"), set_version this (Some (lit "1.2.4-0")))
     ∧ inc this (Some (lit "same")) = Normal (Some (lit "1.2.3"), this))
  ∧ (∀ this cmd_arg,
       Semver.parse (of_option (version this)) true = None
       ∨ chosen_cmd this cmd_arg ∉ CMDS →
       inc this cmd_arg = Normal (None, this))
  ∧ (∀ this cmd_arg,
       version this = None → inc this cmd_arg = Normal (None, this))
  ∧ (∀ this c,
       c ≠ [] → c ∉ CMDS → inc this (Some c) = Normal (None, this))
  ∧ (∀ this,
       cmd this ∉ CMDS → inc this None = Normal (None, this)).
Proof.
  split; [|split; [apply inc_noop|repeat split]].
  - intros [f o v c] Hv. simpl in Hv. subst v.
    repeat split; by vm_compute.
  - intros this cmd_arg Hv. apply inc_noop. left. by rewrite Hv.
  - intros this c Hc Hcmd. apply inc_noop. right. unfold chosen_cmd, str_eqb.
    by rewrite bool_decide_eq_false_2.
  - intros this Hcmd. apply inc_noop. by right.
Qed.

Lemma inc_commands_witness :
  inc (new_Version (lit "package.json")
         (Some (mkOptions (Some (lit "1.2.3")) None None)))
    (Some (lit "prerelease"))
  = Normal (Some (lit "1.2.4-0"),
            set_version (new_Version (lit "package.json")
                           (Some (mkOptions (Some (lit "1.2.3")) None None)))
              (Some (lit "1.2.4-0")))
  ∧ inc (new_Version (lit "package.json") None) (Some (lit "major"))
    = Normal (None, new_Version (lit "package.json") None)
  ∧ inc (new_Version (lit "package.json")
           (Some (mkOptions (Some (lit "1.2.3")) None None)))
      (Some (lit "bump"))
    = Normal (None, new_Version (lit "package.json")
                      (Some (mkOptions (Some (lit "1.2.3")) None None))).
Proof.
  split; [|split].
  - apply (proj1 inc_commands). reflexivity.
  - apply (proj1 (proj2 inc_commands)). left. reflexivity.
  - apply (proj1 (proj2 inc_commands)). right.
    apply (bool_decide_eq_false_1 (_ ∈ CMDS)). by vm_compute.
Defined.

End VersionMethods.

Section PatternFiles.
Context `{JSON}.
Local Open Scope nat_scope.

Lemma readFile_text fs this s :
  str_eqb (Path.extname (file this)) (lit ".json") = false →
  read_text fs (file this) = inr s →
  readFile fs this = inr (VString s).
Proof.
  unfold readFile, read_text. intros Hext Hread.
  destruct (fs_readFile fs (file this)) as [e|buf]; [done|].
  injection Hread as <-. by rewrite Hext.
Qed.

Lemma exec_VERSION_is_Some s :
  is_Some (exec VERSION 2 s) ↔ is_Some (find_version s).
Proof. rewrite exec_VERSION. apply fmap_is_Some. Qed.

Lemma _extract_pattern this s :
  is_VERSION_type this = false →
  _extract this (VString s)
  = Normal (setVersion this
      (match find_version s with
       | Some (i, (j, k)) => VString (substring s j k)
       | None => VUndefined
       end)).
Proof.
  intros Hty. unfold _extract. simpl typeof_object. rewrite Hty. cbv iota.
  simpl prim_to_string. rewrite exec_VERSION.
  by destruct (find_version s) as [[i [j k]]|].
Qed.

Lemma _change_pattern this s :
  is_VERSION_type this = false →
  _change this (VString s)
  = Normal (VString
      (match find_version s with
       | Some (i, (j, k)) =>
           take i s ++ substring s i j
           ++ replacement_text s i j k (prim_to_string (of_option (version this)))
           ++ drop k s
       | None => s
       end)).
Proof.
  intros Hty. unfold _change. simpl typeof_object. rewrite Hty. cbv iota.
  by rewrite replace_VERSION.
Qed.

Lemma replacement_text_valid s i j k v :
  is_Some (Semver.valid (VString v)) →
  replacement_text s i j k (prim_to_string (of_option (Some v))) = v.
Proof.
  intros Hv. unfold replacement_text. simpl.
  apply get_substitution_plain. by apply valid_no_dollar.
Qed.

Lemma read_text_Some fs path s :
  read_text fs path = inr s →
  ∃ f, fs !! path = Some f ∧ readable f = true ∧ s = toString (content f).
Proof.
  unfold read_text, fs_readFile. destruct (fs !! path) as [f|]; [|done].
  destruct (readable f) eqn:Hr; [|done]. intros [= <-]. by exists f.
Qed.

(** Writing the text that was read: the file then holds the encoding of its
    decoded text. *)
Lemma fs_writeFile_text fs path s f :
  read_text fs path = inr s → fs !! path = Some f → writable f = true →
  fs_writeFile fs path s
  = (None, <[path := mkFile (Buffer_from (toString (content f))) true true]> fs).
Proof.
  intros (f' & Hf' & Hr & ->)%read_text_Some Hf Hw.
  rewrite Hf in Hf'. injection Hf' as <-.
  unfold fs_writeFile. by rewrite Hf, Hw, Hr.
Qed.

(** Writing back the text of a file whose bytes are well-formed UTF-8
    changes nothing. *)
Lemma fs_writeFile_same fs path s f :
  read_text fs path = inr s → fs !! path = Some f → writable f = true →
  well_formed_utf8 (octets (content f)) = true →
  fs_writeFile fs path s = (None, fs).
Proof.
  intros Hread Hf Hw Hwf. rewrite (fs_writeFile_text _ _ _ _ Hread Hf Hw).
  apply read_text_Some in Hread as (f' & Hf' & Hr & _).
  rewrite Hf in Hf'. injection Hf' as <-.
  rewrite Buffer_from_toString by done. f_equal. apply insert_id.
  rewrite Hf. destruct f as [c r w]. simpl in *. by subst.
Qed.

End PatternFiles.

Section PatternClaims.
Context `{JSON}.
Local Open Scope nat_scope.

Lemma find_version_first s i j k :
  find_version s = Some (i, (j, k)) → first_occurrence s i j k.
Proof. apply find_version_Some. Qed.

(** C6 (amended).  For a pattern-embedded file, [extract] validates the
    token of the first occurrence of the pattern: the word [VERSION]
    between word boundaries, then, lazily, code units none of which is a
    line terminator, then a token of shape [\d+\.\d+\.\d+] with an optional
    [-alphanumeric] suffix.  When the text holds no occurrence the
    candidate is undefined. *)
Theorem extract_first_occurrence (fs : filesystem) (this : Version) (s : str) :
  pattern_embedded this →
  read_text fs (file this) = inr s →
  ∃ candidate,
    _extract this (VString s) = Normal (setVersion this candidate)
    ∧ extract fs this
      = Normal (((setVersion this candidate).1,
                 version (setVersion this candidate).2),
                (setVersion this candidate).2)
    ∧ ((∃ i j k, first_occurrence s i j k
                 ∧ candidate = VString (substring s j k))
       ∨ ((∀ i j k, ¬ occurrence s i j k) ∧ candidate = VUndefined)).
Proof.
  intros [Hext Hty] Hread.
  pose proof (_extract_pattern this s Hty) as Hex.
  eexists. split; [exact Hex|]. split.
  - unfold extract. rewrite (readFile_text _ _ _ Hext Hread), Hex.
    by destruct (setVersion _ _).
  - destruct (find_version s) as [[i [j k]]|] eqn:Hfind.
    + left. exists i, j, k. split; [by apply find_version_first|done].
    + right. split; [|done]. intros i j k. by apply find_version_None.
Qed.

(** C10 (amended).  For a file that is neither JSON-kind nor a plain version
    file and whose text holds no match of the pattern, the change operation
    hands the decoded text back to [fs.writeFile] as it is: its outcome is
    the outcome of that write, and no error about a missing version
    arises.  On a writable file it reports success, and the file then holds
    the encoding of its decoded text; when the bytes of the file are
    well-formed UTF-8 these are the bytes it held, and the file system is
    left as it was. *)
Theorem change_without_match (fs : filesystem) (this : Version) (s : str) :
  pattern_embedded this →
  read_text fs (file this) = inr s →
  exec VERSION 2 s = None →
  _change this (VString s) = Normal (VString s)
  ∧ change_on_read fs this = Writes s
  ∧ change fs this = Normal (fs_writeFile fs (file this) s)
  ∧ (∀ f, fs !! file this = Some f → writable f = true →
       change fs this
       = Normal (None,
                 <[file this := mkFile (Buffer_from (toString (content f)))
                                  true true]> fs))
  ∧ (∀ f, fs !! file this = Some f → writable f = true →
       well_formed_utf8 (octets (content f)) = true →
       change fs this = Normal (None, fs)).
Proof.
  intros [Hext Hty] Hread Hnone.
  assert (find_version s = None) as Hfind.
  { rewrite exec_VERSION in Hnone. by destruct (find_version s). }
  pose proof (_change_pattern this s Hty) as Hch. rewrite Hfind in Hch.
  assert (change_on_read fs this = Writes s) as Hturn.
  { unfold change_on_read. by rewrite (readFile_text _ _ _ Hext Hread), Hch. }
  split; [done|]. split; [done|].
  assert (change fs this = Normal (fs_writeFile fs (file this) s)) as Hchange.
  { unfold change. by rewrite Hturn. }
  split; [done|]. split.
  - intros f Hf Hw. rewrite Hchange. f_equal. by apply fs_writeFile_text.
  - intros f Hf Hw Hwf. rewrite Hchange. f_equal. by eapply fs_writeFile_same.
Qed.

End PatternClaims.

Lemma extract_first_occurrence_witness :
  ∃ candidate,
    _extract (new_Version (lit "version.js") None)
      (VString (lit "const VERSION = '1.2.3'"))
    = Normal (setVersion (new_Version (lit "version.js") None) candidate).
Proof.
  destruct (@extract_first_occurrence example_JSON example_fs
              (new_Version (lit "version.js") None)
              (lit "const VERSION = '1.2.3'"))
    as (candidate & Hex & _).
  - split; reflexivity.
  - reflexivity.
  - exists candidate. exact Hex.
Defined.

Lemma change_without_match_witness :
  change (H := example_JSON) example_fs (new_Version (lit "README") None)
  = Normal (None, example_fs).
Proof.
  destruct (@change_without_match example_JSON example_fs
              (new_Version (lit "README") None) (lit "no version here"))
    as (_ & _ & _ & _ & Hok).
  - split; reflexivity.
  - reflexivity.
  - reflexivity.
  - apply (Hok (text_file (lit "no version here"))); reflexivity.
Defined.

(** C6 (as claimed).  Were line breaks allowed between the word and the
    token, the sample would give "1.2.3"; the pattern of the source does not
    match it, and [extract] ends with the validation error. *)
Lemma extract_across_line_break :
  (exec VERSION_across_lines 2 line_break_sample
     ≫= fun m => capture line_break_sample m 2) = Some (lit "1.2.3")
  ∧ exec VERSION 2 line_break_sample = None
  ∧ _extract (new_Version (lit "version.js") None) (VString line_break_sample)
    = Normal (Some (BadSemverVersion VUndefined),
              set_version (new_Version (lit "version.js") None) None).
Proof. repeat split; by vm_compute. Qed.

Section VersionFileClaims.
Context `{JSON}.
Local Open Scope nat_scope.

Lemma trim_start_split s :
  ∃ l, s = l ++ trim_start s
       ∧ Forall (fun c => is_space c = true) l
       ∧ ∀ c, head (trim_start s) = Some c → is_space c = false.
Proof.
  induction s as [|d s (l & Hs & Hl & Hhd)]; simpl.
  - exists []. repeat split; [constructor|done].
  - destruct (is_space d) eqn:Hd.
    + exists (d :: l). repeat split; [by rewrite Hs at 1|by constructor|done].
    + exists []. repeat split; [constructor|]. by intros c [= <-].
Qed.

(** [trim] removes exactly the white space at both ends. *)
Lemma trim_split s :
  ∃ l r, s = l ++ trim s ++ r
         ∧ Forall (fun c => is_space c = true) l
         ∧ Forall (fun c => is_space c = true) r
         ∧ (∀ c, head (trim s) = Some c → is_space c = false)
         ∧ (∀ c, last (trim s) = Some c → is_space c = false).
Proof.
  destruct (trim_start_split s) as (l & Hs & Hl & Hhd).
  destruct (trim_start_split (reverse (trim_start s))) as (r & Hr & Hrs & Hlast).
  exists l, (reverse r). unfold trim, trim_end.
  assert (trim_start s = reverse (trim_start (reverse (trim_start s))) ++ reverse r)
    as Hts.
  { rewrite <- reverse_app, <- Hr. by rewrite reverse_involutive. }
  repeat split.
  - by rewrite <- Hts.
  - done.
  - by apply Forall_reverse.
  - intros c Hc. apply Hhd. rewrite Hts.
    destruct (reverse (trim_start (reverse (trim_start s)))); [done|exact Hc].
  - intros c Hc. apply Hlast. by rewrite last_reverse in Hc.
Qed.

Lemma basename_VERSION_extname path :
  Path.basename path = lit "VERSION" → Path.extname path = [].
Proof. intros Hb. unfold Path.extname. by rewrite Hb. Qed.

Lemma basename_VERSION_type path opts :
  Path.basename path = lit "VERSION" →
  is_VERSION_type (new_Version path opts) = true.
Proof. intros Hb. unfold is_VERSION_type, new_Version. by rewrite Hb. Qed.

(** C7 (amended).  A file whose name is exactly [VERSION], with no
    extension, is a plain version file: [extract] validates the whole text
    with the white space at both ends trimmed, and the change operation
    writes exactly the stored version as the file's text. *)
Theorem VERSION_file_is_plain (path : str) (opts : option Options) :
  Path.basename path = lit "VERSION" →
  is_VERSION_type (new_Version path opts) = true
  ∧ (∀ s, _extract (new_Version path opts) (VString s)
          = Normal (setVersion (new_Version path opts) (VString (trim s))))
  ∧ (∀ fs s, read_text fs path = inr s →
       extract fs (new_Version path opts)
       = Normal (((setVersion (new_Version path opts) (VString (trim s))).1,
                  version (setVersion (new_Version path opts) (VString (trim s))).2),
                 (setVersion (new_Version path opts) (VString (trim s))).2))
  ∧ (∀ s, ∃ l r, s = l ++ trim s ++ r
                 ∧ Forall (fun c => is_space c = true) l
                 ∧ Forall (fun c => is_space c = true) r
                 ∧ (∀ c, head (trim s) = Some c → is_space c = false)
                 ∧ (∀ c, last (trim s) = Some c → is_space c = false))
  ∧ (∀ fs s v, read_text fs path = inr s →
       version (new_Version path opts) = Some v →
       _change (new_Version path opts) (VString s) = Normal (VString v)
       ∧ change fs (new_Version path opts) = Normal (fs_writeFile fs path v)).
Proof.
  intros Hb.
  pose proof (basename_VERSION_type path opts Hb) as Hty.
  assert (∀ s, _extract (new_Version path opts) (VString s)
               = Normal (setVersion (new_Version path opts) (VString (trim s))))
    as Hex.
  { intros s. unfold _extract. simpl typeof_object. by rewrite Hty. }
  assert (∀ fs s, read_text fs path = inr s →
                  readFile fs (new_Version path opts) = inr (VString s)) as Hrd.
  { intros fs s Hread. apply readFile_text; [|done]. simpl file.
    by rewrite (basename_VERSION_extname _ Hb). }
  split; [done|]. split; [done|]. split; [|split; [apply trim_split|]].
  - intros fs s Hread. unfold extract. rewrite (Hrd _ _ Hread), Hex.
    by destruct (setVersion _ _).
  - intros fs s v Hread Hv.
    assert (_change (new_Version path opts) (VString s) = Normal (VString v)) as Hch.
    { unfold _change. simpl typeof_object. by rewrite Hty, Hv. }
    split; [done|]. unfold change, change_on_read.
    by rewrite (Hrd _ _ Hread), Hch.
Qed.

End VersionFileClaims.

Lemma VERSION_file_is_plain_witness :
  is_VERSION_type (new_Version (lit "lib/VERSION")
                     (Some (mkOptions (Some (lit "2.0.0")) None None))) = true.
Proof.
  apply (@VERSION_file_is_plain example_JSON (lit "lib/VERSION")
           (Some (mkOptions (Some (lit "2.0.0")) None None))).
  reflexivity.
Defined.

(** C7 (as claimed).  [VERSION.txt] has the name [VERSION] with an
    extension, yet it is not a plain version file: [extract] looks for the
    pattern and finds no version in " 1.2.3 ", and the change operation
    leaves the text "1.2.3" as it was. *)
Lemma VERSION_with_extension_is_not_plain :
  is_VERSION_type (new_Version (lit "VERSION.txt") None) = false
  ∧ _extract (new_Version (lit "VERSION.txt") None) (VString (lit " 1.2.3 "))
    = Normal (Some (BadSemverVersion VUndefined),
              set_version (new_Version (lit "VERSION.txt") None) None)
  ∧ _change (new_Version (lit "VERSION.txt")
               (Some (mkOptions (Some (lit "2.0.0")) None None)))
      (VString (lit "1.2.3"))
    = Normal (VString (lit "1.2.3"))
  ∧ change (H := example_JSON) example_fs
      (new_Version (lit "VERSION.txt")
         (Some (mkOptions (Some (lit "2.0.0")) None None)))
    = Normal (None, example_fs).
Proof. repeat split; by vm_compute. Qed.

Section InvariantClaims.
Context `{JSON}.
Local Open Scope nat_scope.

Lemma setVersion_accepted_or_absent this x : accepted_or_absent (setVersion this x).2.
Proof.
  unfold setVersion, accepted_or_absent.
  destruct x; try done. destruct (Semver.valid (VString s)) eqn:Hv; [|done].
  simpl. rewrite Hv. by eexists.
Qed.

Lemma _extract_accepted_or_absent this data err this' :
  _extract this data = Normal (err, this') → accepted_or_absent this'.
Proof.
  unfold _extract. intros Hex.
  assert (∀ x, Normal (setVersion this x) = Normal (err, this') →
               accepted_or_absent this') as Hset.
  { intros x [= Hx]. pose proof (setVersion_accepted_or_absent this x) as Hv.
    by rewrite Hx in Hv. }
  destruct (typeof_object data).
  - destruct (get_version data); [eauto|done].
  - destruct (is_VERSION_type this); [|eauto].
    destruct data; try done. eauto.
Qed.

Lemma inc_stores_result this cmd_arg r this' :
  inc this cmd_arg = Normal (r, this') →
  (r = None ∧ this' = this)
  ∨ ∃ w, r = Some w ∧ this' = set_version this (Some w) ∧ version_shape w.
Proof.
  intros Hinc. destruct r as [w|].
  - right. exists w. pose proof (inc_version_shape _ _ _ _ Hinc) as Hshape.
    revert Hinc. unfold inc.
    destruct (Semver.parse _ _) as [sv|]; [|done].
    destruct (_ && _); [|done].
    destruct (if negb _ then _ else _) as [sv'|e]; [|done].
    by intros [= <- <-].
  - left. split; [done|]. revert Hinc. unfold inc.
    destruct (Semver.parse _ _) as [sv|]; [|by intros [= <-]].
    destruct (_ && _); [|by intros [= <-]].
    by destruct (if negb _ then _ else _) as [sv'|e].
Qed.

End InvariantClaims.

Section BatchClaims.
Context `{JSON}.
Local Open Scope nat_scope.

Lemma changeFiles_inv fs files version :
  state_inv files (changeFiles fs files (Some version)).
Proof. apply eachLimit_start_inv. Qed.

(** C4.  Called with an absent version, [changeFiles] calls back at once
    with the single error 'version is undefined': no operation is in flight
    or finished, the file system is as it was, and no turn of the event
    loop belongs to the call. *)
Theorem changeFiles_without_version (fs : filesystem) (files : list str) :
  changeFiles fs files None = Returned (inl VersionIsUndefined) fs []
  ∧ ∀ version schedule st,
      run files version (changeFiles fs files None) schedule = Some st →
      schedule = [] ∧ st = Returned (inl VersionIsUndefined) fs [].
Proof.
  split; [done|]. intros version [|j schedule] st; simpl; [|done].
  by intros [= <-].
Qed.

(** C9.  Between any two turns of a batch at most 5 operations are in
    flight, and exactly 5 while a file is still waiting; when an operation
    finishes, whatever its outcome, the next waiting file is started at
    once. *)
Theorem changeFiles_at_most_5_in_flight (fs : filesystem) (files : list str)
    (version : str) (schedule : list nat) (b : batch) :
  run files version (changeFiles fs files (Some version)) schedule
    = Some (Active b) →
  size (b_running b) ≤ 5
  ∧ (b_next b < length files → size (b_running b) = 5)
  ∧ ∀ j ph fs' outcome,
      b_running b !! j = Some ph → b_next b < length files →
      ∃ b', task_done files b fs' j outcome = Active b'
            ∧ b_running b' !! b_next b = Some Reading
            ∧ b_next b' = S (b_next b)
            ∧ size (b_running b') = 5.
Proof.
  intros Hrun.
  pose proof (run_inv _ _ _ _ _ (changeFiles_inv fs files version) Hrun) as Hinv.
  simpl in Hinv. split; [apply Hinv|]. split; [apply Hinv|].
  intros j ph fs' outcome Hj Hmore.
  pose proof (task_done_inv files b fs' j ph outcome Hinv Hj) as Hdone.
  unfold task_done in *. cbn [b_next] in *.
  rewrite bool_decide_eq_true_2 in * by done.
  eexists. split; [done|]. split; [apply lookup_insert_eq|]. split; [done|].
  simpl in Hdone. destruct Hinv as [? ? Hfull ? Hstarted ? ? ? ?].
  cbn [start_next b_running b_next].
  rewrite map_size_insert_None.
  - rewrite map_size_delete_Some by (by rewrite Hj). rewrite Hfull by done.
    done.
  - assert (j < b_next b) by (apply Hstarted; left; by rewrite Hj).
    rewrite lookup_delete_ne by lia.
    destruct (b_running b !! b_next b) eqn:E; [|done].
    assert (b_next b < b_next b); [|lia]. apply Hstarted. left. by rewrite E.
Qed.

(** When a batch returns, its result is the list of the paths whose
    operation called back with an error, in the order the operations
    finished, and every file's operation has finished exactly once. *)
Theorem changeFiles_result (fs : filesystem) (files : list str) (version : str)
    (schedule : list nat) (result : error + list str) (fs' : filesystem)
    (log : list (nat * option error)) :
  run files version (changeFiles fs files (Some version)) schedule
    = Some (Returned result fs' log) →
  result = inr (failed_paths files log) ∧ log.*1 ≡ₚ seq 0 (length files).
Proof.
  intros Hrun.
  exact (run_inv _ _ _ _ _ (changeFiles_inv fs files version) Hrun).
Qed.

End BatchClaims.

Section BatchExamples.
Local Open Scope nat_scope.

Lemma changeFiles_without_version_witness :
  [] = @nil nat
  ∧ changeFiles example_fs [lit "version.js"] None
    = Returned (inl VersionIsUndefined) example_fs [].
Proof.
  apply (proj2 (@changeFiles_without_version example_JSON example_fs
                  [lit "version.js"]) (lit "1.0.0") [] _).
  reflexivity.
Defined.

(** Six files: after the first has been read and written, five are in
    flight again. *)
Lemma changeFiles_at_most_5_in_flight_witness :
  ∃ b, run (H := example_JSON)
         (lit <$> ["a"; "b"; "c"; "d"; "e"; "f"]%string) (lit "1.0.0")
         (changeFiles example_fs (lit <$> ["a"; "b"; "c"; "d"; "e"; "f"]%string)
            (Some (lit "1.0.0")))
         [0; 1]
       = Some (Active b)
       ∧ size (b_running b) ≤ 5.
Proof.
  eexists. split.
  - vm_compute. reflexivity.
  - eapply (@changeFiles_at_most_5_in_flight example_JSON example_fs
              (lit <$> ["a"; "b"; "c"; "d"; "e"; "f"]%string) (lit "1.0.0") [0; 1]).
    vm_compute. reflexivity.
Defined.

Lemma changeFiles_result_witness :
  ∃ fs' log,
    run (H := example_JSON)
      [lit "version.js"; lit "missing"; lit "VERSION"] (lit "2.0.0")
      (changeFiles example_fs [lit "version.js"; lit "missing"; lit "VERSION"]
         (Some (lit "2.0.0")))
      [0; 2; 1; 2; 0]
    = Some (Returned (inr [lit "missing"]) fs' log)
    ∧ log.*1 ≡ₚ seq 0 3.
Proof.
  eexists _, _. split.
  - vm_compute. reflexivity.
  - eapply (@changeFiles_result example_JSON example_fs
              [lit "version.js"; lit "missing"; lit "VERSION"] (lit "2.0.0")
              [0; 2; 1; 2; 0]).
    vm_compute. reflexivity.
Defined.

End BatchExamples.

Section NullJson.
Context `{JSON}.
Local Open Scope nat_scope.

Lemma iter_start_next_reading fs n m k ph :
  b_running (Nat.iter m start_next (mkBatch fs 0 n ∅ [] [])) !! k = Some ph →
  ph = Reading.
Proof.
  induction m as [|m IH]; simpl.
  - by rewrite lookup_empty.
  - destruct (decide (k = b_next (Nat.iter m start_next (mkBatch fs 0 n ∅ [] []))))
      as [->|Hne].
    + rewrite lookup_insert_eq. by intros [= <-].
    + by rewrite lookup_insert_ne.
Qed.

(** The read callback of a [.json] file that holds [null] throws. *)
Lemma change_on_read_null fs this :
  JSON_parse (lit "null") = Some VNull →
  str_eqb (Path.extname (file this)) (lit ".json") = true →
  read_text fs (file this) = inr (lit "null") →
  change_on_read fs this = Uncaught TypeError.
Proof.
  intros Hparse Hext Hread. unfold change_on_read.
  by rewrite readFile_read_text, Hread, Hext, Hparse.
Qed.

Lemma fs_writeFile_other fs path text other :
  path ≠ other →
  read_text (fs_writeFile fs path text).2 other = read_text fs other.
Proof.
  intros Hne. unfold fs_writeFile, read_text, fs_readFile.
  destruct (fs !! path) as [f|]; [destruct (writable f)|]; simpl;
    by rewrite ?lookup_insert_ne.
Qed.

Lemma task_done_stuck files path b fs' k ph outcome :
  batch_inv files b → stuck_on files path b →
  b_running b !! k = Some ph →
  files !! k ≠ Some path →
  read_text fs' path = inr (lit "null") →
  (∃ j, files !! j = Some path) →
  never_returns files path (task_done files b fs' k outcome).
Proof.
  intros Hinv [Hfs Hstuck] Hk Hfile Hfs' [j Hj].
  pose proof (task_done_inv files b fs' k ph outcome Hinv Hk) as Hdone.
  assert (∀ k', files !! k' = Some path →
                k' ∉ (b_log b ++ [(k, outcome)]).*1) as Hlog.
  { intros k' Hk'. rewrite fmap_app, elem_of_app. simpl.
    rewrite list_elem_of_singleton. intros [Hin| ->]; [|done].
    by apply (Hstuck k' Hk'). }
  unfold task_done in *. cbn [b_next b_left b_log b_running b_err b_fs] in *.
  case_bool_decide; [|case_bool_decide].
  - split; [done|]. intros k' Hk'. split; [by apply Hlog|].
    cbn [start_next b_running b_next]. intros text.
    destruct (decide (k' = b_next b)) as [->|Hne].
    + by rewrite lookup_insert_eq.
    + rewrite lookup_insert_ne by done.
      destruct (decide (k' = k)) as [->|Hne']; [done|].
      rewrite lookup_delete_ne by done. by apply (Hstuck k' Hk').
  - simpl in Hdone. destruct Hdone as [_ Hperm].
    apply (Hlog j Hj). rewrite Hperm, elem_of_seq.
    apply lookup_lt_Some in Hj. lia.
  - split; [done|]. intros k' Hk'. split; [by apply Hlog|].
    cbn [b_running]. intros text.
    destruct (decide (k' = k)) as [->|Hne']; [done|].
    rewrite lookup_delete_ne by done. by apply (Hstuck k' Hk').
Qed.

Lemma turn_stuck files version path b k st :
  JSON_parse (lit "null") = Some VNull →
  str_eqb (Path.extname path) (lit ".json") = true →
  (∃ j, files !! j = Some path) →
  batch_inv files b → stuck_on files path b →
  turn files version b k = Some st →
  never_returns files path st.
Proof.
  intros Hparse Hext Hex Hinv Hstuck. unfold turn.
  destruct (b_running b !! k) as [ph|] eqn:Hk; [|done].
  cbn [mbind option_bind]. intros [= <-].
  assert (k < length files) as Hlt.
  { destruct Hinv as [Hnext _ _ _ Hstarted _ _ _ _].
    assert (k < b_next b); [|lia]. apply Hstarted. left. by rewrite Hk. }
  destruct (lookup_lt_is_Some_2 files k Hlt) as [f Hf].
  assert (file (task_Version files version k) = f) as Hfile.
  { unfold task_Version. by rewrite Hf. }
  destruct (decide (f = path)) as [->|Hne].
  - (* an operation on the file itself: it is reading, and its read throws *)
    destruct Hstuck as [Hfs Hstuck'].
    destruct ph as [|text]; [|by destruct (proj2 (Hstuck' k Hf) text)].
    rewrite change_on_read_null; [done|done|by rewrite Hfile|by rewrite Hfile].
  - assert (files !! k ≠ Some path) as Hother by congruence.
    destruct ph as [|text].
    + destruct (change_on_read _ _) as [err|text|e]; [| |done].
      * eapply task_done_stuck; try done. apply Hstuck.
      * destruct Hstuck as [Hfs Hstuck']. split; [done|].
        intros k' Hk'. split; [by apply Hstuck'|]. cbn [b_running]. intros text'.
        destruct (decide (k' = k)) as [->|Hne']; [done|].
        rewrite lookup_insert_ne by done. by apply (Hstuck' k' Hk').
    + unfold change_on_write. rewrite Hfile.
      pose proof (fs_writeFile_other (b_fs b) f text path Hne) as Hkeep.
      destruct (fs_writeFile (b_fs b) f text) as [err fs'].
      eapply task_done_stuck; try done.
      simpl in Hkeep. rewrite Hkeep. apply Hstuck.
Qed.

(** A batch that holds a [.json] file whose text is [null] never calls
    back: the read callback of that file's operation throws, which ends the
    process with the other operations unfinished. *)
Theorem null_json_batch_never_returns (fs : filesystem) (files : list str)
    (version path : str) (schedule : list nat) (st : state) :
  JSON_parse (lit "null") = Some VNull →
  str_eqb (Path.extname path) (lit ".json") = true →
  path ∈ files →
  read_text fs path = inr (lit "null") →
  run files version (changeFiles fs files (Some version)) schedule = Some st →
  (∃ b, st = Active b) ∨ (∃ e b, st = Crashed e b).
Proof.
  intros Hparse Hext [j Hj]%list_elem_of_lookup Hread Hrun.
  assert (state_inv files st ∧ never_returns files path st) as [_ Hnever].
  { revert Hrun. generalize (changeFiles_inv fs files version).
    assert (never_returns files path (changeFiles fs files (Some version))) as H0.
    { unfold changeFiles, eachLimit_start.
      destruct files as [|f l] eqn:E; [done|]. rewrite <- E.
      destruct (iter_start_next fs (length files) (Nat.min limit (length files)))
        as (_ & _ & Hlog & _ & Hfs & _ & _).
      split; [by rewrite Hfs|]. intros k Hk. rewrite Hlog. split.
      - apply not_elem_of_nil.
      - intros text Hw. by apply iter_start_next_reading in Hw. }
    revert H0. generalize (changeFiles fs files (Some version)) as st0.
    induction schedule as [|k schedule IH]; intros st0 Hn0 Hi0; simpl.
    - by intros [= <-].
    - destruct st0 as [b| |]; try done.
      destruct (turn files version b k) as [st1|] eqn:Hturn; [|done].
      cbn [mbind option_bind]. apply IH.
      + eapply turn_stuck; eauto.
      + by eapply turn_inv. }
  destruct st as [b|result fs' log|e b]; [left|done|right]; eauto.
Qed.

End NullJson.

Section NullJsonExample.
Local Open Scope nat_scope.

Lemma null_json_batch_never_returns_witness :
  ∃ st, run (H := example_JSON) [lit "data.json"; lit "version.js"] (lit "2.0.0")
          (changeFiles example_fs [lit "data.json"; lit "version.js"]
             (Some (lit "2.0.0")))
          [1; 1]
        = Some st
        ∧ ((∃ b, st = Active b) ∨ (∃ e b, st = Crashed e b)).
Proof.
  eexists. split.
  - vm_compute. reflexivity.
  - eapply (@null_json_batch_never_returns example_JSON example_fs
              [lit "data.json"; lit "version.js"] (lit "2.0.0") (lit "data.json")
              [1; 1]).
    + reflexivity.
    + reflexivity.
    + apply list_elem_of_here.
    + reflexivity.
    + vm_compute. reflexivity.
Defined.

(** C3, at the failing input.  A batch of [data.json], whose text is
    [null], and [version.js]: when the read of [data.json] calls back,
    [_change] throws a TypeError.  [version.js] has not been rewritten, its
    operation is still waiting for its read, nothing has finished, and no
    further turn is possible: the batch's callback is never called. *)
Lemma changeFiles_crashes_on_null_json :
  ∃ b, run (H := example_JSON) [lit "data.json"; lit "version.js"] (lit "2.0.0")
         (changeFiles example_fs [lit "data.json"; lit "version.js"]
            (Some (lit "2.0.0")))
         [0]
       = Some (Crashed TypeError b)
       ∧ b_fs b = example_fs
       ∧ b_running b !! 1 = Some Reading
       ∧ b_log b = []
       ∧ run (H := example_JSON) [lit "data.json"; lit "version.js"] (lit "2.0.0")
           (Crashed TypeError b) [1]
         = None.
Proof. eexists. repeat split; by vm_compute. Qed.

End NullJsonExample.

Section Termination.
Context `{JSON}.
Local Open Scope nat_scope.

Lemma running_turns_insert running j ph :
  running !! j = None →
  running_turns (<[j := ph]> running) = phase_turns ph + running_turns running.
Proof.
  intros Hj. unfold running_turns.
  rewrite map_fold_insert_L; [done| |done]. intros. lia.
Qed.

Lemma running_turns_delete running j ph :
  running !! j = Some ph →
  running_turns running = phase_turns ph + running_turns (delete j running).
Proof.
  intros Hj. unfold running_turns.
  rewrite (map_fold_delete_L _ _ j ph); [done| |done]. intros. lia.
Qed.

Lemma running_turns_update running j ph ph' :
  running !! j = Some ph →
  running_turns (<[j := ph']> running) + phase_turns ph
  = phase_turns ph' + running_turns running.
Proof.
  intros Hj. rewrite <- insert_delete_eq.
  rewrite running_turns_insert by apply lookup_delete_eq.
  rewrite (running_turns_delete running j ph Hj). lia.
Qed.

Lemma phase_turns_pos ph : 1 ≤ phase_turns ph.
Proof. destruct ph; simpl; lia. Qed.

Lemma iter_start_next_turns fs n m :
  running_turns (b_running (Nat.iter m start_next (mkBatch fs 0 n ∅ [] [])))
  = 2 * m.
Proof.
  induction m as [|m IH]; [done|].
  destruct (iter_start_next fs n m) as (Hn & _ & _ & _ & _ & _ & Hdom).
  simpl. rewrite running_turns_insert.
  - rewrite IH. simpl. lia.
  - rewrite Hn. destruct (_ !! m) eqn:E; [|done].
    assert (m < m); [|lia]. apply Hdom. by rewrite E.
Qed.

Lemma changeFiles_turns_left fs files version :
  turns_left files (changeFiles fs files (Some version)) ≤ 2 * length files.
Proof.
  unfold changeFiles, eachLimit_start. destruct files as [|f l] eqn:E; [simpl; lia|].
  rewrite <- E. cbn [turns_left].
  destruct (iter_start_next fs (length files) (Nat.min limit (length files)))
    as (-> & _).
  rewrite iter_start_next_turns. lia.
Qed.

Lemma task_done_turns files b fs' j ph outcome :
  batch_inv files b → b_running b !! j = Some ph →
  turns_left files (task_done files b fs' j outcome) + phase_turns ph
  ≤ turns_left files (Active b).
Proof.
  intros [Hnext _ _ _ Hstarted _ _ _ _] Hj.
  pose proof (running_turns_delete _ _ _ Hj) as Hdel.
  assert (j < b_next b) by (apply Hstarted; left; by rewrite Hj).
  unfold task_done. cbn [b_next b_left b_log b_running b_err b_fs].
  case_bool_decide; [|case_bool_decide]; unfold start_next;
    cbn [turns_left b_running b_next b_fs b_left b_err b_log].
  - rewrite running_turns_insert.
    + rewrite Hdel. cbn [phase_turns]. lia.
    + rewrite lookup_delete_ne by lia.
      destruct (b_running b !! b_next b) eqn:E; [|done].
      assert (b_next b < b_next b); [|lia]. apply Hstarted. left. by rewrite E.
  - lia.
  - lia.
Qed.

(** Every turn brings the batch at least one turn closer to its end. *)
Lemma turn_turns_left files version b j st :
  batch_inv files b → turn files version b j = Some st →
  S (turns_left files st) ≤ turns_left files (Active b).
Proof.
  intros Hinv. unfold turn.
  destruct (b_running b !! j) as [ph|] eqn:Hj; [|done].
  cbn [mbind option_bind]. intros [= <-].
  pose proof (phase_turns_pos ph) as Hpos.
  destruct ph as [|text].
  - destruct (change_on_read _ _) as [err|text|e].
    + pose proof (task_done_turns files b (b_fs b) j _ (Some err) Hinv Hj). lia.
    + cbn [turns_left b_running b_next].
      pose proof (running_turns_update _ _ _ (Writing text) Hj) as Hup.
      cbn [phase_turns] in Hup. lia.
    + cbn [turns_left]. rewrite (running_turns_delete _ _ _ Hj).
      cbn [phase_turns]. lia.
  - destruct (change_on_write _ _ _) as [err fs'].
    pose proof (task_done_turns files b fs' j _ err Hinv Hj). lia.
Qed.

Lemma run_turns_left files version st schedule st' :
  state_inv files st → run files version st schedule = Some st' →
  length schedule + turns_left files st' ≤ turns_left files st.
Proof.
  revert st. induction schedule as [|j schedule IH]; intros st Hinv; simpl.
  - intros [= <-]. lia.
  - destruct st as [b| |]; try done.
    destruct (turn files version b j) as [st1|] eqn:Hturn; [|done].
    cbn [mbind option_bind]. intros Hrun.
    pose proof (turn_turns_left _ _ _ _ _ Hinv Hturn).
    pose proof (IH st1 (turn_inv _ _ _ _ _ Hinv Hturn) Hrun).
    cbn [length]. lia.
Qed.

(** A batch ends: no run has more than two turns per file, and until the
    batch has returned or crashed some operation is in flight, each of which
    can take its turn. *)
Theorem changeFiles_terminates (fs : filesystem) (files : list str)
    (version : str) (schedule : list nat) (st : state) :
  run files version (changeFiles fs files (Some version)) schedule = Some st →
  length schedule ≤ 2 * length files
  ∧ ∀ b, st = Active b →
      (∃ j, is_Some (b_running b !! j))
      ∧ ∀ j, is_Some (b_running b !! j) →
             ∃ st', run files version (changeFiles fs files (Some version))
                      (schedule ++ [j]) = Some st'.
Proof.
  intros Hrun. split.
  - pose proof (run_turns_left _ _ _ _ _ (changeFiles_inv fs files version) Hrun).
    pose proof (changeFiles_turns_left fs files version). lia.
  - intros b ->.
    pose proof (run_inv _ _ _ _ _ (changeFiles_inv fs files version) Hrun) as Hinv.
    split.
    + destruct (map_choose _ (inv_busy _ _ Hinv)) as (j & ph & Hj).
      exists j. by rewrite Hj.
    + intros j [ph Hj].
      assert (∀ st0, run files version st0 schedule = Some (Active b) →
                ∃ st', run files version st0 (schedule ++ [j]) = Some st') as Hext.
      { clear Hrun. induction schedule as [|k schedule IH]; intros st0; simpl.
        - intros [= ->]. unfold turn. rewrite Hj. simpl. eauto.
        - destruct st0 as [b0| |]; try done.
          destruct (turn files version b0 k) as [st1|]; [|done]. simpl. apply IH. }
      by apply Hext.
Qed.

End Termination.

Section TerminationExample.
Local Open Scope nat_scope.

Lemma changeFiles_terminates_witness :
  length [0; 2; 1; 2; 0] ≤ 2 * length [lit "version.js"; lit "missing"; lit "VERSION"].
Proof.
  eapply (@changeFiles_terminates example_JSON example_fs
            [lit "version.js"; lit "missing"; lit "VERSION"] (lit "2.0.0")
            [0; 2; 1; 2; 0]).
  vm_compute. reflexivity.
Defined.

End TerminationExample.

Section Walkthrough.
Local Open Scope nat_scope.

(** The spec's example of a minor bump: [version.js] holds
    [const VERSION = '1.2.3']; [extract] finds "1.2.3", [inc] with the
    object's own command [minor] makes it "1.3.0", and the change operation
    rewrites the file to [const VERSION = '1.3.0'], the rest of the file
    system as it was.  A plain [VERSION] file that holds " 1.2.3 " gives
    "1.2.3". *)
Theorem minor_bump_walkthrough :
  extract (H := example_JSON) example_fs
    (new_Version (lit "version.js") (Some (mkOptions None (Some (lit "minor")) None)))
  = Normal ((None, Some (lit "1.2.3")),
            set_version
              (new_Version (lit "version.js")
                 (Some (mkOptions None (Some (lit "minor")) None)))
              (Some (lit "1.2.3")))
  ∧ inc (set_version
           (new_Version (lit "version.js")
              (Some (mkOptions None (Some (lit "minor")) None)))
           (Some (lit "1.2.3"))) None
    = Normal (Some (lit "1.3.0"),
              set_version
                (new_Version (lit "version.js")
                   (Some (mkOptions None (Some (lit "minor")) None)))
                (Some (lit "1.3.0")))
  ∧ change (H := example_JSON) example_fs
      (set_version
         (new_Version (lit "version.js")
            (Some (mkOptions None (Some (lit "minor")) None)))
         (Some (lit "1.3.0")))
    = Normal (None,
              <[lit "version.js" := text_file (lit "const VERSION = '1.3.0'")]>
                example_fs)
  ∧ extract (H := example_JSON) example_fs (new_Version (lit "VERSION") None)
    = Normal ((None, Some (lit "1.2.3")),
              set_version (new_Version (lit "VERSION") None) (Some (lit "1.2.3"))).
Proof.
  split; [|split; [|split]].
  - by vm_compute.
  - by vm_compute.
  - by vm_compute.
  - by vm_compute.
Qed.

End Walkthrough.

(** * Further properties of the operations *)

Section ChangeFootprint.
Context `{JSON}.
Local Open Scope nat_scope.

Lemma fs_writeFile_footprint fs path text err fs' :
  fs_writeFile fs path text = (err, fs') →
  (is_Some err → fs' = fs)
  ∧ (∀ other, other ≠ path → fs' !! other = fs !! other)
  ∧ (err = None → ∀ f, fs !! path = Some f →
       writable f = true ∧ fs' !! path = Some (mkFile (Buffer_from text) (readable f) true)).
Proof.
  unfold fs_writeFile. destruct (fs !! path) as [f|] eqn:Hf.
  - destruct (writable f) eqn:Hw; intros [= <- <-].
    + split; [by intros [? ?]|]. split.
      * intros other Hne. by rewrite lookup_insert_ne.
      * intros _ f' [= <-]. by rewrite lookup_insert_eq.
    + split; [done|]. split; [done|]. done.
  - intros [= <- <-]. split; [by intros [? ?]|]. split.
    + intros other Hne. by rewrite lookup_insert_ne.
    + done.
Qed.

Lemma change_on_read_Writes fs this text :
  change_on_read fs this = Writes text →
  ∃ f, fs !! file this = Some f ∧ readable f = true.
Proof.
  unfold change_on_read, readFile, fs_readFile.
  destruct (fs !! file this) as [f|]; [|done].
  destruct (readable f) eqn:Hr; [|done]. intros _. by exists f.
Qed.


End ChangeFootprint.

Section ChangeFootprintExample.
Local Open Scope nat_scope.


End ChangeFootprintExample.

Section JsonFiles.
Context `{JSON}.
Local Open Scope nat_scope.

Lemma get_field_truthy_elem name fields :
  truthy (get_field name fields) = true → name ∈ fields.*1.
Proof.
  induction fields as [|[k w] fields IH]; simpl; [done|].
  unfold str_eqb. case_bool_decide as Hk.
  - intros _. subst k. by left.
  - intros Ht. right. by apply IH.
Qed.

Lemma set_field_keys name v fields :
  name ∈ fields.*1 → (set_field name v fields).*1 = fields.*1.
Proof.
  induction fields as [|[k w] fields IH]; simpl.
  - by intros ?%elem_of_nil.
  - unfold str_eqb. case_bool_decide as Hk; [done|].
    intros [?|Hin]%elem_of_cons; [done|]. simpl. f_equal. by apply IH.
Qed.

Lemma get_set_field name v fields :
  get_field name (set_field name v fields) = v.
Proof.
  induction fields as [|[k w] fields IH]; simpl.
  - unfold str_eqb. by rewrite bool_decide_eq_true_2.
  - unfold str_eqb. case_bool_decide as Hk; simpl; unfold str_eqb.
    + by rewrite bool_decide_eq_true_2.
    + by rewrite bool_decide_eq_false_2.
Qed.

Lemma get_set_field_ne name other v fields :
  other ≠ name →
  get_field other (set_field name v fields) = get_field other fields.
Proof.
  intros Hne. induction fields as [|[k w] fields IH]; simpl.
  - unfold str_eqb. by rewrite bool_decide_eq_false_2.
  - unfold str_eqb. case_bool_decide as Hk; simpl; unfold str_eqb.
    + subst k. by rewrite bool_decide_eq_false_2.
    + by rewrite IH.
Qed.

(** [_change] on the object of a JSON file.  The keys stay the same, in the
    same order, and every property but [version] keeps its value.  A
    [version] with a truthy value is overwritten with the stored version;
    when there is no [version], or its value is falsy (the empty string, 0,
    null, false), the object is left as it is: no [version] is added.  The
    text written is the stringified object and a line feed. *)
Theorem _change_json_object (this : Version) (fields : list (str * value)) :
  ∃ fields',
    _change this (VObject fields) = Normal (VObject fields')
    ∧ writeFile this (VObject fields')
      = Normal (JSON_stringify (VObject fields') ++ [10%N])
    ∧ fields'.*1 = fields.*1
    ∧ (∀ name, name ≠ lit "version" →
               get_field name fields' = get_field name fields)
    ∧ (truthy (get_field (lit "version") fields) = true →
       get_field (lit "version") fields' = of_option (version this))
    ∧ (truthy (get_field (lit "version") fields) = false → fields' = fields).
Proof.
  unfold _change. cbn [typeof_object get_version].
  destruct (truthy (get_field (lit "version") fields)) eqn:Ht.
  - eexists. split; [done|]. split; [done|]. split; [|split; [|split]].
    + apply set_field_keys. by apply get_field_truthy_elem.
    + intros name Hne. by apply get_set_field_ne.
    + intros _. apply get_set_field.
    + done.
  - exists fields. repeat split; done.
Qed.

Lemma set_version_same this v : version this = Some v → set_version this (Some v) = this.
Proof. destruct this. simpl. by intros ->. Qed.

(** Writing a valid version into the object of a JSON file and reading it
    back: [_extract] on the object that [_change] returns finds the stored
    version, reports no error and leaves the stored version as it is. *)
Theorem change_then_extract_json (this : Version) (v : str)
    (fields : list (str * value)) (data' : value) :
  version this = Some v →
  is_Some (Semver.valid (VString v)) →
  truthy (get_field (lit "version") fields) = true →
  _change this (VObject fields) = Normal data' →
  _extract this data' = Normal (None, this).
Proof.
  intros Hv Hvalid Ht. unfold _change. cbn [typeof_object get_version].
  rewrite Ht, Hv. intros [= <-].
  unfold _extract. cbn [typeof_object get_version].
  rewrite get_set_field. unfold setVersion. cbn [of_option].
  destruct Hvalid as [w ->]. by rewrite set_version_same.
Qed.

End JsonFiles.

Section JsonFilesExample.
Local Open Scope nat_scope.

Lemma change_then_extract_json_witness :
  _extract (new_Version (lit "package.json")
              (Some (mkOptions (Some (lit "1.3.0")) None None)))
    (VObject [(lit "name", VString (lit "x")); (lit "version", VString (lit "1.3.0"))])
  = Normal (None, new_Version (lit "package.json")
                    (Some (mkOptions (Some (lit "1.3.0")) None None))).
Proof.
  apply (@change_then_extract_json
           (new_Version (lit "package.json")
              (Some (mkOptions (Some (lit "1.3.0")) None None)))
           (lit "1.3.0")
           [(lit "name", VString (lit "x")); (lit "version", VString (lit "1.2.3"))]).
  - reflexivity.
  - vm_compute. eexists. reflexivity.
  - reflexivity.
  - reflexivity.
Defined.

End JsonFilesExample.

Section IncThrows.
Local Open Scope nat_scope.

Lemma Semver_inc_set sv : Semver.inc sv (lit "set") = Throw (InvalidIncrement (lit "set")).
Proof. reflexivity. Qed.

Lemma Semver_inc_release sv release :
  release ∈ CMDS → release ≠ lit "set" → release ≠ lit "same" →
  ∃ sv', Semver.inc sv release = Normal sv'.
Proof.
  intros Hin Hset Hsame. unfold CMDS in Hin.
  repeat (apply elem_of_cons in Hin as [->|Hin]; [try done; by eexists|]).
  by apply elem_of_nil in Hin.
Qed.

(** [inc] throws in one case only: the version parses and the command, the
    argument or else the object's own, is [set].  The command list admits
    [set], and [semver]'s [inc] rejects it as an invalid increment. *)
Theorem inc_throws_only_on_set (this : Version) (cmd_arg : option str) :
  (∀ e, inc this cmd_arg = Throw e →
        is_Some (Semver.parse (of_option (version this)) true)
        ∧ chosen_cmd this cmd_arg = lit "set"
        ∧ e = InvalidIncrement (lit "set"))
  ∧ (is_Some (Semver.parse (of_option (version this)) true) →
     chosen_cmd this cmd_arg = lit "set" →
     inc this cmd_arg = Throw (InvalidIncrement (lit "set"))).
Proof.
  unfold inc. split.
  - intros e. destruct (Semver.parse _ _) as [sv|]; [|done].
    destruct (negb (str_eqb _ [])); [|done]. cbn [andb].
    case_bool_decide as Hin; [|done].
    unfold str_eqb at 1. case_bool_decide as Hsame; [done|]. cbn [negb].
    destruct (decide (chosen_cmd this cmd_arg = lit "set")) as [Hset|Hset].
    + rewrite Hset, Semver_inc_set. intros [= <-]. by split; [eexists|].
    + destruct (Semver_inc_release sv _ Hin Hset Hsame) as [sv' ->]. done.
  - intros [sv ->] ->. reflexivity.
Qed.

End IncThrows.

Section PlainVersionFiles.
Local Open Scope nat_scope.

Lemma trim_start_id s :
  (∀ c, head s = Some c → is_space c = false) → trim_start s = s.
Proof. destruct s as [|c s]; [done|]. intros Hc. simpl. by rewrite Hc. Qed.

Lemma trim_end_id s :
  (∀ c, last s = Some c → is_space c = false) → trim_end s = s.
Proof.
  intros Hc. unfold trim_end. rewrite trim_start_id.
  - apply reverse_involutive.
  - intros c Hh. apply Hc. by rewrite <- head_reverse.
Qed.

Lemma trim_id s :
  (∀ c, head s = Some c → is_space c = false) →
  (∀ c, last s = Some c → is_space c = false) → trim s = s.
Proof. intros Hh Hl. unfold trim. rewrite trim_start_id by done. by apply trim_end_id. Qed.

Lemma trim_trim s : trim (trim s) = trim s.
Proof.
  destruct (trim_split s) as (l & r & _ & _ & _ & Hh & Hl). by apply trim_id.
Qed.

Lemma trim_length s : length (trim s) ≤ length s.
Proof.
  destruct (trim_split s) as (l & r & Hs & _). rewrite Hs at 2.
  rewrite !length_app. lia.
Qed.

(** [semver.valid] trims its argument, so it accepts a string exactly when
    it accepts the trimmed string. *)
Lemma valid_trim v :
  is_Some (Semver.valid (VString v)) → Semver.valid (VString (trim v)) = Semver.valid (VString v).
Proof.
  unfold Semver.valid, Semver.parse, Semver.SemVer_new.
  pose proof (trim_length v). rewrite trim_trim.
  case_bool_decide; [by intros [? ?]|]. intros _.
  by rewrite bool_decide_eq_false_2 by lia.
Qed.

(** Writing a valid version into a plain version file and reading it back:
    [_change] returns the stored version as the file's text, and [_extract]
    on that text stores the version with the white space at its ends
    trimmed, without an error.  A stored version that neither starts nor
    ends with white space is read back as it is. *)
Lemma plain_round_trip (this : Version) (v : str) (data data' : value) :
  is_VERSION_type this = true →
  typeof_object data = false →
  version this = Some v →
  is_Some (Semver.valid (VString v)) →
  _change this data = Normal data' →
  data' = VString v
  ∧ _extract this data' = Normal (None, set_version this (Some (trim v)))
  ∧ ((∀ c, head v = Some c → is_space c = false) →
     (∀ c, last v = Some c → is_space c = false) →
     _extract this data' = Normal (None, this)).
Proof.
  intros Hty Hobj Hv Hvalid. unfold _change. rewrite Hobj, Hty, Hv.
  intros [= <-]. split; [done|].
  assert (_extract this (VString v)
          = Normal (None, set_version this (Some (trim v)))) as Hex.
  { unfold _extract. cbn [typeof_object]. rewrite Hty. unfold setVersion.
    rewrite valid_trim by done. by destruct Hvalid as [w ->]. }
  split; [done|]. intros Hh Hl. rewrite Hex, trim_id by done.
  by rewrite set_version_same.
Qed.

End PlainVersionFiles.


Section FirstOccurrence.
Context `{JSON}.
Local Open Scope nat_scope.

(** The first occurrence is the match [exec] finds. *)
Lemma first_occurrence_find s i j k :
  first_occurrence s i j k → find_version s = Some (i, (j, k)).
Proof.
  intros [Hocc Hfirst].
  destruct (find_version s) as [[i0 [j0 k0]]|] eqn:Hfind.
  - apply find_version_Some in Hfind as [Hocc0 Hfirst0].
    specialize (Hfirst _ _ _ Hocc0). specialize (Hfirst0 _ _ _ Hocc).
    assert (i0 = i ∧ j0 = j ∧ k0 = k) as (-> & -> & ->) by lia. done.
  - exfalso. by eapply find_version_None.
Qed.

Lemma take_substring (s : str) i j : i ≤ j → take i s ++ substring s i j = take j s.
Proof.
  intros Hij. unfold substring.
  replace j with (i + (j - i)) at 2 by lia. by rewrite take_take_drop.
Qed.

(** The change operation on an object without a stored version.  For a
    pattern-embedded file whose text holds the pattern, the token of the
    first occurrence is overwritten with the word [undefined], since the
    replacement is ['$1' + this.version]; the operation reports what the
    write reports. *)
Theorem change_without_version (fs : filesystem) (this : Version) (s : str)
    (i j k : nat) :
  pattern_embedded this →
  version this = None →
  read_text fs (file this) = inr s →
  first_occurrence s i j k →
  _change this (VString s)
  = Normal (VString (take j s ++ lit "undefined" ++ drop k s))
  ∧ change fs this
    = Normal (fs_writeFile fs (file this)
                (take j s ++ lit "undefined" ++ drop k s)).
Proof.
  intros [Hext Hty] Hv Hread Hfirst.
  assert (i ≤ j) as Hij.
  { destruct Hfirst as [[(? & ? & ?) _ _ _ _ _] _]. lia. }
  pose proof (_change_pattern this s Hty) as Hch.
  rewrite (first_occurrence_find _ _ _ _ Hfirst), Hv in Hch.
  assert (replacement_text s i j k (prim_to_string (of_option None))
          = lit "undefined") as Htext.
  { unfold replacement_text. apply get_substitution_plain.
    apply (bool_decide_unpack _). by vm_compute. }
  rewrite Htext, app_assoc, take_substring in Hch by done.
  split; [done|]. unfold change, change_on_read.
  by rewrite (readFile_text _ _ _ Hext Hread), Hch.
Qed.

End FirstOccurrence.

Section RunsByLookup.
Local Open Scope nat_scope.

Lemma span_lookup p (l : str) n :
  span p l = n ↔
  (∀ m, m < n → ∃ c, l !! m = Some c ∧ p c = true)
  ∧ (∀ c, l !! n = Some c → p c = false).
Proof.
  revert n. induction l as [|d l IH]; intros n; simpl.
  - split.
    + intros <-. split; [lia|done].
    + intros [Hall _]. destruct n as [|n]; [done|].
      destruct (Hall 0) as (c & Hc & _); [lia|done].
  - destruct (p d) eqn:Hd.
    + split.
      * intros <-. destruct (proj1 (IH _) eq_refl) as [Hall Hstop].
        split; [|done]. intros [|m] Hm; [by exists d|]. apply Hall. lia.
      * intros [Hall Hstop]. destruct n as [|n].
        { specialize (Hstop d eq_refl). congruence. }
        f_equal. apply IH. split; [|done]. intros m Hm. apply (Hall (S m)). lia.
    + split.
      * intros <-. split; [lia|]. by intros c [= <-].
      * intros [Hall _]. destruct n as [|n]; [done|].
        destruct (Hall 0) as (c & [= <-] & Hc); [lia|congruence].
Qed.

Lemma run_end_lookup p s e e1 :
  run_end p s e = Some e1 ↔
  e < e1
  ∧ (∀ m, e ≤ m < e1 → ∃ c, s !! m = Some c ∧ p c = true)
  ∧ (∀ c, s !! e1 = Some c → p c = false).
Proof.
  unfold run_end. split.
  - destruct (span p (drop e s)) as [|n] eqn:Hn; [done|]. intros [= <-].
    apply span_lookup in Hn as [Hall Hstop]. split; [lia|]. split.
    + intros m Hm. destruct (Hall (m - e)) as (c & Hc & Hp); [lia|].
      rewrite lookup_drop in Hc. replace (e + (m - e)) with m in Hc by lia. eauto.
    + intros c Hc. apply Hstop. by rewrite lookup_drop.
  - intros (Hlt & Hall & Hstop).
    assert (span p (drop e s) = e1 - e) as ->.
    { apply span_lookup. split.
      - intros m Hm. rewrite lookup_drop. apply Hall. lia.
      - intros c. rewrite lookup_drop. replace (e + (e1 - e)) with e1 by lia.
        apply Hstop. }
    destruct (e1 - e) as [|n] eqn:Hn; [lia|]. f_equal. lia.
Qed.

(** A run of the changed text seen from the old text, when both agree
    below [j] and the old text has a run that starts at [j]. *)
Lemma run_end_transfer p (s s' : str) j e e1 f1 :
  (∀ m, m < j → s' !! m = s !! m) → e ≤ j →
  run_end p s' e = Some e1 → run_end p s j = Some f1 →
  (e1 < j ∧ run_end p s e = Some e1) ∨ (j ≤ e1 ∧ run_end p s e = Some f1).
Proof.
  intros Hagree Hej (Hlt' & Hall' & Hstop')%run_end_lookup
    (Hlt & Hall & Hstop)%run_end_lookup.
  destruct (decide (e1 < j)) as [Hbefore|Hreach].
  - left. split; [done|]. apply run_end_lookup. split; [done|]. split.
    + intros m Hm. rewrite <- Hagree by lia. by apply Hall'.
    + intros c. rewrite <- Hagree by lia. apply Hstop'.
  - right. split; [lia|]. apply run_end_lookup. split; [lia|]. split; [|done].
    intros m Hm. destruct (decide (m < j)) as [Hmj|Hmj].
    + rewrite <- Hagree by lia. apply Hall'. lia.
    + apply Hall. lia.
Qed.

Lemma token_end_parts s j k :
  token_end s j = Some k ↔
  ∃ e1 e2 e3,
    run_end is_digit s j = Some e1 ∧ s !! e1 = Some 46%N
    ∧ run_end is_digit s (S e1) = Some e2 ∧ s !! e2 = Some 46%N
    ∧ run_end is_digit s (S e2) = Some e3 ∧ k = suffix_end s e3.
Proof.
  unfold token_end. split.
  - intros Hk.
    destruct (run_end is_digit s j) as [e1|] eqn:H1; [simpl in Hk|done].
    case_bool_decide as Hd1; [|done].
    destruct (run_end is_digit s (S e1)) as [e2|] eqn:H2; [simpl in Hk|done].
    case_bool_decide as Hd2; [|done].
    destruct (run_end is_digit s (S e2)) as [e3|] eqn:H3; [simpl in Hk|done].
    injection Hk as <-. by exists e1, e2, e3.
  - intros (e1 & e2 & e3 & -> & Hd1 & H2 & Hd2 & H3 & ->).
    cbn [mbind option_bind]. rewrite bool_decide_eq_true_2 by done.
    rewrite H2. cbn [mbind option_bind]. rewrite bool_decide_eq_true_2 by done.
    by rewrite H3.
Qed.

(** A token that starts in the changed text before [j] starts in the old
    text too, when the old text holds a token at [j]. *)
Lemma token_end_transfer (s s' : str) j j' k k' :
  (∀ m, m < j → s' !! m = s !! m) → j' < j →
  token_end s j = Some k → token_end s' j' = Some k' →
  is_Some (token_end s j').
Proof.
  intros Hagree Hj' (f1 & f2 & f3 & Hf1 & Hg1 & Hf2 & Hg2 & Hf3 & _)%token_end_parts
    (e1 & e2 & e3 & He1 & Hd1 & He2 & Hd2 & He3 & _)%token_end_parts.
  destruct (run_end_transfer is_digit s s' j j' e1 f1 Hagree ltac:(lia) He1 Hf1)
    as [[Hlt1 Hr1]|[_ Hr1]].
  2:{ eexists. apply token_end_parts. by exists f1, f2, f3. }
  rewrite Hagree in Hd1 by done.
  destruct (run_end_transfer is_digit s s' j (S e1) e2 f1 Hagree ltac:(lia) He2 Hf1)
    as [[Hlt2 Hr2]|[_ Hr2]].
  2:{ eexists. apply token_end_parts. by exists e1, f1, f2. }
  rewrite Hagree in Hd2 by done.
  destruct (run_end_transfer is_digit s s' j (S e2) e3 f1 Hagree ltac:(lia) He3 Hf1)
    as [[Hlt3 Hr3]|[_ Hr3]].
  2:{ eexists. apply token_end_parts. by exists e1, e2, f1. }
  eexists. apply token_end_parts. by exists e1, e2, e3.
Qed.

End RunsByLookup.

Section ChangedText.
Local Open Scope nat_scope.

Lemma lookup_substring (s : str) a b m :
  substring s a b !! m = if decide (m < b - a) then s !! (a + m) else None.
Proof.
  unfold substring. case_decide.
  - rewrite lookup_take_lt by done. apply lookup_drop.
  - apply lookup_take_ge. lia.
Qed.

Lemma substring_agree (s s' : str) j a b :
  (∀ m, m < j → s' !! m = s !! m) → b ≤ j → substring s' a b = substring s a b.
Proof.
  intros Hagree Hb. apply list_eq. intros m. rewrite !lookup_substring.
  case_decide; [|done]. apply Hagree. lia.
Qed.

Lemma at_word_boundary_agree (s s' : str) j e :
  (∀ m, m < j → s' !! m = s !! m) → is_word_at s' j = is_word_at s j → e ≤ j →
  at_word_boundary s' e = at_word_boundary s e.
Proof.
  intros Hagree Hj He.
  assert (∀ m, m ≤ j → is_word_at s' m = is_word_at s m) as Hw.
  { intros m Hm. destruct (decide (m = j)) as [->|Hne]; [done|].
    unfold is_word_at. by rewrite Hagree by lia. }
  unfold at_word_boundary. rewrite (Hw e) by done.
  destruct e as [|e]; [done|]. by rewrite Hw by lia.
Qed.

(** An occurrence of the changed text whose token starts before [j] is an
    occurrence of the old text, up to the end of its token. *)
Lemma occurrence_before (s s' : str) j k i' j' k' :
  (∀ m, m < j → s' !! m = s !! m) → is_word_at s' j = is_word_at s j →
  token_end s j = Some k →
  occurrence s' i' j' k' → j' < j → ∃ k'', occurrence s i' j' k''.
Proof.
  intros Hagree Hw Htok [(Hij & Hjk & Hk) Hword Hl Hr Hbet Hshape] Hlt.
  destruct (token_end_max _ _ _ Hjk Hk Hshape) as (k0 & Hk0 & _).
  destruct (token_end_transfer _ _ _ _ _ _ Hagree Hlt Htok Hk0) as [k'' Hk''].
  exists k''. destruct (token_end_sound _ _ _ Hk'') as (? & ? & ?).
  split; [lia|..|done].
  - rewrite <- Hword. symmetry. apply (substring_agree _ _ j); [done|lia].
  - rewrite <- Hl. symmetry. apply (at_word_boundary_agree _ _ j); [done..|lia].
  - rewrite <- Hr. symmetry. apply (at_word_boundary_agree _ _ j); [done..|lia].
  - rewrite <- (substring_agree s s' j) by (done || lia). done.
Qed.

(** An occurrence of the changed text that starts early enough and whose
    token starts at [j] or later gives an occurrence of the old text with
    the old token. *)
Lemma occurrence_at (s s' : str) i j k i' j' k' :
  (∀ m, m < j → s' !! m = s !! m) → is_word_at s' j = is_word_at s j →
  occurrence s i j k → occurrence s' i' j' k' → i' + 7 ≤ j → j ≤ j' →
  occurrence s i' j k.
Proof.
  intros Hagree Hw [(Hij0 & Hjk0 & Hk0) _ _ _ _ Hshape0]
    [(Hij & Hjk & Hk) Hword Hl Hr Hbet Hshape] Hi' Hj'.
  split; [lia|..|done].
  - rewrite <- Hword. symmetry. apply (substring_agree _ _ j); [done|lia].
  - rewrite <- Hl. symmetry. apply (at_word_boundary_agree _ _ j); [done..|lia].
  - rewrite <- Hr. symmetry. apply (at_word_boundary_agree _ _ j); [done..|lia].
  - rewrite (substring_split s' (i' + 7) j j'), Forall_app in Hbet by lia.
    rewrite <- (substring_agree s s' j) by (done || lia). apply Hbet.
Qed.

Lemma occurrence_token s i j k k0 :
  occurrence s i j k → j ≤ k0 → k0 ≤ length s →
  token_shape (substring s j k0) → occurrence s i j k0.
Proof. intros [(? & ? & ?) ? ? ? ? _] ? ? ?. split; [lia|done..]. Qed.

(** The token of the first occurrence is the longest one at its place. *)
Lemma first_occurrence_token_end s i j k :
  first_occurrence s i j k → token_end s j = Some k.
Proof.
  intros [Hocc Hmin]. pose proof Hocc as [(? & ? & ?) _ _ _ _ Hshape].
  destruct (token_end_max s j k) as (k0 & Hk0 & Hle); [lia..|done|].
  destruct (token_end_sound _ _ _ Hk0) as (? & ? & Hshape0).
  assert (occurrence s i j k0) as Hocc0 by (apply (occurrence_token s i j k); [done|lia..|done]).
  pose proof (Hmin _ _ _ Hocc0).
  rewrite Hk0. f_equal. lia.
Qed.

Lemma digits_no_dash w : Forall (fun c => is_digit c = true) w → 45%N ∉ w.
Proof.
  intros Hall Hin. rewrite Forall_forall in Hall. by specialize (Hall _ Hin).
Qed.

Lemma run_end_stop p s e e1 : run_end p s e = Some e1 → span p (drop e1 s) = 0.
Proof.
  intros (_ & _ & Hstop)%run_end_lookup. apply span_lookup. split; [lia|].
  intros c. rewrite lookup_drop, Nat.add_0_r. apply Hstop.
Qed.

(** Where the digits and dots of a token end and its suffix starts. *)
Lemma token_end_split s j k :
  token_end s j = Some k →
  ∃ e3, j < e3 ∧ e3 ≤ k ∧ k ≤ length s ∧ k = suffix_end s e3
        ∧ (45%N ∉ substring s j e3) ∧ span is_digit (drop e3 s) = 0.
Proof.
  intros (e1 & e2 & e3 & H1 & Hd1 & H2 & Hd2 & H3 & Hk)%token_end_parts.
  pose proof (run_end_stop _ _ _ _ H3) as Hstop.
  apply run_end_spec in H1 as (? & ? & _ & Ha & _).
  apply run_end_spec in H2 as (? & ? & _ & Hb & _).
  apply run_end_spec in H3 as (? & ? & _ & Hc & _).
  destruct (suffix_end_spec s e3) as (? & ? & _); [lia|].
  exists e3. split; [lia|]. split; [lia|]. split; [lia|]. split; [done|].
  split; [|done].
  rewrite (substring_split s j e1) by lia.
  rewrite (substring_split s e1 (S e1)) by lia.
  rewrite (substring_split s (S e1) e2) by lia.
  rewrite (substring_split s e2 (S e2)) by lia.
  rewrite (substring_one _ _ _ Hd1), (substring_one _ _ _ Hd2).
  rewrite !not_elem_of_app. repeat split; try by apply digits_no_dash.
  - by intros [=]%list_elem_of_singleton.
  - by intros [=]%list_elem_of_singleton.
Qed.

Lemma suffix_end_cases s e k :
  k = suffix_end s e →
  (k = e ∧ (s !! e = Some 45%N → span is_alnum (drop (S e) s) = 0))
  ∨ (S e < k ∧ s !! e = Some 45%N ∧ run_end is_alnum s (S e) = Some k).
Proof.
  unfold suffix_end. case_bool_decide as Hd; [|by left].
  destruct (run_end is_alnum s (S e)) as [r|] eqn:Hrun; simpl; intros ->.
  - right. pose proof (run_end_spec _ _ _ _ Hrun). split; [lia|done].
  - left. split; [done|]. intros _. unfold run_end in Hrun.
    by destruct (span is_alnum (drop (S e) s)).
Qed.

End ChangedText.

Section RoundTrip.
Context `{JSON}.
Local Open Scope nat_scope.

Lemma changed_agree (s v : str) j k m :
  j ≤ length s → m < j → (take j s ++ v ++ drop k s) !! m = s !! m.
Proof.
  intros Hj Hm. rewrite lookup_app_l by (rewrite length_take; lia).
  by apply lookup_take_lt.
Qed.

Lemma changed_drop (s v : str) j k :
  j ≤ length s → drop j (take j s ++ v ++ drop k s) = v ++ drop k s.
Proof. intros Hj. apply drop_app_length'. rewrite length_take. lia. Qed.

Lemma lookup_drop_0 (s : str) e : drop e s !! 0 = s !! e.
Proof. by rewrite lookup_drop, Nat.add_0_r. Qed.

(** The suffix of the new token in the changed text ends where the version
    ends, when the old token and the version both have a suffix or both
    have none. *)
Lemma suffix_end_changed (s s' x : str) j k e3 E3 :
  e3 ≤ k → j < e3 → k = suffix_end s e3 →
  45%N ∉ substring s j e3 → span is_digit (drop e3 s) = 0 →
  prerelease_suffix x →
  (x ≠ [] ↔ 45%N ∈ substring s j k) →
  drop E3 s' = x ++ drop k s →
  span is_digit (x ++ drop k s) = 0 ∧ suffix_end s' E3 = E3 + length x.
Proof.
  intros He3k Hje3 Hsuf Hnodash Hstop Hx Hdash Hd.
  destruct Hx as [->|(p & -> & Hnp & Hp)].
  - assert (45%N ∉ substring s j k) as Hno by (intros Hin; by apply Hdash in Hin).
    destruct (suffix_end_cases _ _ _ Hsuf) as [[-> Hnone]|(Hlt & Hd45 & _)].
    2:{ exfalso. apply Hno. apply (list_elem_of_lookup_2 _ (e3 - j)).
        rewrite lookup_substring. case_decide; [|lia].
        by replace (j + (e3 - j)) with e3 by lia. }
    simpl in *. split; [done|]. rewrite Nat.add_0_r. unfold suffix_end.
    assert (s' !! E3 = s !! e3) as Hhead.
    { by rewrite <- (lookup_drop_0 s'), Hd, lookup_drop_0. }
    rewrite Hhead. case_bool_decide as H45; [|done].
    assert (run_end is_alnum s' (S E3) = None) as ->; [|done].
    unfold run_end. replace (drop (S E3) s') with (drop (S e3) s).
    { by rewrite Hnone. }
    replace (S E3) with (E3 + 1) by lia. replace (S e3) with (e3 + 1) by lia.
    by rewrite <- !drop_drop, Hd.
  - assert (45%N ∈ substring s j k) as Hin by (by apply Hdash).
    rewrite (substring_split s j e3 k), elem_of_app in Hin by lia.
    destruct Hin as [Hin|Hin]; [done|].
    destruct (suffix_end_cases _ _ _ Hsuf) as [[-> _]|(Hlt & Hd45 & Hrun)].
    { unfold substring in Hin. rewrite Nat.sub_diag in Hin.
      by apply elem_of_nil in Hin. }
    split; [done|]. unfold suffix_end.
    rewrite (lookup_drop_head _ _ _ _ Hd), bool_decide_eq_true_2 by done.
    apply (drop_app_at _ _ [45%N]) in Hd. simpl length in Hd.
    replace (E3 + 1) with (S E3) in Hd by lia.
    rewrite (run_end_app _ _ _ _ _ Hd Hnp Hp).
    rewrite (run_end_stop _ _ _ _ Hrun). simpl. lia.
Qed.

Lemma token_shape_dash a b c x :
  Forall (fun u => is_digit u = true) a → Forall (fun u => is_digit u = true) b →
  Forall (fun u => is_digit u = true) c → prerelease_suffix x →
  45%N ∈ a ++ [46%N] ++ b ++ [46%N] ++ c ++ x ↔ x ≠ [].
Proof.
  intros Ha Hb Hc Hx. rewrite !elem_of_app, !list_elem_of_singleton. split.
  - intros [Hin|[?|[Hin|[?|[Hin|Hin]]]]]; try done;
      try (by apply digits_no_dash in Hin).
    intros ->. by apply elem_of_nil in Hin.
  - intros Hne. do 5 right. destruct Hx as [->|(p & -> & _)]; [done|]. by left.
Qed.

(** The version written in place of the old token is the token the pattern
    reads at that place. *)
Lemma token_end_changed (s v : str) j k :
  token_end s j = Some k → token_shape v →
  (45%N ∈ v ↔ 45%N ∈ substring s j k) →
  token_end (take j s ++ v ++ drop k s) j = Some (j + length v).
Proof.
  intros Htok (a & b & c & x & Hv & [Hna Ha] & [Hnb Hb] & [Hnc Hc] & Hx) Hdash.
  destruct (token_end_split _ _ _ Htok)
    as (e3 & Hje3 & He3k & Hk & Hsuf & Hnodash & Hstop).
  rewrite Hv, token_shape_dash in Hdash by done.
  assert (length v = length a + 1 + length b + 1 + length c + length x) as Hlen.
  { rewrite Hv, !length_app. simpl. lia. }
  set (s' := take j s ++ v ++ drop k s).
  assert (drop j s' = a ++ 46%N :: b ++ 46%N :: c ++ x ++ drop k s) as Hd.
  { unfold s'. rewrite changed_drop by lia. rewrite Hv. by rewrite <- !app_assoc. }
  unfold token_end.
  rewrite (run_end_app _ _ _ _ _ Hd Hna Ha). simpl span. rewrite Nat.add_0_r.
  apply drop_app_at in Hd. cbn [mbind option_bind].
  rewrite (lookup_drop_head _ _ _ _ Hd), bool_decide_eq_true_2 by done.
  apply (drop_app_at _ _ [46%N]) in Hd. simpl length in Hd.
  replace (j + length a + 1) with (S (j + length a)) in Hd by lia.
  rewrite (run_end_app _ _ _ _ _ Hd Hnb Hb). simpl span. rewrite Nat.add_0_r.
  apply drop_app_at in Hd. cbn [mbind option_bind].
  rewrite (lookup_drop_head _ _ _ _ Hd), bool_decide_eq_true_2 by done.
  apply (drop_app_at _ _ [46%N]) in Hd. simpl length in Hd.
  replace (S (j + length a) + length b + 1)
    with (S (S (j + length a) + length b)) in Hd by lia.
  rewrite (run_end_app _ _ _ _ _ Hd Hnc Hc). cbn [mbind option_bind].
  apply drop_app_at in Hd.
  destruct (suffix_end_changed s s' x j k e3 _ He3k Hje3 Hsuf Hnodash Hstop Hx Hdash Hd)
    as [Hsp Hse].
  rewrite Hsp, Nat.add_0_r, Hse. f_equal. lia.
Qed.

Lemma token_end_head s j k :
  token_end s j = Some k → is_word_at s j = true.
Proof.
  intros (e1 & _ & _ & (Hlt & Hall & _)%run_end_lookup & _)%token_end_parts.
  destruct (Hall j) as (c & Hc & Hdig); [lia|].
  unfold is_word_at. rewrite Hc. unfold is_word, is_alnum. rewrite Hdig.
  by rewrite orb_true_r.
Qed.

(** The first occurrence of the changed text is where the first occurrence
    of the old text was, with the version as its token. *)
Lemma first_occurrence_changed (s v : str) i j k :
  first_occurrence s i j k → token_shape v →
  (45%N ∈ v ↔ 45%N ∈ substring s j k) →
  first_occurrence (take j s ++ v ++ drop k s) i j (j + length v).
Proof.
  intros Hfirst Hshape Hdash.
  pose proof (first_occurrence_token_end _ _ _ _ Hfirst) as Htok.
  pose proof (token_end_changed _ _ _ _ Htok Hshape Hdash) as Htok'.
  destruct Hfirst as [Hocc Hmin].
  pose proof Hocc as [(Hij & Hjk & Hk) Hword Hl Hr Hbet _].
  set (s' := take j s ++ v ++ drop k s) in *.
  assert (∀ m, m < j → s' !! m = s !! m) as Hagree.
  { intros m Hm. apply changed_agree; lia. }
  assert (is_word_at s' j = is_word_at s j) as Hw.
  { by rewrite (token_end_head _ _ _ Htok), (token_end_head _ _ _ Htok'). }
  destruct (token_end_sound _ _ _ Htok') as (_ & Hk' & Hshape').
  split.
  - split; [lia|..|done].
    + rewrite <- Hword. apply (substring_agree _ _ j); [done|lia].
    + rewrite <- Hl. apply (at_word_boundary_agree _ _ j); [done..|lia].
    + rewrite <- Hr. apply (at_word_boundary_agree _ _ j); [done..|lia].
    + by rewrite (substring_agree s s' j) by (done || lia).
  - intros i' j' k' Hocc'.
    destruct (decide (j' < j)) as [Hlt|Hge].
    { destruct (occurrence_before _ _ _ _ _ _ _ Hagree Hw Htok Hocc' Hlt)
        as [k'' Hocc''].
      specialize (Hmin _ _ _ Hocc''). lia. }
    destruct (decide (i' < i)) as [Hlti|Hgei].
    { pose proof (occurrence_at _ _ _ _ _ _ _ _ Hagree Hw Hocc Hocc'
                    ltac:(lia) ltac:(lia)) as Hocc''.
      specialize (Hmin _ _ _ Hocc''). lia. }
    destruct (decide (i = i' ∧ j = j')) as [[<- <-]|Hne]; [|lia].
    right. right. split; [done|]. split; [done|].
    destruct Hocc' as [(? & ? & ?) _ _ _ _ Hshape''].
    destruct (token_end_max s' j k') as (k0 & Hk0 & Hle); [lia..|done|].
    rewrite Htok' in Hk0. injection Hk0 as <-. done.
Qed.

(** Writing a version into a pattern-embedded text and reading it back.
    Let the version be valid and of the shape the pattern reads
    ([\d+\.\d+\.\d+] with an optional [-alphanumeric] suffix), and let it
    have a suffix exactly when the old token has one.  Then the change puts
    the version where the token of the first occurrence was, the first
    occurrence of the new text is at the same place with the version as its
    token, [_extract] on the new text finds the version and reports no
    error, and a second change leaves the new text as it is. *)
Lemma pattern_round_trip (this : Version) (v s : str) (i j k : nat) :
  pattern_embedded this →
  version this = Some v →
  is_Some (Semver.valid (VString v)) →
  token_shape v →
  first_occurrence s i j k →
  (45%N ∈ v ↔ 45%N ∈ substring s j k) →
  _change this (VString s) = Normal (VString (take j s ++ v ++ drop k s))
  ∧ first_occurrence (take j s ++ v ++ drop k s) i j (j + length v)
  ∧ _extract this (VString (take j s ++ v ++ drop k s)) = Normal (None, this)
  ∧ _change this (VString (take j s ++ v ++ drop k s))
    = Normal (VString (take j s ++ v ++ drop k s)).
Proof.
  intros [Hext Hty] Hv Hvalid Hshape Hfirst Hdash.
  pose proof (first_occurrence_changed _ _ _ _ _ Hfirst Hshape Hdash) as Hfirst'.
  pose proof Hfirst as [[(Hij & Hjk & Hk) _ _ _ _ _] _].
  assert (∀ t i j k, first_occurrence t i j k →
            _change this (VString t) = Normal (VString (take j t ++ v ++ drop k t)))
    as Hchange.
  { intros t i0 j0 k0 Ht. pose proof Ht as [[(? & ? & ?) _ _ _ _ _] _].
    rewrite (_change_pattern this t Hty), (first_occurrence_find _ _ _ _ Ht), Hv.
    rewrite replacement_text_valid by done.
    by rewrite app_assoc, take_substring by lia. }
  set (s' := take j s ++ v ++ drop k s) in *.
  assert (take j s' = take j s) as Htake.
  { unfold s'. apply take_app_length'. rewrite length_take. lia. }
  assert (drop j s' = v ++ drop k s) as Hdrop by (apply changed_drop; lia).
  split; [by apply (Hchange s i)|]. split; [done|]. split.
  - rewrite (_extract_pattern this s' Hty), (first_occurrence_find _ _ _ _ Hfirst').
    assert (substring s' j (j + length v) = v) as ->.
    { unfold substring. rewrite Hdrop. apply take_app_length'. lia. }
    unfold setVersion. destruct Hvalid as [w ->]. by rewrite set_version_same.
  - rewrite (Hchange s' i j (j + length v) Hfirst'), Htake.
    by rewrite <- drop_drop, Hdrop, drop_app_length.
Qed.

End RoundTrip.

Section BatchFrame.
Context `{JSON}.
Local Open Scope nat_scope.

Lemma fewer_writing_refl running : fewer_writing running running.
Proof. by intros j text. Qed.

Lemma fewer_writing_delete running j : fewer_writing (delete j running) running.
Proof. intros k text. rewrite lookup_delete_Some. by intros [_ ?]. Qed.

Lemma fewer_writing_start running n :
  fewer_writing (<[n := Reading]> running) running.
Proof.
  intros k text. destruct (decide (k = n)) as [->|Hne].
  - by rewrite lookup_insert_eq.
  - by rewrite lookup_insert_ne.
Qed.

(** What the end of an operation leaves behind: the file system handed
    over, one more entry in the log, and no new operation about to write. *)
Lemma task_done_view files b fs' j err :
  fs_of (task_done files b fs' j err) = fs'
  ∧ log_of (task_done files b fs' j err) = b_log b ++ [(j, err)]
  ∧ fewer_writing (running_of (task_done files b fs' j err)) (delete j (b_running b)).
Proof.
  unfold task_done. cbn [b_next b_left b_log b_running b_fs].
  repeat case_bool_decide; cbn [fs_of log_of running_of start_next b_fs b_log b_running b_next].
  - split; [done|]. split; [done|]. apply fewer_writing_start.
  - split; [done|]. split; [done|]. by intros k text; rewrite lookup_empty.
  - split; [done|]. split; [done|]. apply fewer_writing_refl.
Qed.

Lemma same_files_refl fs : same_files fs fs.
Proof. intros path. by destruct (fs !! path). Qed.

Lemma same_files_write fs0 fs path text err fs' :
  same_files fs0 fs → is_Some (fs !! path) →
  fs_writeFile fs path text = (err, fs') → same_files fs0 fs'.
Proof.
  intros Hsame [f Hf] Hw other. specialize (Hsame other).
  unfold fs_writeFile in Hw. rewrite Hf in Hw.
  destruct (writable f) eqn:Hwr; injection Hw as <- <-; [|done].
  destruct (decide (other = path)) as [->|Hne].
  - rewrite lookup_insert_eq. rewrite Hf in Hsame.
    destruct (fs0 !! path) as [f0|]; [|done]. destruct Hsame as [Hr Hw'].
    simpl. split; congruence.
  - by rewrite lookup_insert_ne.
Qed.

Lemma fs_writeFile_is_Some fs path text other :
  is_Some (fs !! other) → is_Some ((fs_writeFile fs path text).2 !! other).
Proof.
  intros Hother. unfold fs_writeFile.
  destruct (fs !! path) as [f|]; [destruct (writable f)|]; simpl; try done;
    (destruct (decide (other = path)) as [->|Hne];
     [by rewrite lookup_insert_eq|by rewrite lookup_insert_ne]).
Qed.

Lemma running_listed files b j ph path :
  batch_inv files b → b_running b !! j = Some ph →
  default [] (files !! j) = path → path ∈ files.
Proof.
  intros Hinv Hj <-.
  assert (j < b_next b) as Hlt by (apply (inv_started _ _ Hinv); left; by rewrite Hj).
  pose proof (inv_next _ _ Hinv).
  destruct (lookup_lt_is_Some_2 files j) as [path Hpath]; [lia|].
  rewrite Hpath. simpl. by eapply list_elem_of_lookup_2.
Qed.

Lemma turn_frame fs0 files version b j st :
  batch_inv files b → frame_ok fs0 files (Active b) →
  turn files version b j = Some st → frame_ok fs0 files st.
Proof.
  intros Hinv (Hout & Hsame & Hwriting). unfold turn. cbn [fs_of running_of] in *.
  destruct (b_running b !! j) as [ph|] eqn:Hj; [|done].
  cbn [mbind option_bind]. intros [= <-].
  destruct ph as [|text].
  - destruct (change_on_read _ _) as [err|text|e] eqn:Hread.
    + destruct (task_done_view files b (b_fs b) j (Some err)) as (Hfs & _ & Hfew).
      unfold frame_ok. rewrite Hfs. split; [done|]. split; [done|]. intros k text Hk.
      apply Hfew, lookup_delete_Some in Hk as [_ Hk]. by eapply Hwriting.
    + split; [done|]. split; [done|]. cbn [fs_of running_of b_fs b_running].
      intros k text' Hk. destruct (decide (k = j)) as [->|Hne].
      * destruct (change_on_read_Writes _ _ _ Hread) as (f & Hf & _). by exists f.
      * rewrite lookup_insert_ne in Hk by done. by eapply Hwriting.
    + done.
  - unfold change_on_write. cbn [file task_Version new_Version].
    destruct (fs_writeFile _ _ _) as [err fs'] eqn:Hw.
    destruct (task_done_view files b fs' j err) as (Hfs & _ & Hfew).
    unfold frame_ok. rewrite Hfs.
    pose proof (Hwriting _ _ Hj) as Hfile.
    assert (fs' = (fs_writeFile (b_fs b) (default [] (files !! j)) text).2) as Hfs'
      by (by rewrite Hw).
    split; [|split].
    + intros path Hpath. rewrite <- Hout by done.
      destruct (fs_writeFile_footprint _ _ _ _ _ Hw) as (_ & Hother & _).
      apply Hother. intros ->. apply Hpath. by eapply running_listed.
    + by eapply same_files_write.
    + intros k text' Hk.
      apply Hfew, lookup_delete_Some in Hk as [_ Hk].
      rewrite Hfs'. apply fs_writeFile_is_Some. by eapply Hwriting.
Qed.

Lemma run_frame fs0 files version st schedule st' :
  state_inv files st → frame_ok fs0 files st →
  run files version st schedule = Some st' → frame_ok fs0 files st'.
Proof.
  revert st. induction schedule as [|j schedule IH]; intros st Hinv Hframe; simpl.
  - by intros [= <-].
  - destruct st as [b| |]; try done.
    destruct (turn files version b j) as [st1|] eqn:Hturn; [|done].
    cbn [mbind option_bind]. apply IH.
    + by eapply turn_inv.
    + by eapply turn_frame.
Qed.

Lemma changeFiles_fs_of fs files version :
  fs_of (changeFiles fs files version) = fs
  ∧ log_of (changeFiles fs files version) = []
  ∧ ∀ j ph, running_of (changeFiles fs files version) !! j = Some ph → ph = Reading.
Proof.
  unfold changeFiles, eachLimit_start. destruct version; [|done].
  destruct files as [|f files]; [done|]. cbn [fs_of log_of running_of].
  destruct (iter_start_next fs (length (f :: files)) (Nat.min limit (length (f :: files))))
    as (_ & _ & Hlog & _ & Hfs & _).
  split; [done|]. split; [done|]. intros j ph. apply iter_start_next_reading.
Qed.

Lemma changeFiles_frame fs files version :
  frame_ok fs files (changeFiles fs files (Some version)).
Proof.
  destruct (changeFiles_fs_of fs files (Some version)) as (Hfs & _ & Hrun).
  unfold frame_ok. rewrite Hfs. split; [done|]. split; [apply same_files_refl|].
  intros j text Hj. by apply Hrun in Hj.
Qed.

(** A batch touches only the files it is given.  In every state it can
    reach, whatever the interleaving and also when it has crashed, a file
    that is not in the list is as it was, and no file has been created,
    removed or changed in its permissions. *)
Theorem changeFiles_touches_only_listed_files (fs : filesystem)
    (files : list str) (version : str) (schedule : list nat) (st : state) :
  run files version (changeFiles fs files (Some version)) schedule = Some st →
  (∀ path, path ∉ files → fs_of st !! path = fs !! path)
  ∧ same_files fs (fs_of st).
Proof.
  intros Hrun.
  destruct (run_frame fs files version _ _ _ (changeFiles_inv fs files version)
              (changeFiles_frame fs files version) Hrun) as (Hout & Hsame & _).
  done.
Qed.

End BatchFrame.

Section BatchIsolation.
Context `{JSON}.
Local Open Scope nat_scope.

Lemma change_on_read_ext fs fs' this :
  fs' !! file this = fs !! file this →
  change_on_read fs' this = change_on_read fs this.
Proof. intros Hf. unfold change_on_read, readFile, fs_readFile. by rewrite Hf. Qed.

Lemma fs_writeFile_ext fs fs' path text :
  fs' !! path = fs !! path →
  (fs_writeFile fs' path text).1 = (fs_writeFile fs path text).1
  ∧ (fs_writeFile fs' path text).2 !! path = (fs_writeFile fs path text).2 !! path.
Proof.
  intros Hf. unfold fs_writeFile. rewrite Hf.
  destruct (fs !! path) as [f|] eqn:Hp; [destruct (writable f)|]; simpl;
    rewrite ?lookup_insert_eq; try done.
  by rewrite Hf, Hp.
Qed.

Lemma files_distinct (files : list str) j j' :
  NoDup files → j < length files → j' < length files → j ≠ j' →
  default [] (files !! j) ≠ default [] (files !! j').
Proof.
  intros Hnd Hj Hj' Hne.
  destruct (lookup_lt_is_Some_2 files j Hj) as [p Hp].
  destruct (lookup_lt_is_Some_2 files j' Hj') as [p' Hp'].
  rewrite Hp, Hp'. simpl. intros <-. apply Hne. by eapply NoDup_lookup.
Qed.

Lemma logged_started files b j :
  batch_inv files b → j ∈ (b_log b).*1 → j < length files.
Proof.
  intros Hinv Hj. pose proof (inv_next _ _ Hinv).
  assert (j < b_next b); [|lia]. apply (inv_started _ _ Hinv). by right.
Qed.

Lemma running_started files b j ph :
  batch_inv files b → b_running b !! j = Some ph →
  j < length files ∧ j ∉ (b_log b).*1.
Proof.
  intros Hinv Hj. pose proof (inv_next _ _ Hinv). split.
  - assert (j < b_next b); [|lia]. apply (inv_started _ _ Hinv). left. by rewrite Hj.
  - apply (inv_once _ _ Hinv). by rewrite Hj.
Qed.

Lemma turn_isolated fs0 files version b j st :
  NoDup files → batch_inv files b → isolated_ok fs0 files version (Active b) →
  turn files version b j = Some st → isolated_ok fs0 files version st.
Proof.
  intros Hnd Hinv (Hlog & Hwriting & Hfresh). unfold turn.
  cbn [fs_of running_of log_of] in *.
  destruct (b_running b !! j) as [ph|] eqn:Hj; [|done].
  cbn [mbind option_bind]. intros [= <-].
  destruct (running_started _ _ _ _ Hinv Hj) as [Hjlt Hjlog].
  pose proof (Hfresh j Hjlt Hjlog) as Hsame.
  destruct ph as [|text].
  - rewrite (change_on_read_ext fs0 (b_fs b)) by done.
    destruct (change_on_read fs0 _) as [err|text|e] eqn:Hread.
    + destruct (task_done_view files b (b_fs b) j (Some err)) as (Hfs & Hl & Hfew).
      unfold isolated_ok. rewrite Hfs, Hl. split; [|split].
      * intros k r [Hk|Hk%list_elem_of_singleton]%elem_of_app; [by apply Hlog|].
        injection Hk as -> ->. exists fs0. split; [|done].
        unfold change. by rewrite Hread.
      * intros k text Hk. apply Hfew, lookup_delete_Some in Hk as [_ Hk].
        by eapply Hwriting.
      * intros k Hk Hnot. apply Hfresh; [done|].
        intros Hin. apply Hnot. rewrite fmap_app. apply elem_of_app. by left.
    + split; [done|]. split; [|done]. cbn [running_of b_running].
      intros k text' Hk. destruct (decide (k = j)) as [->|Hne].
      * rewrite lookup_insert_eq in Hk. by injection Hk as <-.
      * rewrite lookup_insert_ne in Hk by done. by eapply Hwriting.
    + done.
  - unfold change_on_write. cbn [file task_Version new_Version].
    destruct (fs_writeFile (b_fs b) _ _) as [err fs'] eqn:Hw.
    destruct (task_done_view files b fs' j err) as (Hfs & Hl & Hfew).
    destruct (fs_writeFile_footprint _ _ _ _ _ Hw) as (_ & Hother & _).
    unfold isolated_ok. rewrite Hfs, Hl. split; [|split].
    + intros k r [Hk|Hk%list_elem_of_singleton]%elem_of_app.
      * destruct (Hlog _ _ Hk) as (fsk & Hch & Hfile). exists fsk. split; [done|].
        rewrite <- Hfile. apply Hother.
        assert (k ∈ (b_log b).*1) as Hkl.
        { apply list_elem_of_fmap. by exists (k, r). }
        apply files_distinct; [done|by eapply logged_started|done|].
        by intros ->.
      * injection Hk as -> ->.
        destruct (fs_writeFile_ext fs0 (b_fs b) (default [] (files !! j)) text Hsame)
          as [Herr Hfile].
        rewrite Hw in Herr, Hfile. simpl in Herr, Hfile.
        exists (fs_writeFile fs0 (default [] (files !! j)) text).2.
        split; [|done]. unfold change. rewrite (Hwriting _ _ Hj).
        unfold change_on_write. cbn [file task_Version new_Version].
        rewrite Herr. by destruct (fs_writeFile fs0 _ _).
    + intros k text' Hk. apply Hfew, lookup_delete_Some in Hk as [_ Hk].
      by eapply Hwriting.
    + intros k Hk Hnot. rewrite fmap_app, not_elem_of_app in Hnot.
      destruct Hnot as [Hnot Hkj]. rewrite <- Hfresh by done. apply Hother.
      apply files_distinct; [done..|]. intros ->. apply Hkj. by left.
Qed.

Lemma run_isolated fs0 files version st schedule st' :
  NoDup files → state_inv files st → isolated_ok fs0 files version st →
  run files version st schedule = Some st' → isolated_ok fs0 files version st'.
Proof.
  intros Hnd. revert st.
  induction schedule as [|j schedule IH]; intros st Hinv Hiso; simpl.
  - by intros [= <-].
  - destruct st as [b| |]; try done.
    destruct (turn files version b j) as [st1|] eqn:Hturn; [|done].
    cbn [mbind option_bind]. apply IH.
    + by eapply turn_inv.
    + by eapply turn_isolated.
Qed.

Lemma changeFiles_isolated fs files version :
  isolated_ok fs files version (changeFiles fs files (Some version)).
Proof.
  destruct (changeFiles_fs_of fs files (Some version)) as (Hfs & Hlog & Hrun).
  unfold isolated_ok. rewrite Hfs, Hlog. split; [|split; [|done]].
  - by intros j r ?%elem_of_nil.
  - intros j text Hj. by apply Hrun in Hj.
Qed.

(** A returned batch on distinct files, seen file by file. *)
Lemma changeFiles_returned fs files version schedule result fs' log :
  NoDup files →
  run files version (changeFiles fs files (Some version)) schedule
    = Some (Returned result fs' log) →
  result = inr (failed_paths files log)
  ∧ log.*1 ≡ₚ seq 0 (length files)
  ∧ ∀ j r, (j, r) ∈ log →
      ∃ fsj, change fs (task_Version files version j) = Normal (r, fsj)
             ∧ fs' !! default [] (files !! j) = fsj !! default [] (files !! j).
Proof.
  intros Hnd Hrun.
  destruct (run_inv _ _ _ _ _ (changeFiles_inv fs files version) Hrun) as [Hres Hperm].
  destruct (run_isolated fs files version _ _ _ Hnd (changeFiles_inv fs files version)
              (changeFiles_isolated fs files version) Hrun) as (Hlog & _ & _).
  done.
Qed.

Lemma logged_index (files : list str) (log : list (nat * option error)) j path :
  log.*1 ≡ₚ seq 0 (length files) → files !! j = Some path →
  ∃ r, (j, r) ∈ log.
Proof.
  intros Hperm Hj. apply lookup_lt_Some in Hj.
  assert (j ∈ log.*1) as Hin.
  { rewrite Hperm. apply elem_of_seq. lia. }
  apply list_elem_of_fmap in Hin as ([j' r] & -> & Hin). by exists r.
Qed.

Lemma failed_paths_elem (files : list str) (log : list (nat * option error)) path :
  log.*1 ≡ₚ seq 0 (length files) →
  path ∈ failed_paths files log ↔
  ∃ j e, files !! j = Some path ∧ (j, Some e) ∈ log.
Proof.
  intros Hperm. unfold failed_paths. rewrite list_elem_of_omap. split.
  - intros ([j [e|]] & Hin & Hp); [|done]. simpl in Hp. injection Hp as <-.
    exists j, e. split; [|done].
    assert (j ∈ log.*1) as Hj.
    { apply list_elem_of_fmap. by exists (j, Some e). }
    rewrite Hperm in Hj. apply elem_of_seq in Hj.
    destruct (lookup_lt_is_Some_2 files j) as [p Hp]; [lia|]. by rewrite Hp.
  - intros (j & e & Hj & Hin). exists (j, Some e). split; [done|]. simpl.
    by rewrite Hj.
Qed.

(** A batch on distinct files does to each file what the change of that
    file alone does.  When the batch returns, every file holds what its
    change, run on the file system the batch started with, leaves in it,
    the operation reported what that change reports, and the result lists
    exactly the paths whose change alone reports an error. *)
Theorem changeFiles_is_per_file_change (fs : filesystem) (files : list str)
    (version : str) (schedule : list nat) (failed : list str)
    (fs' : filesystem) (log : list (nat * option error)) :
  NoDup files →
  run files version (changeFiles fs files (Some version)) schedule
    = Some (Returned (inr failed) fs' log) →
  (∀ j path, files !! j = Some path →
     ∃ r fsj, change fs (task_Version files version j) = Normal (r, fsj)
              ∧ (j, r) ∈ log ∧ fs' !! path = fsj !! path)
  ∧ (∀ path, path ∈ failed ↔
       ∃ j e fsj, files !! j = Some path
                  ∧ change fs (task_Version files version j) = Normal (Some e, fsj)).
Proof.
  intros Hnd Hrun.
  destruct (changeFiles_returned _ _ _ _ _ _ _ Hnd Hrun) as (Hres & Hperm & Hlog).
  injection Hres as ->. split.
  - intros j path Hj. destruct (logged_index _ _ _ _ Hperm Hj) as [r Hin].
    destruct (Hlog _ _ Hin) as (fsj & Hch & Hfile). exists r, fsj.
    rewrite Hj in Hfile. done.
  - intros path. rewrite (failed_paths_elem _ _ _ Hperm). split.
    + intros (j & e & Hj & Hin). destruct (Hlog _ _ Hin) as (fsj & Hch & _).
      by exists j, e, fsj.
    + intros (j & e & fsj & Hj & Hch). exists j, e. split; [done|].
      destruct (logged_index _ _ _ _ Hperm Hj) as [r Hin].
      destruct (Hlog _ _ Hin) as (fsj' & Hch' & _).
      rewrite Hch in Hch'. by injection Hch' as <- _.
Qed.

End BatchIsolation.

Section ScheduleIndependence.
Context `{JSON}.
Local Open Scope nat_scope.

Lemma failed_paths_NoDup (files : list str) (log : list (nat * option error)) :
  NoDup files → NoDup log.*1 → (∀ j, j ∈ log.*1 → j < length files) →
  NoDup (failed_paths files log).
Proof.
  intros Hnd. induction log as [|[j e] log IH]; intros Hlog Hlt; [constructor|].
  rewrite fmap_cons in Hlog, Hlt. apply NoDup_cons in Hlog as [Hj Hlog].
  assert (NoDup (failed_paths files log)) as IH'.
  { apply IH; [done|]. intros k Hk. apply Hlt. by right. }
  unfold failed_paths in *. cbn [omap list_omap snd fst].
  destruct e as [e|]; [|done]. apply NoDup_cons. split; [|done].
  intros ([k [e'|]] & Hin & Hp)%list_elem_of_omap; [|done].
  simpl in Hp. injection Hp as Hp.
  assert (k ∈ log.*1) as Hk.
  { apply list_elem_of_fmap. by exists (k, Some e'). }
  destruct (decide (j = k)) as [->|Hne]; [done|].
  apply (files_distinct files j k); [done| | |done|done].
  - apply Hlt. by left.
  - apply Hlt. by right.
Qed.

Lemma returned_same_file fs files version schedule1 schedule2 failed1 failed2
    fs1 fs2 log1 log2 :
  NoDup files →
  run files version (changeFiles fs files (Some version)) schedule1
    = Some (Returned (inr failed1) fs1 log1) →
  run files version (changeFiles fs files (Some version)) schedule2
    = Some (Returned (inr failed2) fs2 log2) →
  ∀ j path, files !! j = Some path →
    fs1 !! path = fs2 !! path ∧ ∀ e, (j, Some e) ∈ log1 → (j, Some e) ∈ log2.
Proof.
  intros Hnd Hrun1 Hrun2 j path Hj.
  destruct (changeFiles_returned _ _ _ _ _ _ _ Hnd Hrun1) as (_ & Hperm1 & Hlog1).
  destruct (changeFiles_returned _ _ _ _ _ _ _ Hnd Hrun2) as (_ & Hperm2 & Hlog2).
  destruct (logged_index _ _ _ _ Hperm1 Hj) as [r1 Hin1].
  destruct (logged_index _ _ _ _ Hperm2 Hj) as [r2 Hin2].
  destruct (Hlog1 _ _ Hin1) as (fsj1 & Hch1 & Hfile1).
  destruct (Hlog2 _ _ Hin2) as (fsj2 & Hch2 & Hfile2).
  rewrite Hch1 in Hch2. injection Hch2 as <- <-.
  rewrite Hj in Hfile1, Hfile2. simpl in Hfile1, Hfile2. split; [congruence|].
  intros e Hin. destruct (Hlog1 _ _ Hin) as (fsj & Hch & _).
  rewrite Hch1 in Hch. by injection Hch as <- _.
Qed.

(** The outcome of a batch on distinct files does not depend on the order
    in which the event loop runs the callbacks: two runs that both return
    leave the same file system and report the same failed paths, in
    possibly different orders. *)
Theorem changeFiles_schedule_independent (fs : filesystem) (files : list str)
    (version : str) (schedule1 schedule2 : list nat) (failed1 failed2 : list str)
    (fs1 fs2 : filesystem) (log1 log2 : list (nat * option error)) :
  NoDup files →
  run files version (changeFiles fs files (Some version)) schedule1
    = Some (Returned (inr failed1) fs1 log1) →
  run files version (changeFiles fs files (Some version)) schedule2
    = Some (Returned (inr failed2) fs2 log2) →
  fs1 = fs2 ∧ failed1 ≡ₚ failed2.
Proof.
  intros Hnd Hrun1 Hrun2.
  pose proof (returned_same_file _ _ _ _ _ _ _ _ _ _ _ Hnd Hrun1 Hrun2) as H12.
  pose proof (returned_same_file _ _ _ _ _ _ _ _ _ _ _ Hnd Hrun2 Hrun1) as H21.
  destruct (changeFiles_returned _ _ _ _ _ _ _ Hnd Hrun1) as (Hres1 & Hperm1 & _).
  destruct (changeFiles_returned _ _ _ _ _ _ _ Hnd Hrun2) as (Hres2 & Hperm2 & _).
  injection Hres1 as ->. injection Hres2 as ->. split.
  - apply map_eq. intros path.
    destruct (decide (path ∈ files)) as [Hin|Hout].
    + apply list_elem_of_lookup_1 in Hin as [j Hj]. by apply (H12 j).
    + destruct (run_frame fs files version _ _ _ (changeFiles_inv fs files version)
                  (changeFiles_frame fs files version) Hrun1) as (Hout1 & _).
      destruct (run_frame fs files version _ _ _ (changeFiles_inv fs files version)
                  (changeFiles_frame fs files version) Hrun2) as (Hout2 & _).
      cbn [fs_of] in *. by rewrite Hout1, Hout2.
  - assert (∀ log, log.*1 ≡ₚ seq 0 (length files) →
              NoDup (failed_paths files log)) as Hnodup.
    { intros log Hperm. apply failed_paths_NoDup; [done| |].
      - rewrite Hperm. apply NoDup_seq.
      - intros j. rewrite Hperm, elem_of_seq. lia. }
    apply NoDup_Permutation; [by apply Hnodup..|].
    intros path. rewrite !failed_paths_elem by done. split.
    + intros (j & e & Hj & Hin). exists j, e. split; [done|]. by apply (H12 j path).
    + intros (j & e & Hj & Hin). exists j, e. split; [done|]. by apply (H21 j path).
Qed.

End ScheduleIndependence.

Section ExtractThenChange.
Context `{JSON}.
Local Open Scope nat_scope.

Lemma setVersion_ok this x this' :
  setVersion this x = (None, this') →
  ∃ v, x = VString v ∧ is_Some (Semver.valid (VString v))
       ∧ this' = set_version this (Some v).
Proof.
  unfold setVersion. destruct x; try done.
  destruct (Semver.valid (VString s)) as [w|] eqn:Hv; [|done].
  intros [= <-]. exists s. by rewrite Hv.
Qed.

(** Reading a version from a text file and writing it back at once.  On a
    pattern-embedded file the change hands the decoded text to
    [fs.writeFile] exactly as it was read: a writable file then holds the
    encoding of its decoded text, and it is left as it is when its bytes
    are well-formed UTF-8.  On a plain version file the change writes the
    trimmed text: white space around the version, a final line feed
    included, is lost. *)
Theorem extract_then_change_text (fs : filesystem) (this this' : Version)
    (s v : str) :
  str_eqb (Path.extname (file this)) (lit ".json") = false →
  read_text fs (file this) = inr s →
  extract fs this = Normal ((None, Some v), this') →
  (is_VERSION_type this = false →
   change fs this' = Normal (fs_writeFile fs (file this) s)
   ∧ (∀ f, fs !! file this = Some f → writable f = true →
        change fs this'
        = Normal (None,
                  <[file this := mkFile (Buffer_from (toString (content f)))
                                   true true]> fs))
   ∧ (∀ f, fs !! file this = Some f → writable f = true →
        well_formed_utf8 (octets (content f)) = true →
        change fs this' = Normal (None, fs)))
  ∧ (is_VERSION_type this = true →
     v = trim s ∧ change fs this' = Normal (fs_writeFile fs (file this) (trim s))).
Proof.
  intros Hext Hread. unfold extract. rewrite (readFile_text _ _ _ Hext Hread).
  destruct (_extract this (VString s)) as [[err that]|e] eqn:Hex; [|done].
  intros [= -> Hv ->].
  assert (∀ t : Version, file t = file this → change_on_read fs t
            = match _change t (VString s) with
              | Normal data' => match writeFile t data' with
                                | Normal text => Writes text
                                | Throw e => Uncaught e
                                end
              | Throw e => Uncaught e
              end) as Hturn.
  { intros t Ht. unfold change_on_read.
    rewrite (readFile_text fs t s) by (by rewrite Ht). done. }
  split; intros Hty.
  - rewrite (_extract_pattern _ _ Hty) in Hex.
    assert (setVersion this
              (match find_version s with
               | Some (i, (j, k)) => VString (substring s j k)
               | None => VUndefined
               end) = (None, this')) as Hset by congruence.
    apply setVersion_ok in Hset as (w & Hw & Hvalid & ->).
    assert (change fs (set_version this (Some w))
            = Normal (fs_writeFile fs (file this) s)) as Hch.
    { unfold change. rewrite Hturn by done.
      rewrite (_change_pattern _ s) by done.
      destruct (find_version s) as [[i [j k]]|] eqn:Hfind; [|done].
      injection Hw as <-. cbn [version set_version].
      rewrite replacement_text_valid by done.
      apply find_version_Some in Hfind as [Hocc _].
      by rewrite <- (occurrence_split _ _ _ _ Hocc). }
    split; [done|]. split.
    + intros f Hf Hwr. rewrite Hch. f_equal. by apply fs_writeFile_text.
    + intros f Hf Hwr Hwf. rewrite Hch. f_equal. by eapply fs_writeFile_same.
  - assert (setVersion this (VString (trim s)) = (None, this')) as Hset.
    { unfold _extract in Hex. cbn [typeof_object] in Hex. rewrite Hty in Hex.
      congruence. }
    apply setVersion_ok in Hset as (w & [= <-] & Hvalid & ->).
    cbn [version set_version] in Hv. injection Hv as <-. split; [done|].
    unfold change. rewrite Hturn by done. unfold _change. cbn [typeof_object].
    unfold is_VERSION_type in *. cbn [options set_version]. by rewrite Hty.
Qed.

Lemma set_field_same name v fields :
  name ∈ fields.*1 → get_field name fields = v → set_field name v fields = fields.
Proof.
  induction fields as [|[k w] fields IH]; simpl.
  - by intros ?%elem_of_nil.
  - unfold str_eqb. case_bool_decide as Hk.
    + by intros _ ->.
    + intros [?|Hin]%elem_of_cons; [done|]. intros Hv. f_equal. by apply IH.
Qed.

Lemma valid_nonempty v : is_Some (Semver.valid (VString v)) → v ≠ [].
Proof. by intros Hv ->; destruct Hv as [w Hw]; vm_compute in Hw. Qed.

(** Reading a version from the object of a JSON file and writing it back
    at once: [_change] returns the object as it is. *)
Theorem extract_then_change_json (this this' : Version)
    (fields : list (str * value)) :
  _extract this (VObject fields) = Normal (None, this') →
  _change this' (VObject fields) = Normal (VObject fields).
Proof.
  unfold _extract. cbn [typeof_object get_version]. intros Hex.
  assert (setVersion this (get_field (lit "version") fields) = (None, this'))
    as Hset by congruence.
  apply setVersion_ok in Hset as (v & Hv & Hvalid & ->).
  unfold _change. cbn [typeof_object get_version version set_version of_option].
  rewrite Hv. cbn [truthy]. unfold str_eqb.
  rewrite bool_decide_eq_false_2 by (by apply valid_nonempty). cbn [negb].
  rewrite set_field_same; [done| |done].
  apply get_field_truthy_elem. rewrite Hv. cbn [truthy]. unfold str_eqb.
  by rewrite bool_decide_eq_false_2 by (by apply valid_nonempty).
Qed.

End ExtractThenChange.

Section Throws.
Context `{JSON}.
Local Open Scope nat_scope.

(** When the change operation throws.  With a stored version, the read
    callback throws in these cases only: the file's data is [null], or the
    data is neither an object nor a string (a number or a boolean of a JSON
    file) and the file is not a plain version file.  The error is a
    TypeError, and no callback is called. *)
Theorem change_throws_iff (fs : filesystem) (this : Version) (v : str) (e : error) :
  version this = Some v →
  change fs this = Throw e ↔
  e = TypeError
  ∧ ∃ data, readFile fs this = inr data
            ∧ (data = VNull
               ∨ (typeof_object data = false ∧ is_VERSION_type this = false
                  ∧ ∀ s, data ≠ VString s)).
Proof.
  intros Hv. unfold change, change_on_read.
  destruct (readFile fs this) as [err|data].
  { split; [done|]. by intros (_ & data & ? & _). }
  unfold _change, writeFile. rewrite Hv. cbn [of_option].
  destruct data as [| |b|z|s|items|fields]; cbn [typeof_object get_version];
    try destruct (is_VERSION_type this) eqn:Hty; cbn [typeof_object];
    try destruct (truthy _); cbn [typeof_object];
    (split;
     [ intros [= <-]; (split; [done|]); eexists; (split; [done|]);
       first [ by left | right; by repeat split ]
     | intros (-> & data & [= <-] & [?|(? & ? & Hs)]); try done;
       try (by exfalso; eapply Hs) ]).
Qed.

Lemma change_on_read_text fs this v :
  str_eqb (Path.extname (file this)) (lit ".json") = false →
  version this = Some v →
  (∃ err, change_on_read fs this = CallsBack err)
  ∨ (∃ text, change_on_read fs this = Writes text).
Proof.
  intros Hext Hv. unfold change_on_read. rewrite readFile_read_text, Hext.
  destruct (read_text fs (file this)) as [err|s]; [left; by eexists|].
  right. unfold _change. cbn [typeof_object]. rewrite Hv. cbn [of_option].
  destruct (is_VERSION_type this); by eexists.
Qed.

Lemma task_done_not_crashed files b fs' j err :
  match task_done files b fs' j err with Crashed _ _ => False | _ => True end.
Proof. unfold task_done. by repeat case_bool_decide. Qed.

Lemma turn_not_crashed files version b j st :
  (∀ path, path ∈ files → str_eqb (Path.extname path) (lit ".json") = false) →
  batch_inv files b → turn files version b j = Some st →
  match st with Crashed _ _ => False | _ => True end.
Proof.
  intros Hext Hinv. unfold turn.
  destruct (b_running b !! j) as [ph|] eqn:Hj; [|done].
  cbn [mbind option_bind]. intros [= <-]. destruct ph as [|text].
  - destruct (change_on_read_text (b_fs b) (task_Version files version j) version)
      as [[err ->]|[text ->]]; [|done|apply task_done_not_crashed|done].
    apply Hext. by eapply running_listed.
  - destruct (change_on_write _ _ _). apply task_done_not_crashed.
Qed.

(** A batch without JSON files never crashes: whatever the interleaving,
    it is still at work or it has returned its list of failed paths. *)
Theorem changeFiles_without_json_never_crashes (fs : filesystem)
    (files : list str) (version : str) (schedule : list nat) (st : state) :
  (∀ path, path ∈ files → str_eqb (Path.extname path) (lit ".json") = false) →
  run files version (changeFiles fs files (Some version)) schedule = Some st →
  (∃ b, st = Active b)
  ∨ (∃ fs' log, st = Returned (inr (failed_paths files log)) fs' log).
Proof.
  intros Hext Hrun.
  pose proof (run_inv _ _ _ _ _ (changeFiles_inv fs files version) Hrun) as Hinv.
  assert (match st with Crashed _ _ => False | _ => True end) as Hok.
  { revert Hrun. generalize (changeFiles_inv fs files version).
    assert (match changeFiles fs files (Some version) with
            | Crashed _ _ => False | _ => True end) as Hstart.
    { unfold changeFiles, eachLimit_start. by destruct files. }
    revert Hstart. generalize (changeFiles fs files (Some version)) as st0.
    induction schedule as [|j schedule IH]; intros st0 Hstart Hinv0; simpl.
    - by intros [= <-].
    - destruct st0 as [b| |]; try done.
      destruct (turn files version b j) as [st1|] eqn:Hturn; [|done].
      cbn [mbind option_bind]. apply IH.
      + by eapply turn_not_crashed.
      + by eapply turn_inv. }
  destruct st as [b|result fs' log|e b]; [left; by eexists| |done].
  right. destruct Hinv as [-> _]. by eexists _, _.
Qed.

End Throws.

Section ReadBack.
Context `{JSON}.
Local Open Scope nat_scope.

(** What [_extract] reads from a pattern-embedded text.  A version it
    finds without an error is a token of the pattern, of the shape
    [\d+\.\d+\.\d+] with an optional [-alphanumeric] suffix.  So a version
    with a dotted prerelease or with build metadata, once the change has
    written it, is never read back whole. *)
Theorem extract_reads_tokens_only (this this' : Version) (s v : str) :
  is_VERSION_type this = false →
  _extract this (VString s) = Normal (None, this') →
  version this' = Some v →
  token_shape v ∧ ∃ i j k, first_occurrence s i j k ∧ v = substring s j k.
Proof.
  intros Hty Hex. rewrite (_extract_pattern _ _ Hty) in Hex.
  assert (setVersion this
            (match find_version s with
             | Some (i, (j, k)) => VString (substring s j k)
             | None => VUndefined
             end) = (None, this')) as Hset by congruence.
  apply setVersion_ok in Hset as (t & Ht & _ & ->).
  destruct (find_version s) as [[i [j k]]|] eqn:Hfind; [|done].
  injection Ht as <-. cbn [version set_version]. intros [= <-].
  pose proof (find_version_Some _ _ _ _ Hfind) as Hfirst. split.
  - by destruct Hfirst as [[_ _ _ _ _ Hshape] _].
  - by exists i, j, k.
Qed.

(** When [extract] throws.  The read callback throws in these cases only:
    the file's data is [null], or the data is neither an object nor a
    string and the file is a plain version file.  The error is a TypeError,
    and the callback of [extract] is not called. *)
Theorem extract_throws_iff (fs : filesystem) (this : Version) (e : error) :
  extract fs this = Throw e ↔
  e = TypeError
  ∧ ∃ data, readFile fs this = inr data
            ∧ (data = VNull
               ∨ (typeof_object data = false ∧ is_VERSION_type this = true
                  ∧ ∀ s, data ≠ VString s)).
Proof.
  unfold extract. destruct (readFile fs this) as [err|data].
  { split; [done|]. by intros (_ & data & ? & _). }
  unfold _extract.
  destruct data as [| |b|z|s|items|fields]; cbn [typeof_object get_version];
    try destruct (is_VERSION_type this) eqn:Hty;
    try destruct (setVersion _ _);
    (split;
     [ intros [= <-]; (split; [done|]); eexists; (split; [done|]);
       first [ by left | right; by repeat split ]
     | intros (-> & data & [= <-] & [?|(? & ? & Hs)]); try done;
       try (by exfalso; eapply Hs) ]).
Qed.

End ReadBack.

Section ReadBackExamples.
Local Open Scope nat_scope.

Lemma extract_reads_tokens_only_witness : token_shape (lit "1.3.0-rc").
Proof.
  refine (proj1 (@extract_reads_tokens_only
            (new_Version (lit "version.js") None)
            (set_version (new_Version (lit "version.js") None)
               (Some (lit "1.3.0-rc")))
            (lit "const VERSION = '1.3.0-rc.1'") (lit "1.3.0-rc") _ _ _)).
  - reflexivity.
  - reflexivity.
  - reflexivity.
Defined.

Lemma extract_throws_iff_witness :
  extract (H := example_JSON) example_fs (new_Version (lit "data.json") None)
  = Throw TypeError.
Proof.
  apply (proj2 (@extract_throws_iff example_JSON example_fs
                  (new_Version (lit "data.json") None) TypeError)).
  split; [reflexivity|]. exists VNull. split; [reflexivity|]. by left.
Defined.

End ReadBackExamples.

Section MoreExamples.
Local Open Scope nat_scope.

Lemma inc_throws_only_on_set_witness :
  inc (new_Version (lit "package.json")
         (Some (mkOptions (Some (lit "1.2.3")) None None)))
    (Some (lit "set"))
  = Throw (InvalidIncrement (lit "set")).
Proof.
  apply (proj2 (inc_throws_only_on_set
                  (new_Version (lit "package.json")
                     (Some (mkOptions (Some (lit "1.2.3")) None None)))
                  (Some (lit "set")))).
  - vm_compute. eexists. reflexivity.
  - reflexivity.
Defined.

Lemma change_without_version_witness :
  _change (new_Version (lit "version.js") None)
    (VString (lit "const VERSION = '1.2.3'"))
  = Normal (VString (lit "const VERSION = 'undefined'")).
Proof.
  refine (proj1 (@change_without_version example_JSON example_fs
                   (new_Version (lit "version.js") None)
                   (lit "const VERSION = '1.2.3'") 6 17 22 _ _ _ _)).
  - split; reflexivity.
  - reflexivity.
  - reflexivity.
  - apply find_version_first. vm_compute. reflexivity.
Defined.

Lemma changeFiles_touches_only_listed_files_witness :
  ∃ st, run (H := example_JSON)
          [lit "version.js"; lit "missing"; lit "VERSION"] (lit "2.0.0")
          (changeFiles example_fs [lit "version.js"; lit "missing"; lit "VERSION"]
             (Some (lit "2.0.0")))
          [0; 2; 1; 2; 0]
        = Some st
        ∧ fs_of st !! lit "README" = example_fs !! lit "README".
Proof.
  eexists. split.
  - vm_compute. reflexivity.
  - refine (proj1 (@changeFiles_touches_only_listed_files example_JSON example_fs
              [lit "version.js"; lit "missing"; lit "VERSION"] (lit "2.0.0")
              [0; 2; 1; 2; 0] _ _) (lit "README") _).
    + vm_compute. reflexivity.
    + apply (bool_decide_unpack _). vm_compute. exact I.
Defined.

Lemma changeFiles_is_per_file_change_witness :
  ∃ fs' log,
    run (H := example_JSON)
      [lit "version.js"; lit "missing"; lit "VERSION"] (lit "2.0.0")
      (changeFiles example_fs [lit "version.js"; lit "missing"; lit "VERSION"]
         (Some (lit "2.0.0")))
      [0; 2; 1; 2; 0]
    = Some (Returned (inr [lit "missing"]) fs' log)
    ∧ ∃ r fsj,
        change (H := example_JSON) example_fs
          (task_Version [lit "version.js"; lit "missing"; lit "VERSION"]
             (lit "2.0.0") 0)
        = Normal (r, fsj)
        ∧ (0, r) ∈ log ∧ fs' !! lit "version.js" = fsj !! lit "version.js".
Proof.
  eexists _, _. split.
  - vm_compute. reflexivity.
  - refine (proj1 (@changeFiles_is_per_file_change example_JSON example_fs
              [lit "version.js"; lit "missing"; lit "VERSION"] (lit "2.0.0")
              [0; 2; 1; 2; 0] _ _ _ _ _) 0 (lit "version.js") _).
    + apply (bool_decide_unpack _). vm_compute. exact I.
    + vm_compute. reflexivity.
    + reflexivity.
Defined.

Lemma changeFiles_schedule_independent_witness :
  ∃ failed1 failed2 fs1 fs2 log1 log2,
    run (H := example_JSON)
      [lit "version.js"; lit "missing"; lit "VERSION"] (lit "2.0.0")
      (changeFiles example_fs [lit "version.js"; lit "missing"; lit "VERSION"]
         (Some (lit "2.0.0")))
      [0; 2; 1; 2; 0]
    = Some (Returned (inr failed1) fs1 log1)
    ∧ run (H := example_JSON)
        [lit "version.js"; lit "missing"; lit "VERSION"] (lit "2.0.0")
        (changeFiles example_fs [lit "version.js"; lit "missing"; lit "VERSION"]
           (Some (lit "2.0.0")))
        [1; 0; 0; 2; 2]
      = Some (Returned (inr failed2) fs2 log2)
    ∧ fs1 = fs2 ∧ failed1 ≡ₚ failed2.
Proof.
  eexists _, _, _, _, _, _. split; [vm_compute; reflexivity|].
  split; [vm_compute; reflexivity|].
  eapply (@changeFiles_schedule_independent example_JSON example_fs
            [lit "version.js"; lit "missing"; lit "VERSION"] (lit "2.0.0")
            [0; 2; 1; 2; 0] [1; 0; 0; 2; 2]).
  - apply (bool_decide_unpack _). vm_compute. exact I.
  - vm_compute. reflexivity.
  - vm_compute. reflexivity.
Defined.

Lemma extract_then_change_text_witness :
  change (H := example_JSON) example_fs
    (set_version (new_Version (lit "version.js") None) (Some (lit "1.2.3")))
  = Normal (None, example_fs).
Proof.
  refine (proj2 (proj2 (proj1 (@extract_then_change_text example_JSON example_fs
            (new_Version (lit "version.js") None) _
            (lit "const VERSION = '1.2.3'") (lit "1.2.3") _ _ _) _))
            (text_file (lit "const VERSION = '1.2.3'")) _ _ _).
  - reflexivity.
  - reflexivity.
  - reflexivity.
  - reflexivity.
  - reflexivity.
  - reflexivity.
  - reflexivity.
Defined.

Lemma extract_then_change_json_witness :
  _change (set_version (new_Version (lit "package.json") None) (Some (lit "1.2.3")))
    (VObject [(lit "name", VString (lit "x")); (lit "version", VString (lit "1.2.3"))])
  = Normal
      (VObject [(lit "name", VString (lit "x")); (lit "version", VString (lit "1.2.3"))]).
Proof.
  apply (@extract_then_change_json (new_Version (lit "package.json") None)).
  reflexivity.
Defined.

Lemma change_throws_iff_witness :
  change (H := example_JSON) example_fs
    (new_Version (lit "data.json") (Some (mkOptions (Some (lit "2.0.0")) None None)))
  = Throw TypeError.
Proof.
  apply (proj2 (@change_throws_iff example_JSON example_fs
                  (new_Version (lit "data.json")
                     (Some (mkOptions (Some (lit "2.0.0")) None None)))
                  (lit "2.0.0") TypeError eq_refl)).
  split; [reflexivity|]. exists VNull. split; [reflexivity|]. by left.
Defined.

Lemma changeFiles_without_json_never_crashes_witness :
  ∃ st, run (H := example_JSON)
          [lit "version.js"; lit "missing"; lit "VERSION"] (lit "2.0.0")
          (changeFiles example_fs [lit "version.js"; lit "missing"; lit "VERSION"]
             (Some (lit "2.0.0")))
          [0; 2; 1]
        = Some st
        ∧ ((∃ b, st = Active b)
           ∨ (∃ fs' log,
                st = Returned
                       (inr (failed_paths
                               [lit "version.js"; lit "missing"; lit "VERSION"] log))
                       fs' log)).
Proof.
  eexists. split.
  - vm_compute. reflexivity.
  - eapply (@changeFiles_without_json_never_crashes example_JSON example_fs
              [lit "version.js"; lit "missing"; lit "VERSION"] (lit "2.0.0")
              [0; 2; 1]).
    + intros path Hin. repeat (apply elem_of_cons in Hin as [->|Hin]; [reflexivity|]).
      by apply elem_of_nil in Hin.
    + vm_compute. reflexivity.
Defined.

End MoreExamples.

Section FileRoundTrip.
Context `{JSON}.
Local Open Scope nat_scope.

Lemma alnum_ascii c : is_alnum c = true → (c < 128)%N.
Proof.
  unfold is_alnum, is_lower, is_upper, is_digit.
  repeat (rewrite ?orb_true_iff, ?andb_true_iff, ?N.leb_le). lia.
Qed.

Lemma digit_alnum c : is_digit c = true → is_alnum c = true.
Proof. unfold is_alnum. intros ->. by rewrite orb_true_r. Qed.

Lemma token_shape_ascii w : token_shape w → Forall (fun c => (c < 128)%N) w.
Proof.
  intros (a & b & c & x & -> & [_ Ha] & [_ Hb] & [_ Hc] & Hx).
  assert (∀ l, Forall (fun c => is_digit c = true) l →
               Forall (fun c => (c < 128)%N) l) as Hd.
  { intros l Hl. eapply Forall_impl; [exact Hl|].
    intros d Hd. by apply alnum_ascii, digit_alnum. }
  repeat (apply Forall_app; split); auto; try (by repeat constructor).
  destruct Hx as [->|(p & -> & _ & Hp)]; [done|].
  constructor; [done|]. eapply Forall_impl; [exact Hp|]. apply alnum_ascii.
Qed.

Lemma token_shape_head w :
  token_shape w → ∃ c, head w = Some c ∧ is_digit c = true.
Proof.
  intros (a & b & c & x & -> & [Hne Ha] & _).
  destruct a as [|d a]; [done|]. exists d. split; [done|].
  by apply Forall_cons in Ha as [? _].
Qed.

Lemma token_shape_last w :
  token_shape w → ∃ c, last w = Some c ∧ is_alnum c = true.
Proof.
  intros (a & b & c & x & -> & _ & _ & [Hne Hc] & Hx).
  rewrite !app_assoc.
  destruct Hx as [->|(p & -> & Hp & Hall)].
  - rewrite app_nil_r.
    destruct (exists_last Hne) as (c' & d & ->).
    rewrite app_assoc, last_snoc. exists d. split; [done|].
    apply Forall_app in Hc as [_ Hc]. apply Forall_cons in Hc as [? _].
    by apply digit_alnum.
  - assert (45%N :: p ≠ []) as Hp' by done.
    destruct (exists_last Hp) as (p' & d & ->).
    change (45%N :: p' ++ [d]) with ((45%N :: p') ++ [d]).
    rewrite app_assoc, last_snoc. exists d. split; [done|].
    apply Forall_app in Hall as [_ Hall]. by apply Forall_cons in Hall as [? _].
Qed.

Lemma space_plain_unit c : is_space c = true → plain_unit c.
Proof.
  unfold is_space, plain_unit.
  repeat (rewrite ?orb_true_iff, ?andb_true_iff, ?N.leb_le, ?N.eqb_eq). lia.
Qed.

Lemma FULLPLAIN_ascii c : alphabet Semver.FULLPLAIN c = true → (c < 128)%N.
Proof.
  cbn -[N.leb N.eqb];
    unfold Semver.is_letter_dash_number, Semver.is_letter_dash,
      is_alnum, is_lower, is_upper, is_digit;
    rewrite ?orb_false_r;
    repeat (rewrite ?orb_true_iff, ?andb_true_iff, ?N.leb_le, ?N.eqb_eq); lia.
Qed.

(** A string [semver.valid] accepts holds no surrogate. *)
Lemma valid_units v : is_Some (Semver.valid (VString v)) → Forall plain_unit v.
Proof.
  intros [w Hw]. unfold Semver.valid in Hw. simpl in Hw.
  unfold Semver.SemVer_new in Hw. case_bool_decide; [done|].
  destruct (exec Semver.FULL 5 (trim v)) as [m|] eqn:Hm; [|done].
  apply exec_anchored in Hm. rewrite Forall_forall in Hm.
  apply Forall_forall. intros c Hin.
  apply trim_elem in Hin as [Hsp|Hin]; [by apply space_plain_unit|].
  apply Hm in Hin. by apply ascii_plain_unit, FULLPLAIN_ascii.
Qed.


Lemma well_formed_utf16_head s c :
  well_formed_utf16 s = true → head s = Some c → UTF8.is_low c = false.
Proof.
  destruct s as [|d s]; [done|]. intros Hwf [= ->]. simpl in Hwf.
  destruct (UTF8.is_high c) eqn:Hh.
  - revert Hh. unfold UTF8.is_high, UTF8.is_low.
    rewrite andb_true_iff, !N.leb_le. intros Hh.
    apply andb_false_iff. left. apply N.leb_gt. lia.
  - apply andb_true_iff in Hwf as [Hwf _]. apply andb_true_iff in Hwf as [Hwf _].
    by apply negb_true_iff in Hwf.
Qed.

(** Encoding goes through a cut where the text after it is well formed. *)
Lemma encode_app a b :
  well_formed_utf16 b = true → UTF8.encode (a ++ b) = UTF8.encode a ++ UTF8.encode b.
Proof.
  intros Hb. apply encode_app_r. intros c. by apply well_formed_utf16_head.
Qed.

(** The three parts of a text around a token, and their encodings. *)
Lemma token_frame (s v : str) (j k : nat) :
  well_formed_utf16 s = true → j ≤ k → token_shape (substring s j k) →
  well_formed_utf16 v = true →
  s = take j s ++ substring s j k ++ drop k s
  ∧ well_formed_utf16 (take j s ++ v ++ drop k s) = true
  ∧ UTF8.encode s
    = UTF8.encode (take j s) ++ UTF8.encode (substring s j k)
      ++ UTF8.encode (drop k s)
  ∧ UTF8.encode (take j s ++ v ++ drop k s)
    = UTF8.encode (take j s) ++ UTF8.encode v ++ UTF8.encode (drop k s).
Proof.
  intros Hs Hjk Htok Hv.
  assert (s = take j s ++ substring s j k ++ drop k s) as Hsplit.
  { by rewrite app_assoc, take_substring, take_drop. }
  destruct (token_shape_head _ Htok) as (c & Hc & Hdig).
  destruct (token_shape_last _ Htok) as (d & Hd & Haln).
  assert (well_formed_utf16 (take j s) = true
          ∧ well_formed_utf16 (substring s j k ++ drop k s) = true) as [Ha Hb].
  { apply well_formed_utf16_cut_r; [by rewrite <- Hsplit|].
    intros c'. destruct (substring s j k); [done|]. simpl in *. intros [= <-].
    injection Hc as ->. apply plain_unit_not_low, ascii_plain_unit, alnum_ascii.
    by apply digit_alnum. }
  assert (well_formed_utf16 (substring s j k) = true
          ∧ well_formed_utf16 (drop k s) = true) as [Ht Hq].
  { apply well_formed_utf16_cut_l; [done|].
    intros d'. rewrite Hd. intros [= <-].
    by apply plain_unit_not_high, ascii_plain_unit, alnum_ascii. }
  split; [done|]. split; [|split].
  - by repeat apply well_formed_utf16_app.
  - rewrite Hsplit at 1. by rewrite !encode_app.
  - rewrite !encode_app; [done..|]. by apply well_formed_utf16_app.
Qed.

(** After a change that reported success, the file holds the encoding of
    the text the read callback handed over. *)
Lemma change_ok_file fs this fs' :
  change fs this = Normal (None, fs') →
  ∃ text, change_on_read fs this = Writes text
          ∧ fs' !! file this = Some (mkFile (Buffer_from text) true true).
Proof.
  unfold change. destruct (change_on_read fs this) as [err|text|e] eqn:Hread;
    [done| |done].
  unfold change_on_write. intros [= Hw].
  destruct (fs_writeFile_footprint _ _ _ _ _ Hw) as (_ & _ & Hok).
  destruct (change_on_read_Writes _ _ _ Hread) as (f & Hf & Hrd).
  destruct (Hok eq_refl f Hf) as [_ Hnew]. exists text. by rewrite Hrd in Hnew.
Qed.

Lemma change_on_read_text_file fs this s :
  str_eqb (Path.extname (file this)) (lit ".json") = false →
  read_text fs (file this) = inr s →
  change_on_read fs this
  = match _change this (VString s) with
    | Normal data' => match writeFile this data' with
                      | Normal text => Writes text
                      | Throw e => Uncaught e
                      end
    | Throw e => Uncaught e
    end.
Proof.
  intros Hext Hread. unfold change_on_read.
  by rewrite (readFile_text _ _ _ Hext Hread).
Qed.

(** A change that writes the text the file already holds changes nothing. *)
Lemma change_same_text fs this text :
  fs !! file this = Some (mkFile (Buffer_from text) true true) →
  change_on_read fs this = Writes text →
  change fs this = Normal (None, fs).
Proof.
  intros Hf Hread. unfold change. rewrite Hread. unfold change_on_write. f_equal.
  unfold fs_writeFile. rewrite Hf. simpl. f_equal. by apply insert_id.
Qed.

(** Writing a version into a pattern-embedded file and reading it back.
    Let the stored version be valid and of the shape the pattern reads
    ([\d+\.\d+\.\d+] with an optional [-alphanumeric] suffix), and let it
    have a suffix exactly when the token of the first occurrence has one.
    After a change that reported success the file holds the old text with
    the version in place of that token, the first occurrence of the new
    text is at the same place with the version as its token, [extract]
    calls back with the version and no error and leaves the object as it
    is, and a second change leaves the file system as it is. *)
Theorem change_then_extract_pattern (fs fs' : filesystem) (this : Version)
    (v s : str) (i j k : nat) :
  pattern_embedded this →
  version this = Some v →
  is_Some (Semver.valid (VString v)) →
  token_shape v →
  read_text fs (file this) = inr s →
  first_occurrence s i j k →
  (45%N ∈ v ↔ 45%N ∈ substring s j k) →
  change fs this = Normal (None, fs') →
  read_text fs' (file this) = inr (take j s ++ v ++ drop k s)
  ∧ first_occurrence (take j s ++ v ++ drop k s) i j (j + length v)
  ∧ extract fs' this = Normal ((None, Some v), this)
  ∧ change fs' this = Normal (None, fs').
Proof.
  intros Hpat Hv Hvalid Hshape Hread Hfirst Hdash Hch.
  destruct (pattern_round_trip this v s i j k Hpat Hv Hvalid Hshape Hfirst Hdash)
    as (Hch1 & Hfirst' & Hex & Hch2).
  destruct Hpat as [Hext Hty].
  destruct (change_ok_file _ _ _ Hch) as (text & Hturn & Hfile).
  rewrite (change_on_read_text_file _ _ _ Hext Hread), Hch1 in Hturn.
  cbn in Hturn. injection Hturn as <-.
  assert (well_formed_utf16 s = true) as Hs.
  { apply read_text_Some in Hread as (f & _ & _ & ->). apply toString_well_formed. }
  assert (j ≤ k) as Hjk.
  { destruct Hfirst as [[(? & ? & ?) _ _ _ _ _] _]. lia. }
  destruct (token_frame s v j k Hs Hjk) as (_ & Hwf & _).
  { by destruct Hfirst as [[] _]. }
  { by apply well_formed_utf16_plain, valid_units. }
  assert (read_text fs' (file this) = inr (take j s ++ v ++ drop k s)) as Hread'.
  { unfold read_text, fs_readFile. rewrite Hfile. simpl.
    by rewrite toString_Buffer_from. }
  split; [done|]. split; [done|]. split.
  - unfold extract. rewrite (readFile_text _ _ _ Hext Hread'), Hex. by rewrite Hv.
  - apply (change_same_text _ _ _ Hfile).
    by rewrite (change_on_read_text_file _ _ _ Hext Hread'), Hch2.
Qed.

(** Writing a version into a plain version file and reading it back.
    After a change that reported success the file holds exactly the stored
    version, and [extract] calls back without an error with the version
    trimmed of the white space at its ends, which it stores; a stored
    version without white space at its ends is read back as it is, the
    object unchanged. *)
Theorem change_then_extract_plain (fs fs' : filesystem) (this : Version)
    (v : str) :
  str_eqb (Path.extname (file this)) (lit ".json") = false →
  is_VERSION_type this = true →
  version this = Some v →
  is_Some (Semver.valid (VString v)) →
  change fs this = Normal (None, fs') →
  read_text fs' (file this) = inr v
  ∧ extract fs' this
    = Normal ((None, Some (trim v)), set_version this (Some (trim v)))
  ∧ ((∀ c, head v = Some c → is_space c = false) →
     (∀ c, last v = Some c → is_space c = false) →
     extract fs' this = Normal ((None, Some v), this)).
Proof.
  intros Hext Hty Hv Hvalid Hch.
  destruct (change_ok_file _ _ _ Hch) as (text & Hturn & Hfile).
  destruct (change_on_read_Writes _ _ _ Hturn) as (f & Hf & Hrd).
  assert (read_text fs (file this) = inr (toString (content f))) as Hread.
  { unfold read_text, fs_readFile. by rewrite Hf, Hrd. }
  rewrite (change_on_read_text_file _ _ _ Hext Hread) in Hturn.
  destruct (plain_round_trip this v (VString (toString (content f))) (VString v)
              Hty eq_refl Hv Hvalid) as (_ & Hex & Hid).
  { unfold _change. cbn [typeof_object]. by rewrite Hty, Hv. }
  assert (text = v) as ->.
  { unfold _change in Hturn. cbn [typeof_object] in Hturn.
    rewrite Hty, Hv in Hturn. cbn in Hturn. by injection Hturn as <-. }
  assert (read_text fs' (file this) = inr v) as Hread'.
  { unfold read_text, fs_readFile. rewrite Hfile. simpl.
    by rewrite toString_Buffer_from by (by apply well_formed_utf16_plain, valid_units). }
  split; [done|]. unfold extract. rewrite (readFile_text _ _ _ Hext Hread').
  split.
  - by rewrite Hex.
  - intros Hh Hl. by rewrite (Hid Hh Hl), Hv.
Qed.

(** A stored version without a dollar sign is written as it is, valid or
    not: on a pattern-embedded file that holds the pattern, the change puts
    it in place of the token of the first occurrence. *)
Theorem change_writes_plain_version (fs : filesystem) (this : Version)
    (v s : str) (i j k : nat) :
  pattern_embedded this →
  version this = Some v →
  dollar ∉ v →
  read_text fs (file this) = inr s →
  first_occurrence s i j k →
  _change this (VString s) = Normal (VString (take j s ++ v ++ drop k s))
  ∧ change fs this
    = Normal (fs_writeFile fs (file this) (take j s ++ v ++ drop k s)).
Proof.
  intros [Hext Hty] Hv Hdollar Hread Hfirst.
  assert (i ≤ j) as Hij.
  { destruct Hfirst as [[(? & ? & ?) _ _ _ _ _] _]. lia. }
  pose proof (_change_pattern this s Hty) as Hch.
  rewrite (first_occurrence_find _ _ _ _ Hfirst), Hv in Hch.
  assert (replacement_text s i j k (prim_to_string (of_option (Some v))) = v)
    as Htext.
  { unfold replacement_text. by apply get_substitution_plain. }
  rewrite Htext, app_assoc, take_substring in Hch by done.
  split; [done|]. unfold change.
  by rewrite (change_on_read_text_file _ _ _ Hext Hread), Hch.
Qed.

End FileRoundTrip.

Section FileRoundTripExamples.
Local Open Scope nat_scope.

Lemma change_then_extract_pattern_witness :
  extract (H := example_JSON)
    (<[lit "version.js" := text_file (lit "const VERSION = '1.3.0'")]>
       example_fs)
    (new_Version (lit "version.js")
       (Some (mkOptions (Some (lit "1.3.0")) None None)))
  = Normal ((None, Some (lit "1.3.0")),
            new_Version (lit "version.js")
              (Some (mkOptions (Some (lit "1.3.0")) None None))).
Proof.
  refine (proj1 (proj2 (proj2 (@change_then_extract_pattern example_JSON
            example_fs _
            (new_Version (lit "version.js")
               (Some (mkOptions (Some (lit "1.3.0")) None None)))
            (lit "1.3.0") (lit "const VERSION = '1.2.3'") 6 17 22
            _ _ _ _ _ _ _ _)))).
  - split; reflexivity.
  - reflexivity.
  - vm_compute. eexists. reflexivity.
  - exists (lit "1"), (lit "3"), (lit "0"), []. split; [reflexivity|].
    repeat split; try done; try (by repeat constructor); try (by left).
  - reflexivity.
  - apply find_version_first. vm_compute. reflexivity.
  - split; intros Hin; exfalso; revert Hin; apply (bool_decide_unpack _);
      vm_compute; exact I.
  - reflexivity.
Defined.

Lemma change_then_extract_plain_witness :
  extract (H := example_JSON)
    (<[lit "VERSION" := text_file (lit "1.3.0")]> example_fs)
    (new_Version (lit "VERSION")
       (Some (mkOptions (Some (lit "1.3.0")) None None)))
  = Normal ((None, Some (lit "1.3.0")),
            set_version
              (new_Version (lit "VERSION")
                 (Some (mkOptions (Some (lit "1.3.0")) None None)))
              (Some (lit "1.3.0"))).
Proof.
  refine (proj1 (proj2 (@change_then_extract_plain example_JSON
            example_fs _
            (new_Version (lit "VERSION")
               (Some (mkOptions (Some (lit "1.3.0")) None None)))
            (lit "1.3.0") _ _ _ _ _))).
  - reflexivity.
  - reflexivity.
  - reflexivity.
  - vm_compute. eexists. reflexivity.
  - reflexivity.
Defined.

Lemma change_writes_plain_version_witness :
  _change (new_Version (lit "version.js")
             (Some (mkOptions (Some (lit "abc")) None None)))
    (VString (lit "const VERSION = '1.2.3'"))
  = Normal (VString (lit "const VERSION = 'abc'")).
Proof.
  refine (proj1 (@change_writes_plain_version example_JSON example_fs
            (new_Version (lit "version.js")
               (Some (mkOptions (Some (lit "abc")) None None)))
            (lit "abc") (lit "const VERSION = '1.2.3'") 6 17 22 _ _ _ _ _)).
  - split; reflexivity.
  - reflexivity.
  - apply (bool_decide_unpack _). vm_compute. exact I.
  - reflexivity.
  - apply find_version_first. vm_compute. reflexivity.
Defined.

End FileRoundTripExamples.

Section ExtractFailure.
Context `{JSON}.
Local Open Scope nat_scope.

Lemma Normal_inj {A} (a b : A) : Normal a = Normal b → a = b.
Proof. by intros [= ->]. Qed.

Lemma _extract_candidate this data r :
  _extract this data = Normal r → ∃ candidate, r = setVersion this candidate.
Proof.
  unfold _extract. destruct (typeof_object data).
  - destruct (get_version data) as [ver|]; [|done]. intros Hr%Normal_inj.
    by exists ver.
  - destruct (is_VERSION_type this).
    + destruct data; try done. intros Hr%Normal_inj. by eexists.
    + intros Hr%Normal_inj. by eexists.
Qed.

Lemma setVersion_error this x err this' :
  setVersion this x = (Some err, this') →
  err = BadSemverVersion x ∧ Semver.valid x = None ∧ this' = set_version this None.
Proof.
  unfold setVersion. destruct x; try (by intros [= <- <-]).
  destruct (Semver.valid (VString s)) eqn:Hv; [done|]. by intros [= <- <-].
Qed.

(** The two ways [extract] calls back with an error.  When the file cannot
    be read (or its JSON text does not parse), the error is the read's, the
    version passed along is the one stored before, and the object is left
    as it is.  When the candidate found in the data is not a valid version,
    the error is 'Bad semver version', the version passed along is
    undefined, and a version stored before is lost. *)
Theorem extract_failure (fs : filesystem) (this this' : Version) (err : error)
    (ver : option str) :
  extract fs this = Normal ((Some err, ver), this') →
  (readFile fs this = inl err ∧ this' = this ∧ ver = version this)
  ∨ (∃ data candidate,
       readFile fs this = inr data
       ∧ _extract this data = Normal (setVersion this candidate)
       ∧ err = BadSemverVersion candidate
       ∧ Semver.valid candidate = None
       ∧ ver = None ∧ this' = set_version this None).
Proof.
  unfold extract. destruct (readFile fs this) as [e|data].
  - intros [= <- <- <-]. by left.
  - destruct (_extract this data) as [[e that]|e] eqn:Hex; [|done].
    intros [= -> <- ->]. right.
    destruct (_extract_candidate _ _ _ Hex) as [candidate Hset].
    rewrite Hset in Hex. symmetry in Hset.
    apply setVersion_error in Hset as (-> & Hvalid & ->).
    by exists data, candidate.
Qed.

End ExtractFailure.

Section ExtractFailureExample.
Local Open Scope nat_scope.

Lemma extract_failure_witness :
  (readFile (H := example_JSON) example_fs
     (new_Version (lit "README") (Some (mkOptions (Some (lit "1.0.0")) None None)))
   = inl (BadSemverVersion VUndefined)
   ∧ set_version
       (new_Version (lit "README") (Some (mkOptions (Some (lit "1.0.0")) None None)))
       None
     = new_Version (lit "README") (Some (mkOptions (Some (lit "1.0.0")) None None))
   ∧ None = Some (lit "1.0.0"))
  ∨ (∃ data candidate,
       readFile (H := example_JSON) example_fs
         (new_Version (lit "README") (Some (mkOptions (Some (lit "1.0.0")) None None)))
       = inr data
       ∧ _extract
           (new_Version (lit "README")
              (Some (mkOptions (Some (lit "1.0.0")) None None))) data
         = Normal (setVersion
                     (new_Version (lit "README")
                        (Some (mkOptions (Some (lit "1.0.0")) None None)))
                     candidate)
       ∧ BadSemverVersion VUndefined = BadSemverVersion candidate
       ∧ Semver.valid candidate = None
       ∧ None = @None str
       ∧ set_version
           (new_Version (lit "README")
              (Some (mkOptions (Some (lit "1.0.0")) None None))) None
         = set_version
             (new_Version (lit "README")
                (Some (mkOptions (Some (lit "1.0.0")) None None))) None).
Proof.
  apply (@extract_failure example_JSON example_fs
           (new_Version (lit "README")
              (Some (mkOptions (Some (lit "1.0.0")) None None)))).
  reflexivity.
Defined.

End ExtractFailureExample.

(** ** What [semver.valid] accepts *)

Section SemverGrammar.
Local Open Scope nat_scope.

Lemma elem_of_matches_seq r1 r2 s x y :
  y ∈ matches (r1 >> r2) s x ↔ ∃ z, z ∈ matches r1 s x ∧ y ∈ matches r2 s z.
Proof.
  simpl. rewrite list_elem_of_bind. split; intros (z & ? & ?); by exists z.
Qed.

Lemma elem_of_matches_alt r1 r2 s x y :
  y ∈ matches (Alt r1 r2) s x ↔ y ∈ matches r1 s x ∨ y ∈ matches r2 s x.
Proof. simpl. apply elem_of_app. Qed.

Lemma elem_of_matches_opt r s x y :
  y ∈ matches (Opt r) s x ↔ y ∈ matches r s x ∨ y = x.
Proof.
  unfold Opt. rewrite elem_of_matches_alt. simpl. by rewrite list_elem_of_singleton.
Qed.

Lemma elem_of_matches_charset p s x y :
  y ∈ matches (CharSet p) s x ↔
  ∃ c, s !! endIndex x = Some c ∧ p c = true
       ∧ y = MState (S (endIndex x)) (captures x).
Proof.
  simpl. destruct (s !! endIndex x) as [c|]; [destruct (p c) eqn:Hp|].
  - rewrite list_elem_of_singleton. split; [intros ->; by exists c|].
    by intros (? & _ & _ & ->).
  - split; [by intros ?%elem_of_nil|]. intros (? & [= <-] & ? & _). congruence.
  - split; [by intros ?%elem_of_nil|]. by intros (? & ? & _).
Qed.

Lemma elem_of_matches_chr c s x y :
  y ∈ matches (Chr c) s x ↔
  s !! endIndex x = Some c ∧ y = MState (S (endIndex x)) (captures x).
Proof.
  unfold Chr. rewrite elem_of_matches_charset. split.
  - by intros (d & Hd & ->%N.eqb_eq & ->).
  - intros [? ->]. exists c. by rewrite N.eqb_refl.
Qed.

Lemma elem_of_matches_group i r s x y :
  y ∈ matches (Group i r) s x ↔
  ∃ z, z ∈ matches r s x
       ∧ y = MState (endIndex z)
               (<[i := Some (endIndex x, endIndex z)]> (captures z)).
Proof.
  simpl. rewrite list_elem_of_fmap. split; intros (z & ? & ?); by exists z.
Qed.

Lemma elem_of_matches_start s x y :
  y ∈ matches InputStart s x ↔ endIndex x = 0 ∧ y = x.
Proof.
  simpl. case_bool_decide.
  - rewrite list_elem_of_singleton. split; [done|by intros [_ ->]].
  - split; [by intros ?%elem_of_nil|]. by intros [? _].
Qed.

Lemma elem_of_matches_end s x y :
  y ∈ matches InputEnd s x ↔ endIndex x = length s ∧ y = x.
Proof.
  simpl. case_bool_decide.
  - rewrite list_elem_of_singleton. split; [done|by intros [_ ->]].
  - split; [by intros ?%elem_of_nil|]. by intros [? _].
Qed.

Lemma elem_of_matches_star_self g r s x : x ∈ matches (Star g r) s x.
Proof.
  simpl. destruct (length s - endIndex x) as [|fuel]; simpl.
  - by apply list_elem_of_singleton.
  - destruct g; [apply elem_of_app; right; by apply list_elem_of_singleton|].
    by left.
Qed.

Lemma stretch_span p s e e' :
  stretch p s e e' ↔ e ≤ e' ≤ e + span p (drop e s).
Proof.
  split.
  - intros Hst. pose proof Hst as [Hle Hall]. split; [done|].
    destruct (decide (e = e')) as [->|Hne]; [lia|].
    destruct (Hall (e' - 1)) as (c & Hc%lookup_lt_Some & _); [lia|].
    assert (e' - e ≤ span p (drop e s)); [|lia].
    apply span_take_all; [rewrite length_drop; lia|].
    by apply stretch_substring in Hst.
  - intros Hle. split; [lia|]. intros k Hk. apply (lookup_in_span p s e). lia.
Qed.

Lemma stretch_step p s e e' :
  e < e' → stretch p s e e' →
  ∃ c, s !! e = Some c ∧ p c = true ∧ stretch p s (S e) e'.
Proof.
  intros Hlt [_ Hall]. destruct (Hall e) as (c & Hc & Hp); [lia|].
  exists c. split; [done|]. split; [done|]. split; [lia|].
  intros k Hk. apply Hall. lia.
Qed.

Lemma stretch_cons p s e e' c :
  s !! e = Some c → p c = true → stretch p s (S e) e' → stretch p s e e'.
Proof.
  intros Hc Hp [Hle Hall]. split; [lia|]. intros k Hk.
  destruct (decide (k = e)) as [->|Hne]; [by exists c|]. apply Hall. lia.
Qed.

(** A run ends where the next code unit, if any, is outside the class. *)
Lemma run_end_unique p s e e1 :
  stretch p s e e1 → (∀ c, s !! e1 = Some c → p c = false) →
  e1 = e + span p (drop e s).
Proof.
  intros Hst%stretch_span Hstop.
  destruct (decide (e1 = e + span p (drop e s))) as [|Hne]; [done|].
  destruct (lookup_in_span p s e e1) as (c & Hc & Hp); [lia|].
  rewrite (Hstop c Hc) in Hp. done.
Qed.

Lemma elem_of_matches_star_charset p g s x y :
  y ∈ matches (Star g (CharSet p)) s x ↔
  captures y = captures x ∧ stretch p s (endIndex x) (endIndex y).
Proof.
  destruct x as [e caps]. rewrite matches_star_charset, stretch_span.
  cbn [endIndex captures]. rewrite list_elem_of_fmap. unfold at_index. split.
  - intros (k & -> & Hk). simpl. split; [done|].
    destruct g; [rewrite elem_of_reverse in Hk|]; apply elem_of_seq in Hk; lia.
  - intros [Hc Hk]. exists (endIndex y). split; [destruct y; simpl in *; by subst|].
    destruct g; [rewrite elem_of_reverse|]; apply elem_of_seq; lia.
Qed.

Lemma elem_of_matches_numeric s x y :
  y ∈ matches Semver.NUMERICIDENTIFIER s x ↔
  captures y = captures x ∧ endIndex x < endIndex y
  ∧ stretch is_digit s (endIndex x) (endIndex y)
  ∧ (s !! endIndex x = Some 48%N → endIndex y = S (endIndex x)).
Proof.
  unfold Semver.NUMERICIDENTIFIER, Semver.digit.
  rewrite elem_of_matches_alt, elem_of_matches_chr, elem_of_matches_seq. split.
  - intros [[Hc ->]|(z & Hz & Hy)].
    + simpl. split; [done|]. split; [lia|]. split; [|done].
      eapply stretch_cons; [done..|apply stretch_refl].
    + apply elem_of_matches_charset in Hz as (c & Hc & Hp & ->).
      apply elem_of_matches_star_charset in Hy as [Hcaps Hst]. simpl in *.
      pose proof Hst as [Hle _].
      apply andb_true_iff in Hp as [H1%N.leb_le H2%N.leb_le].
      split; [done|]. split; [lia|]. split.
      * eapply stretch_cons; [done| |done]. unfold is_digit.
        apply andb_true_iff. split; apply N.leb_le; lia.
      * rewrite Hc. intros [= ->]. lia.
  - intros (Hcaps & Hlt & Hst & Hzero).
    destruct (stretch_step _ _ _ _ Hlt Hst) as (c & Hc & Hp & Hst').
    destruct (decide (c = 48%N)) as [->|Hne].
    + left. split; [done|]. destruct y as [e' caps']. simpl in *.
      by rewrite (Hzero Hc), Hcaps.
    + right. exists (MState (S (endIndex x)) (captures x)). split.
      * apply elem_of_matches_charset. exists c. split; [done|]. split; [|done].
        unfold is_digit in Hp. apply andb_true_iff in Hp as [H1%N.leb_le H2%N.leb_le].
        apply andb_true_iff. split; apply N.leb_le; lia.
      * by apply elem_of_matches_star_charset.
Qed.

(** Matching leaves the captures of the groups a pattern does not have. *)
Lemma matches_keeps r s x y i :
  has_group r i = false → y ∈ matches r s x →
  captures y !! i = captures x !! i.
Proof.
  revert x y. induction r as [|p|r1 IH1 r2 IH2|r1 IH1 r2 IH2|g r IH|j r IH| | |];
    intros x y Hg; simpl in Hg; simpl.
  - by intros ->%list_elem_of_singleton.
  - destruct (s !! endIndex x) as [c|]; [|by intros ?%elem_of_nil].
    destruct (p c); [|by intros ?%elem_of_nil].
    by intros ->%list_elem_of_singleton.
  - apply orb_false_iff in Hg as [Hg1 Hg2].
    intros (z & Hy & Hz)%list_elem_of_bind.
    by rewrite (IH2 z y Hg2 Hy), (IH1 x z Hg1 Hz).
  - apply orb_false_iff in Hg as [Hg1 Hg2].
    intros [Hy|Hy]%elem_of_app; auto.
  - apply (repeat_matcher_captures
             (fun z => captures z !! i = captures x !! i)); [|done].
    intros x' y' Hx' Hy'. by rewrite (IH x' y' Hg Hy').
  - apply orb_false_iff in Hg as [Hij%Nat.eqb_neq Hg].
    intros (z & -> & Hz)%list_elem_of_fmap. simpl.
    rewrite list_lookup_insert_ne by done. by apply IH.
  - destruct (at_word_boundary _ _); [|by intros ?%elem_of_nil].
    by intros ->%list_elem_of_singleton.
  - case_bool_decide; [|by intros ?%elem_of_nil].
    by intros ->%list_elem_of_singleton.
  - case_bool_decide; [|by intros ?%elem_of_nil].
    by intros ->%list_elem_of_singleton.
Qed.

Lemma matches_length r s x y :
  y ∈ matches r s x → length (captures y) = length (captures x).
Proof.
  revert x y. induction r as [|p|r1 IH1 r2 IH2|r1 IH1 r2 IH2|g r IH|j r IH| | |];
    intros x y; simpl.
  - by intros ->%list_elem_of_singleton.
  - destruct (s !! endIndex x) as [c|]; [|by intros ?%elem_of_nil].
    destruct (p c); [|by intros ?%elem_of_nil].
    by intros ->%list_elem_of_singleton.
  - intros (z & Hy & Hz)%list_elem_of_bind.
    by rewrite (IH2 z y Hy), (IH1 x z Hz).
  - intros [Hy|Hy]%elem_of_app; auto.
  - apply (repeat_matcher_captures
             (fun z => length (captures z) = length (captures x))); [|done].
    intros x' y' Hx' Hy'. by rewrite (IH x' y' Hy').
  - intros (z & -> & Hz)%list_elem_of_fmap. simpl.
    rewrite length_insert. by apply IH.
  - destruct (at_word_boundary _ _); [|by intros ?%elem_of_nil].
    by intros ->%list_elem_of_singleton.
  - case_bool_decide; [|by intros ?%elem_of_nil].
    by intros ->%list_elem_of_singleton.
  - case_bool_decide; [|by intros ?%elem_of_nil].
    by intros ->%list_elem_of_singleton.
Qed.

End SemverGrammar.

Section SemverAccepts.
Local Open Scope nat_scope.

Lemma matches_first_chr c r s x y :
  y ∈ matches (Chr c >> r) s x → s !! endIndex x = Some c.
Proof.
  intros (z & Hz & _)%elem_of_matches_seq.
  by apply elem_of_matches_chr in Hz as [? _].
Qed.

(** What a match of [FULL] looks like: an optional [v], three runs of
    digits with dots between, captured as the groups 1 to 3, and then the
    end of the input, a dash or a plus sign. *)
Lemma matches_FULL_inv s x y :
  3 < length (captures x) →
  y ∈ matches Semver.FULL s x →
  ∃ o e1 e2 e3,
    endIndex x = 0 ∧ (o = 0 ∨ (o = 1 ∧ s !! 0 = Some 118%N))
    ∧ o < e1 ∧ stretch is_digit s o e1 ∧ s !! e1 = Some 46%N
    ∧ (s !! o = Some 48%N → e1 = S o)
    ∧ S e1 < e2 ∧ stretch is_digit s (S e1) e2 ∧ s !! e2 = Some 46%N
    ∧ (s !! S e1 = Some 48%N → e2 = S (S e1))
    ∧ S e2 < e3 ∧ stretch is_digit s (S e2) e3
    ∧ (s !! S e2 = Some 48%N → e3 = S (S e2))
    ∧ (e3 = length s ∨ s !! e3 = Some 45%N ∨ s !! e3 = Some 43%N)
    ∧ captures y !! 1 = Some (Some (o, e1))
    ∧ captures y !! 2 = Some (Some (S e1, e2))
    ∧ captures y !! 3 = Some (Some (S e2, e3)).
Proof.
  intros Hlen. unfold Semver.FULL, Semver.FULLPLAIN, Semver.MAINVERSION.
  intros (x0 & [H0 ->]%elem_of_matches_start & Hy)%elem_of_matches_seq.
  apply elem_of_matches_seq in Hy as (y1 & Hy & [Hend ->]%elem_of_matches_end).
  apply elem_of_matches_seq in Hy as (xo & Hv & Hy).
  apply elem_of_matches_seq in Hy as (z3 & Hmain & Hrest).
  apply elem_of_matches_seq in Hmain as (z1 & Hg1 & Hmain).
  apply elem_of_matches_seq in Hmain as (d1 & [Hd1 ->]%elem_of_matches_chr & Hmain).
  apply elem_of_matches_seq in Hmain as (z2 & Hg2 & Hmain).
  apply elem_of_matches_seq in Hmain as (d2 & [Hd2 ->]%elem_of_matches_chr & Hg3).
  apply elem_of_matches_group in Hg1 as (n1 & Hn1 & ->).
  apply elem_of_matches_group in Hg2 as (n2 & Hn2 & ->).
  apply elem_of_matches_group in Hg3 as (n3 & Hn3 & ->).
  apply elem_of_matches_numeric in Hn1 as (Hc1 & Hlt1 & Hst1 & Hz1).
  apply elem_of_matches_numeric in Hn2 as (Hc2 & Hlt2 & Hst2 & Hz2).
  apply elem_of_matches_numeric in Hn3 as (Hc3 & Hlt3 & Hst3 & Hz3).
  cbn [endIndex captures] in *.
  assert (length (captures xo) = length (captures x)) as Hlo.
  { apply elem_of_matches_opt in Hv as [[_ ->]%elem_of_matches_chr| ->]; done. }
  exists (endIndex xo), (endIndex n1), (endIndex n2), (endIndex n3).
  split; [done|]. split.
  { apply elem_of_matches_opt in Hv as [[Hv ->]%elem_of_matches_chr| ->].
    - right. simpl. rewrite H0 in *. done.
    - by left. }
  do 11 (split; [done|]). split.
  { apply elem_of_matches_seq in Hrest as (z4 & Hpre & Hbuild).
    cbn [endIndex captures] in *.
    apply elem_of_matches_opt in Hpre as [Hpre| ->].
    - right. left. by apply matches_first_chr in Hpre.
    - apply elem_of_matches_opt in Hbuild as [Hbuild| ->].
      + right. right. by apply matches_first_chr in Hbuild.
      + by left. }
  assert (∀ i, has_group (Opt Semver.PRERELEASE >> Opt Semver.BUILD) i = false →
               captures y1 !! i
               = (<[3:=Some (S (endIndex n2), endIndex n3)]> (captures n3)) !! i)
    as Hkeep.
  { intros i Hi. by apply (matches_keeps _ _ _ _ _ Hi Hrest). }
  rewrite !Hkeep by done. rewrite Hc3, Hc2, Hc1.
  repeat split; rewrite ?list_lookup_insert_ne by done;
    apply list_lookup_insert_eq; rewrite ?length_insert; lia.
Qed.

End SemverAccepts.

Section SemverShape.
Local Open Scope nat_scope.

Lemma run_digits s e e' :
  e < e' → stretch is_digit s e e' →
  (s !! e = Some 48%N → e' = S e) →
  numeral (substring s e e') ∧ e' ≤ length s.
Proof.
  intros Hlt Hst Hzero. pose proof Hst as [_ Hall].
  destruct (Hall (e' - 1)) as (c & Hc%lookup_lt_Some & _); [lia|].
  assert (e' ≤ length s) as Hle by lia. split; [|done].
  assert (substring s e e' ≠ []) as Hne.
  { intros Heq. pose proof (substring_length s e e') as Hl.
    rewrite Heq in Hl. simpl in Hl. lia. }
  split; [split; [done|by apply stretch_substring]|].
  intros Hh. assert (s !! e = Some 48%N) as H0.
  { unfold substring in Hh. rewrite head_lookup in Hh.
    rewrite lookup_take_lt in Hh by lia. rewrite lookup_drop in Hh.
    by rewrite Nat.add_0_r in Hh. }
  rewrite (Hzero H0). by apply substring_one.
Qed.

(** What [FULL] asks of its input, and what it captures. *)
Lemma FULL_match_shape s m :
  exec Semver.FULL 5 s = Some m →
  ∃ a b c rest,
    (s = a ++ [46%N] ++ b ++ [46%N] ++ c ++ rest
     ∨ s = 118%N :: a ++ [46%N] ++ b ++ [46%N] ++ c ++ rest)
    ∧ numeral a ∧ numeral b ∧ numeral c
    ∧ (rest = [] ∨ head rest = Some 45%N ∨ head rest = Some 43%N)
    ∧ capture s m 1 = Some a ∧ capture s m 2 = Some b ∧ capture s m 3 = Some c.
Proof.
  intros Hm%exec_elem.
  apply matches_FULL_inv in Hm
    as (o & e1 & e2 & e3 & _ & Ho & Hlt1 & Hst1 & Hd1 & Hz1 & Hlt2 & Hst2 & Hd2
        & Hz2 & Hlt3 & Hst3 & Hz3 & Hend & Hc1 & Hc2 & Hc3);
    [|simpl; lia].
  destruct (run_digits _ _ _ Hlt1 Hst1 Hz1) as [Ha _].
  destruct (run_digits _ _ _ Hlt2 Hst2 Hz2) as [Hb _].
  destruct (run_digits _ _ _ Hlt3 Hst3 Hz3) as [Hc Hle3].
  exists (substring s o e1), (substring s (S e1) e2), (substring s (S e2) e3),
    (drop e3 s).
  assert (drop o s
          = substring s o e1 ++ [46%N] ++ substring s (S e1) e2 ++ [46%N]
            ++ substring s (S e2) e3 ++ drop e3 s) as Hsplit.
  { rewrite (drop_substring s o e1) by lia.
    rewrite (drop_lookup_cons _ _ _ Hd1).
    rewrite (drop_substring s (S e1) e2) by lia.
    rewrite (drop_lookup_cons _ _ _ Hd2).
    rewrite (drop_substring s (S e2) e3) by lia.
    done. }
  split.
  { destruct Ho as [->|[-> Hv]].
    - left. by rewrite <- Hsplit.
    - right. rewrite <- Hsplit. by rewrite <- (drop_lookup_cons _ _ _ Hv). }
  do 3 (split; [done|]). split.
  { destruct Hend as [->|[H45|H43]].
    - left. by apply drop_all.
    - right. left. by rewrite (drop_lookup_cons _ _ _ H45).
    - right. right. by rewrite (drop_lookup_cons _ _ _ H43). }
  unfold capture. by rewrite Hc1, Hc2, Hc3.
Qed.

Lemma SemVer_new_lenient v sv :
  Semver.SemVer_new v false = Some sv → lenient_version v.
Proof.
  unfold Semver.SemVer_new. case_bool_decide as Hlen; [done|].
  destruct (exec Semver.FULL 5 (trim v)) as [m|] eqn:Hm; [|done].
  cbn [mbind option_bind].
  destruct (FULL_match_shape _ _ Hm)
    as (a & b & c & rest & Hs & Ha & Hb & Hc & Hrest & -> & -> & ->).
  cbn [mbind option_bind fmap option_fmap option_map].
  destruct (_ || _) eqn:Hmax; [done|]. intros _.
  apply orb_false_iff in Hmax as [Hmax H3%N.ltb_ge].
  apply orb_false_iff in Hmax as [H1%N.ltb_ge H2%N.ltb_ge].
  exists a, b, c, rest. split; [done|]. do 4 (split; [done|]).
  split; [done|]. split; [done|]. split; [done|]. lia.
Qed.

Lemma valid_lenient v : is_Some (Semver.valid (VString v)) → lenient_version v.
Proof.
  intros [w Hw]. unfold Semver.valid in Hw. simpl in Hw.
  destruct (Semver.SemVer_new v false) as [sv|] eqn:Hsv; [|done].
  by eapply SemVer_new_lenient.
Qed.

End SemverShape.

Section SemverStrict.
Local Open Scope nat_scope.

Lemma drop_tail (s : str) e c t : drop e s = c :: t → drop (S e) s = t.
Proof.
  intros Hd. replace (S e) with (e + 1) by lia. rewrite <- drop_drop.
  by rewrite Hd.
Qed.

Lemma stretch_run p s e w post :
  drop e s = w ++ post → Forall (fun c => p c = true) w →
  stretch p s e (e + length w).
Proof.
  intros Hd Hw. apply stretch_span. rewrite Hd, span_prefix by done. lia.
Qed.

Lemma stretch_from p s a a' b : stretch p s a b → a ≤ a' ≤ b → stretch p s a' b.
Proof.
  intros [_ Hall] Hle. split; [lia|]. intros k Hk. apply Hall. lia.
Qed.

Lemma exec_of_elem r n s y :
  y ∈ matches r s (MState 0 (replicate (S n) None)) → is_Some (exec r n s).
Proof.
  intros Hy. unfold exec. cbn [seq omap list_omap]. unfold match_at at 1.
  destruct (matches r s (MState 0 (replicate (S n) None))) as [|z l];
    [by apply elem_of_nil in Hy|].
  cbn [head fmap option_fmap option_map]. by eexists.
Qed.

Lemma matches_numeral s e w post caps :
  numeral w → drop e s = w ++ post →
  MState (e + length w) caps ∈ matches Semver.NUMERICIDENTIFIER s (MState e caps).
Proof.
  intros [[Hne Hall] Hzero] Hd. apply elem_of_matches_numeric.
  cbn [endIndex captures]. split; [done|].
  destruct w as [|d w]; [done|]. split; [simpl; lia|]. split.
  - by eapply stretch_run.
  - rewrite (lookup_drop_head _ _ _ _ Hd). intros [= ->].
    rewrite (Hzero eq_refl). simpl. lia.
Qed.

Lemma letter_of_alnum c :
  is_alnum c = true → is_digit c = false → Semver.is_letter_dash c = true.
Proof.
  unfold is_alnum, Semver.is_letter_dash. intros Ha Hd. rewrite Hd in Ha.
  rewrite orb_false_r in Ha. by rewrite Ha.
Qed.

Lemma letter_dash_number_of_alnum c :
  is_alnum c = true → Semver.is_letter_dash_number c = true.
Proof. unfold Semver.is_letter_dash_number. by intros ->. Qed.

(** An alphanumeric identifier that is no numeral with a leading zero is a
    prerelease identifier. *)
Lemma matches_identifier s e caps :
  e < length s →
  Forall (fun u => is_alnum u = true) (drop e s) →
  (Forall (fun u => is_digit u = true) (drop e s) → numeral (drop e s)) →
  MState (length s) caps
  ∈ matches Semver.PRERELEASEIDENTIFIER s (MState e caps).
Proof.
  intros He Hall Hnum. unfold Semver.PRERELEASEIDENTIFIER.
  apply elem_of_matches_alt.
  pose proof (span_le is_digit (drop e s)) as Hle. rewrite length_drop in Hle.
  destruct (decide (e + span is_digit (drop e s) = length s)) as [Hn|Hn].
  - left. assert (Forall (fun u => is_digit u = true) (drop e s)) as Hdig.
    { pose proof (span_all is_digit (drop e s)) as Hsp.
      rewrite take_ge in Hsp; [done|]. rewrite length_drop. lia. }
    pose proof (matches_numeral s e (drop e s) [] caps (Hnum Hdig)) as Hm.
    rewrite app_nil_r, length_drop in Hm.
    replace (e + (length s - e)) with (length s) in Hm by lia. by apply Hm.
  - right. unfold Semver.NONNUMERICIDENTIFIER, Semver.digit.
    destruct (lookup_lt_is_Some_2 (drop e s) (span is_digit (drop e s)))
      as [l Hl]; [rewrite length_drop; lia|].
    pose proof (span_stop _ _ _ Hl) as Hnd.
    assert (is_alnum l = true) as Hal.
    { rewrite Forall_lookup in Hall. by eapply Hall. }
    rewrite lookup_drop in Hl.
    apply elem_of_matches_seq.
    exists (MState (e + span is_digit (drop e s)) caps). split.
    { apply elem_of_matches_star_charset. split; [done|].
      apply stretch_span. cbn [endIndex]. lia. }
    apply elem_of_matches_seq.
    exists (MState (S (e + span is_digit (drop e s))) caps). split.
    { apply elem_of_matches_charset. exists l. split; [done|].
      split; [by apply letter_of_alnum|done]. }
    apply elem_of_matches_star_charset. split; [done|]. cbn [endIndex].
    apply (stretch_from _ _ e); [|lia].
    eapply stretch_mono; [apply letter_dash_number_of_alnum|].
    pose proof (stretch_run is_alnum s e (drop e s) [] ) as Hst.
    rewrite app_nil_r, length_drop in Hst.
    replace (e + (length s - e)) with (length s) in Hst by lia. by apply Hst.
Qed.

Lemma matches_tail s e caps :
  e ≤ length s → prerelease_suffix (drop e s) →
  (∀ p, drop e s = 45%N :: p → Forall (fun u => is_digit u = true) p →
        numeral p) →
  ∃ y, y ∈ matches (Opt Semver.PRERELEASE >> Opt Semver.BUILD) s (MState e caps)
       ∧ endIndex y = length s.
Proof.
  intros Hle [Hx|(p & Hx & Hp & Hall)] Hnum.
  - exists (MState e caps). split.
    + apply elem_of_matches_seq. exists (MState e caps).
      split; apply elem_of_matches_opt; by right.
    + simpl. apply (f_equal length) in Hx. rewrite length_drop in Hx.
      simpl in Hx. lia.
  - pose proof (lookup_drop_head _ _ _ _ Hx) as H45.
    pose proof (drop_tail _ _ _ _ Hx) as Hd.
    assert (S e < length s ∨ S e = length s ∨ length s < S e) as [Hlt|[Heq|Hgt]]
      by lia.
    2: { rewrite drop_ge in Hd by lia. by subst p. }
    2: { rewrite drop_ge in Hd by lia. by subst p. }
    exists (MState (length s) (<[4 := Some (S e, length s)]> caps)). split; [|done].
    apply elem_of_matches_seq.
    exists (MState (length s) (<[4 := Some (S e, length s)]> caps)).
    split; [|apply elem_of_matches_opt; by right].
    apply elem_of_matches_opt. left. unfold Semver.PRERELEASE.
    apply elem_of_matches_seq. exists (MState (S e) caps).
    split; [by apply elem_of_matches_chr|].
    apply elem_of_matches_group. exists (MState (length s) caps).
    split; [|done]. apply elem_of_matches_seq. exists (MState (length s) caps).
    split; [|apply elem_of_matches_star_self].
    apply matches_identifier; [done|by rewrite Hd|].
    rewrite Hd. by apply Hnum.
Qed.

Lemma strict_version_matches a b c x :
  numeral a → numeral b → numeral c → prerelease_suffix x →
  (∀ p, x = 45%N :: p → Forall (fun u => is_digit u = true) p → numeral p) →
  ∃ y, y ∈ matches Semver.FULL (a ++ [46%N] ++ b ++ [46%N] ++ c ++ x)
             (MState 0 (replicate 6 None)).
Proof.
  intros Ha Hb Hc Hx Hnum.
  set (s := a ++ [46%N] ++ b ++ [46%N] ++ c ++ x).
  set (caps0 := replicate 6 None : list (option (nat * nat))).
  set (e1 := 0 + length a).
  set (caps1 := <[1 := Some (0, e1)]> caps0).
  set (e2 := S e1 + length b).
  set (caps2 := <[2 := Some (S e1, e2)]> caps1).
  set (e3 := S e2 + length c).
  set (caps3 := <[3 := Some (S e2, e3)]> caps2).
  assert (drop 0 s = a ++ [46%N] ++ b ++ [46%N] ++ c ++ x) as D0 by done.
  pose proof (drop_app_at _ _ _ _ D0) as D1. fold e1 in D1.
  pose proof (drop_tail _ _ _ _ D1) as D1'.
  pose proof (drop_app_at _ _ _ _ D1') as D2. fold e2 in D2.
  pose proof (drop_tail _ _ _ _ D2) as D2'.
  pose proof (drop_app_at _ _ _ _ D2') as D3. fold e3 in D3.
  assert (e3 ≤ length s) as Hle.
  { unfold e3, e2, e1, s. rewrite !length_app. simpl. lia. }
  destruct (matches_tail s e3 caps3 Hle) as (y & Hy & Hend);
    [by rewrite D3|by rewrite D3|].
  exists y. unfold Semver.FULL, Semver.FULLPLAIN, Semver.MAINVERSION.
  apply elem_of_matches_seq. exists (MState 0 caps0).
  split; [by apply elem_of_matches_start|].
  apply elem_of_matches_seq. exists y.
  split; [|by apply elem_of_matches_end].
  apply elem_of_matches_seq. exists (MState 0 caps0).
  split; [apply elem_of_matches_opt; by right|].
  apply elem_of_matches_seq. exists (MState e3 caps3). split; [|done].
  apply elem_of_matches_seq. exists (MState e1 caps1). split.
  { apply elem_of_matches_group. exists (MState e1 caps0). split; [|done].
    by apply (matches_numeral s 0 a _ caps0 Ha D0). }
  apply elem_of_matches_seq. exists (MState (S e1) caps1). split.
  { apply elem_of_matches_chr. split; [|done]. by eapply lookup_drop_head. }
  apply elem_of_matches_seq. exists (MState e2 caps2). split.
  { apply elem_of_matches_group. exists (MState e2 caps1). split; [|done].
    by apply (matches_numeral s (S e1) b _ caps1 Hb D1'). }
  apply elem_of_matches_seq. exists (MState (S e2) caps2). split.
  { apply elem_of_matches_chr. split; [|done]. by eapply lookup_drop_head. }
  apply elem_of_matches_group. exists (MState e3 caps2). split; [|done].
  by apply (matches_numeral s (S e2) c _ caps2 Hc D2').
Qed.

Lemma run_prefix_unique (p : N → bool) (w1 t1 w2 t2 : str) :
  w1 ++ t1 = w2 ++ t2 →
  Forall (fun c => p c = true) w1 → Forall (fun c => p c = true) w2 →
  (∀ c, head t1 = Some c → p c = false) →
  (∀ c, head t2 = Some c → p c = false) →
  w1 = w2 ∧ t1 = t2.
Proof.
  revert w2. induction w1 as [|c w1 IH]; intros [|d w2]; simpl;
    intros Heq H1 H2 Ht1 Ht2.
  - done.
  - subst t1. apply Forall_cons in H2 as [Hd _].
    by rewrite (Ht1 d eq_refl) in Hd.
  - subst t2. apply Forall_cons in H1 as [Hc _].
    by rewrite (Ht2 c eq_refl) in Hc.
  - injection Heq as -> Heq.
    apply Forall_cons in H1 as [_ H1]. apply Forall_cons in H2 as [_ H2].
    by destruct (IH w2 Heq H1 H2 Ht1 Ht2) as [-> ->].
Qed.

Lemma alnum_not_space c : is_alnum c = true → is_space c = false.
Proof.
  intros Hc. apply not_true_is_false. revert Hc.
  unfold is_alnum, is_lower, is_upper, is_digit, is_space.
  rewrite !orb_true_iff, !andb_true_iff, !N.leb_le, !N.eqb_eq. lia.
Qed.

Lemma strict_version_token v : strict_version v → token_shape v.
Proof.
  intros (a & b & c & x & -> & [Ha _] & [Hb _] & [Hc _] & Hx & _).
  by exists a, b, c, x.
Qed.

(** [semver.valid] accepts every strict version. *)
Lemma strict_version_valid v :
  strict_version v → is_Some (Semver.valid (VString v)).
Proof.
  intros Hv. pose proof (strict_version_token _ Hv) as Htok.
  destruct Hv as (a & b & c & x & Hs & Ha & Hb & Hc & Hx & Hnum & H1 & H2 & H3
                  & Hlen).
  assert (trim v = v) as Htrim.
  { destruct (token_shape_head _ Htok) as (d & Hd & Hdig).
    destruct (token_shape_last _ Htok) as (l & Hl & Hal).
    apply trim_id.
    - intros d'. rewrite Hd. intros [= <-].
      by apply alnum_not_space, digit_alnum.
    - intros l'. rewrite Hl. intros [= <-]. by apply alnum_not_space. }
  destruct (strict_version_matches a b c x Ha Hb Hc Hx Hnum) as (y & Hy).
  rewrite <- Hs in Hy. apply exec_of_elem in Hy as [m Hm].
  destruct (FULL_match_shape _ _ Hm)
    as (a' & b' & c' & rest & Hs' & Ha' & Hb' & Hc' & Hrest & Hc1 & Hc2 & Hc3).
  assert (∀ w, numeral w → Forall (fun u => is_digit u = true) w) as Hdig.
  { by intros w [[_ ?] _]. }
  assert (a' = a ∧ b' = b ∧ c' = c) as (-> & -> & ->).
  { destruct Hs' as [Hs'|Hs'].
    - rewrite Hs in Hs'.
      apply (run_prefix_unique is_digit) in Hs' as [-> Hs']; auto;
        [|by intros ? [= <-]..].
      injection Hs' as Hs'.
      apply (run_prefix_unique is_digit) in Hs' as [-> Hs']; auto;
        [|by intros ? [= <-]..].
      injection Hs' as Hs'.
      apply (run_prefix_unique is_digit) in Hs' as [-> Hs']; auto.
      + destruct Hx as [->|(p & -> & _)]; [done|]. by intros ? [= <-].
      + destruct Hrest as [->|[Hh|Hh]]; [done|..]; intros ?; rewrite Hh;
          by intros [= <-].
    - destruct Ha as [[Hne Hall] _]. destruct a as [|d a]; [done|].
      rewrite Hs in Hs'. injection Hs' as -> _.
      by apply Forall_cons in Hall as [? _]. }
  unfold Semver.valid, Semver.parse, Semver.SemVer_new.
  rewrite bool_decide_eq_false_2 by (unfold Semver.MAX_LENGTH in *; lia).
  cbv zeta. rewrite Htrim, Hm. cbn [mbind option_bind].
  rewrite Hc1, Hc2, Hc3. cbn [mbind option_bind fmap option_fmap option_map].
  replace (Semver.MAX_SAFE_INTEGER <? to_number a)%N with false
    by (symmetry; apply N.ltb_ge; lia).
  replace (Semver.MAX_SAFE_INTEGER <? to_number b)%N with false
    by (symmetry; apply N.ltb_ge; lia).
  replace (Semver.MAX_SAFE_INTEGER <? to_number c)%N with false
    by (symmetry; apply N.ltb_ge; lia).
  cbn [orb]. by eexists.
Qed.

End SemverStrict.

(** ** The stored version *)

Section SetVersionClaims.
Context `{JSON}.
Local Open Scope nat_scope.

Lemma token_shape_token_end w : token_shape w → token_end w 0 = Some (length w).
Proof.
  intros Hw.
  assert (substring w 0 (length w) = w) as Hsub.
  { unfold substring. by rewrite Nat.sub_0_r, drop_0, take_ge. }
  destruct (token_end_max w 0 (length w)) as (k & Hk & Hle);
    [lia|lia|by rewrite Hsub|].
  destruct (token_end_sound _ _ _ Hk) as (_ & Hk' & _).
  rewrite Hk. f_equal. lia.
Qed.

(** C2 (amended).  [setVersion] stores its argument as it is and returns no
    error when [semver.valid] accepts it, and otherwise returns the
    validation error and makes the stored version absent.  Every strict
    version is accepted: major.minor.patch with an optional prerelease
    identifier of alphanumerics, the numbers without a leading zero and not
    above the largest safe integer, the identifier no numeral with a
    leading zero, and no more than 256 code units in all.  Every string that
    is accepted begins, once trimmed and without a leading [v], with three
    such numbers with dots between and goes on with nothing, a dash or a
    plus sign.  The strings "1.2", "abc", the empty string and an absent
    value are not accepted. *)
Theorem setVersion_validates_with_semver :
  (∀ this x,
     (∃ v, x = VString v ∧ is_Some (Semver.valid x)
           ∧ setVersion this x = (None, set_version this (Some v)))
     ∨ (Semver.valid x = None
        ∧ setVersion this x
          = (Some (BadSemverVersion x), set_version this None)))
  ∧ (∀ this v, strict_version v →
       setVersion this (VString v) = (None, set_version this (Some v)))
  ∧ (∀ this x this', setVersion this x = (None, this') →
       ∃ v, x = VString v ∧ this' = set_version this (Some v)
            ∧ lenient_version v)
  ∧ Semver.valid (VString (lit "1.2")) = None
  ∧ Semver.valid (VString (lit "abc")) = None
  ∧ Semver.valid (VString []) = None
  ∧ Semver.valid VUndefined = None.
Proof.
  split; [|split; [|split]].
  - intros this x. destruct (Semver.valid x) as [w|] eqn:Hx.
    + left. destruct (valid_is_string _ _ Hx) as [v ->]. exists v.
      split; [done|]. split; [done|]. apply setVersion_valid.
      by rewrite Hx.
    + right. split; [done|]. by apply setVersion_invalid.
  - intros this v Hv. by apply setVersion_valid, strict_version_valid.
  - intros this x this' (v & -> & Hv & ->)%setVersion_ok. exists v.
    split; [done|]. split; [done|]. by apply valid_lenient.
  - repeat split; by vm_compute.
Qed.

Lemma _extract_pattern_shape this s err this' :
  is_VERSION_type this = false →
  _extract this (VString s) = Normal (err, this') → shape_or_absent this'.
Proof.
  intros Hty. rewrite (_extract_pattern this s Hty).
  destruct (find_version s) as [[i [j k]]|] eqn:Hfind.
  - apply find_version_Some in Hfind as [Hocc _]. unfold setVersion.
    destruct (Semver.valid _); intros [= _ <-]; [|done].
    unfold shape_or_absent. simpl. by destruct Hocc.
  - unfold setVersion. simpl. by intros [= _ <-].
Qed.

(** C8 (amended).  After [setVersion], and after an [extract] whose read
    succeeded, the stored version is absent or a string [semver.valid]
    accepts; such a string begins, once trimmed and without a leading [v],
    with major.minor.patch.  After an [extract] on a pattern-embedded file
    it is absent or of the shape major.minor.patch with an optional
    prerelease identifier of alphanumerics.  An [extract] whose read failed
    leaves the object as it is.  The constructor stores the [version]
    option as it is given, and so do the objects [changeFiles] creates;
    [inc] either changes nothing or stores the string it returns, without
    validating it: that string has the shape major.minor.patch with an
    optional non-empty prerelease suffix. *)
Theorem stored_version_after_each_operation :
  (∀ this x, accepted_or_absent (setVersion this x).2)
  ∧ (∀ this v, accepted_or_absent this → version this = Some v →
       lenient_version v)
  ∧ (∀ fs this r this',
       extract fs this = Normal (r, this') →
       r.2 = version this'
       ∧ ((∃ err, readFile fs this = inl err ∧ r.1 = Some err ∧ this' = this)
          ∨ ((∃ data, readFile fs this = inr data) ∧ accepted_or_absent this')))
  ∧ (∀ fs this r this' s,
       pattern_embedded this → read_text fs (file this) = inr s →
       extract fs this = Normal (r, this') → shape_or_absent this')
  ∧ (∀ path o, version (new_Version path (Some o)) = o_version o)
  ∧ (∀ path, version (new_Version path None) = None)
  ∧ (∀ files v j, version (task_Version files v j) = Some v)
  ∧ (∀ this cmd_arg r this',
       inc this cmd_arg = Normal (r, this') →
       (r = None ∧ this' = this)
       ∨ ∃ w, r = Some w ∧ this' = set_version this (Some w)
              ∧ version_shape w).
Proof.
  split; [apply setVersion_accepted_or_absent|]. split.
  { intros this v Hinv Hv. unfold accepted_or_absent in Hinv. rewrite Hv in Hinv.
    by apply valid_lenient. }
  split.
  { intros fs this r this'. unfold extract.
    destruct (readFile fs this) as [e|data].
    - intros [= <- <-]. split; [done|]. left. by exists e.
    - destruct (_extract this data) as [[err that]|e] eqn:Hex; [|done].
      intros [= <- <-]. split; [done|]. right. split; [by exists data|].
      by eapply _extract_accepted_or_absent. }
  split.
  { intros fs this r this' s [Hext Hty] Hread. unfold extract.
    rewrite (readFile_text _ _ _ Hext Hread).
    destruct (_extract this (VString s)) as [[err that]|e] eqn:Hex; [|done].
    intros [= <- <-]. by eapply _extract_pattern_shape. }
  repeat split; try done. apply inc_stores_result.
Qed.

End SetVersionClaims.

Lemma setVersion_validates_with_semver_witness :
  setVersion (new_Version (lit "package.json") None) (VString (lit "1.2.3-rc1"))
  = (None, set_version (new_Version (lit "package.json") None)
             (Some (lit "1.2.3-rc1"))).
Proof.
  apply (proj1 (proj2 setVersion_validates_with_semver)).
  exists (lit "1"), (lit "2"), (lit "3"), (lit "-rc1").
  split; [reflexivity|].
  assert (∀ d, is_digit d = true → d ≠ 48%N → numeral [d]) as Hnum.
  { intros d Hd Hne. split; [split; [done|by repeat constructor]|].
    by intros [= ->]. }
  split; [by apply Hnum|]. split; [by apply Hnum|]. split; [by apply Hnum|].
  split.
  { right. exists (lit "rc1"). split; [reflexivity|]. split; [done|].
    by repeat constructor. }
  split.
  { intros p [= <-] Hp. apply Forall_cons in Hp as [Hp _]. done. }
  repeat split; vm_compute; congruence || lia.
Defined.

(** C2 (as claimed).  [setVersion] stores "v1.2.3", "1.2.3-rc.1+b.7" and
    " 1.2.3 " as they are, none of which has the shape major.minor.patch
    with an optional prerelease identifier of alphanumerics; and it rejects
    "9007199254740992.0.0" and "01.2.3", which have that shape. *)
Lemma setVersion_is_not_by_shape :
  (setVersion (new_Version (lit "package.json") None) (VString (lit "v1.2.3"))
   = (None, set_version (new_Version (lit "package.json") None)
              (Some (lit "v1.2.3")))
   ∧ ¬ token_shape (lit "v1.2.3"))
  ∧ (setVersion (new_Version (lit "package.json") None)
       (VString (lit "1.2.3-rc.1+b.7"))
     = (None, set_version (new_Version (lit "package.json") None)
                (Some (lit "1.2.3-rc.1+b.7")))
     ∧ ¬ token_shape (lit "1.2.3-rc.1+b.7"))
  ∧ (setVersion (new_Version (lit "package.json") None) (VString (lit " 1.2.3 "))
     = (None, set_version (new_Version (lit "package.json") None)
                (Some (lit " 1.2.3 ")))
     ∧ ¬ token_shape (lit " 1.2.3 "))
  ∧ (token_shape (lit "9007199254740992.0.0")
     ∧ setVersion (new_Version (lit "package.json") None)
         (VString (lit "9007199254740992.0.0"))
       = (Some (BadSemverVersion (VString (lit "9007199254740992.0.0"))),
          set_version (new_Version (lit "package.json") None) None))
  ∧ (token_shape (lit "01.2.3")
     ∧ setVersion (new_Version (lit "package.json") None) (VString (lit "01.2.3"))
       = (Some (BadSemverVersion (VString (lit "01.2.3"))),
          set_version (new_Version (lit "package.json") None) None)).
Proof.
  assert (∀ w, token_end w 0 ≠ Some (length w) → ¬ token_shape w) as Hno.
  { intros w Hne Hw%token_shape_token_end. done. }
  split; [split; [by vm_compute|by apply Hno]|].
  split; [split; [by vm_compute|by apply Hno]|].
  split; [split; [by vm_compute|by apply Hno]|].
  split; (split; [|by vm_compute]).
  - exists (lit "9007199254740992"), (lit "0"), (lit "0"), [].
    split; [reflexivity|].
    repeat split; try done; try (by repeat constructor); try (by left).
  - exists (lit "01"), (lit "2"), (lit "3"), [].
    split; [reflexivity|].
    repeat split; try done; try (by repeat constructor); try (by left).
Qed.

Lemma stored_version_after_each_operation_witness :
  lenient_version (lit "1.2.3").
Proof.
  apply (proj1 (proj2 (@stored_version_after_each_operation example_JSON))
           (set_version (new_Version (lit "VERSION") None) (Some (lit "1.2.3")))).
  - vm_compute. eexists. reflexivity.
  - reflexivity.
Defined.

(** C8 (as claimed).  The constructor stores the option "abc", and so does
    the object [changeFiles] creates for a file; an [extract] on a file that
    does not exist leaves it there.  [setVersion] stores " v1.2.3+build.5 "
    as it is.  And [inc] takes the valid version "1.2.3-rc" to "1.2.3-rc.0",
    and the valid "9007199254740991.0.0" to "9007199254740992.0.0", which
    [semver.valid] rejects.  None of "abc", " v1.2.3+build.5 " and
    "1.2.3-rc.0" has the shape major.minor.patch with an optional prerelease
    identifier of alphanumerics. *)
Lemma stored_version_outside_the_shape :
  (version (new_Version (lit "package.json")
              (Some (mkOptions (Some (lit "abc")) None None))) = Some (lit "abc")
   ∧ version (task_Version [lit "package.json"] (lit "abc") 0) = Some (lit "abc")
   ∧ extract (H := example_JSON) example_fs
       (new_Version (lit "missing")
          (Some (mkOptions (Some (lit "abc")) None None)))
     = Normal ((Some (SystemError (lit "ENOENT")), Some (lit "abc")),
               new_Version (lit "missing")
                 (Some (mkOptions (Some (lit "abc")) None None)))
   ∧ Semver.valid (VString (lit "abc")) = None
   ∧ ¬ token_shape (lit "abc"))
  ∧ (setVersion (new_Version (lit "package.json") None)
       (VString (lit " v1.2.3+build.5 "))
     = (None, set_version (new_Version (lit "package.json") None)
                (Some (lit " v1.2.3+build.5 ")))
     ∧ ¬ token_shape (lit " v1.2.3+build.5 "))
  ∧ (token_shape (lit "1.2.3-rc")
     ∧ Semver.valid (VString (lit "1.2.3-rc")) = Some (lit "1.2.3-rc")
     ∧ inc (new_Version (lit "package.json")
              (Some (mkOptions (Some (lit "1.2.3-rc")) None None)))
         (Some (lit "prerelease"))
       = Normal (Some (lit "1.2.3-rc.0"),
                 set_version
                   (new_Version (lit "package.json")
                      (Some (mkOptions (Some (lit "1.2.3-rc")) None None)))
                   (Some (lit "1.2.3-rc.0")))
     ∧ ¬ token_shape (lit "1.2.3-rc.0"))
  ∧ (Semver.valid (VString (lit "9007199254740991.0.0"))
     = Some (lit "9007199254740991.0.0")
     ∧ inc (new_Version (lit "package.json")
              (Some (mkOptions (Some (lit "9007199254740991.0.0")) None None)))
         (Some (lit "major"))
       = Normal (Some (lit "9007199254740992.0.0"),
                 set_version
                   (new_Version (lit "package.json")
                      (Some (mkOptions (Some (lit "9007199254740991.0.0"))
                               None None)))
                   (Some (lit "9007199254740992.0.0")))
     ∧ Semver.valid (VString (lit "9007199254740992.0.0")) = None).
Proof.
  assert (∀ w, token_end w 0 ≠ Some (length w) → ¬ token_shape w) as Hno.
  { intros w Hne Hw%token_shape_token_end. done. }
  split; [|split; [|split]].
  - repeat split; try (by vm_compute). by apply Hno.
  - split; [by vm_compute|by apply Hno].
  - split; [|repeat split; try (by vm_compute); by apply Hno].
    exists (lit "1"), (lit "2"), (lit "3"), (lit "-rc").
    split; [reflexivity|]. repeat split; try done; try (by repeat constructor).
    right. exists (lit "rc"). split; [reflexivity|]. split; [done|].
    by repeat constructor.
  - repeat split; by vm_compute.
Qed.

(** ** The bytes of a changed file *)

Section TokenFrame.
Context `{JSON}.
Local Open Scope nat_scope.

Lemma first_occurrence_unique s i j k i' j' k' :
  first_occurrence s i j k → first_occurrence s i' j' k' →
  i = i' ∧ j = j' ∧ k = k'.
Proof.
  intros [Ho Hm] [Ho' Hm']. specialize (Hm _ _ _ Ho'). specialize (Hm' _ _ _ Ho).
  lia.
Qed.

(** C5 (amended).  For a pattern-embedded file whose text matches the
    pattern, the change operation hands to [fs.writeFile] the text before
    the first occurrence, the occurrence's own text from the word [VERSION]
    up to the token, a replacement, and the text after the token, all but
    the replacement exactly as they were decoded.  The replacement is the
    stored version whenever that holds no dollar sign, as is the case of
    every version [semver.valid] accepts.  When moreover the bytes of the
    file are well-formed UTF-8, the stored version is well-formed UTF-16 and
    the file is writable, the bytes before the token and the bytes after it
    are left as they were, and the bytes of the token give way to the bytes
    of the stored version. *)
Theorem change_first_token_frame (fs : filesystem) (this : Version) (s : str) :
  pattern_embedded this →
  read_text fs (file this) = inr s →
  is_Some (exec VERSION 2 s) →
  ∃ i j k text,
    first_occurrence s i j k
    ∧ s = take i s ++ substring s i j ++ substring s j k ++ drop k s
    ∧ text = replacement_text s i j k (prim_to_string (of_option (version this)))
    ∧ _change this (VString s)
      = Normal (VString (take i s ++ substring s i j ++ text ++ drop k s))
    ∧ change fs this
      = Normal (fs_writeFile fs (file this)
                  (take i s ++ substring s i j ++ text ++ drop k s))
    ∧ (∀ v, version this = Some v → dollar ∉ v → text = v)
    ∧ (∀ v, is_Some (Semver.valid (VString v)) →
         (dollar ∉ v) ∧ well_formed_utf16 v = true)
    ∧ (∀ f v, fs !! file this = Some f → writable f = true →
         well_formed_utf8 (octets (content f)) = true →
         version this = Some v → dollar ∉ v → well_formed_utf16 v = true →
         octets (content f)
         = UTF8.encode (take i s ++ substring s i j)
           ++ UTF8.encode (substring s j k) ++ UTF8.encode (drop k s)
         ∧ change fs this
           = Normal (None,
                     <[file this :=
                         mkFile (mkBuffer
                                   (UTF8.encode (take i s ++ substring s i j)
                                    ++ UTF8.encode v
                                    ++ UTF8.encode (drop k s))) true true]> fs)).
Proof.
  intros [Hext Hty] Hread Hmatch.
  apply exec_VERSION_is_Some in Hmatch as [[i [j k]] Hfind].
  pose proof (find_version_first _ _ _ _ Hfind) as Hfirst.
  pose proof (_change_pattern this s Hty) as Hch. rewrite Hfind in Hch.
  assert (change fs this
          = Normal (fs_writeFile fs (file this)
                      (take i s ++ substring s i j
                       ++ replacement_text s i j k
                            (prim_to_string (of_option (version this)))
                       ++ drop k s))) as Hchange.
  { unfold change, change_on_read.
    by rewrite (readFile_text _ _ _ Hext Hread), Hch. }
  assert (∀ v, version this = Some v → dollar ∉ v →
               replacement_text s i j k
                 (prim_to_string (of_option (version this))) = v) as Htext.
  { intros v -> Hv. by apply get_substitution_plain. }
  exists i, j, k. eexists. split; [done|]. split; [|split; [reflexivity|]].
  { apply occurrence_split, Hfirst. }
  split; [exact Hch|]. split; [exact Hchange|]. split; [exact Htext|]. split.
  - intros v Hv. split; [by apply valid_no_dollar|].
    by apply well_formed_utf16_plain, valid_units.
  - intros f v Hf Hw Hwf Hv Hdollar Hwfv.
    destruct Hfirst as [Hocc _].
    assert (i ≤ j ∧ j ≤ k) as [Hij Hjk].
    { destruct Hocc as [(? & ? & ?) _ _ _ _ _]. lia. }
    pose proof (read_text_Some _ _ _ Hread) as (f' & Hf' & Hr & Hs).
    rewrite Hf in Hf'. injection Hf' as <-.
    assert (well_formed_utf16 s = true) as Hwfs.
    { rewrite Hs. apply toString_well_formed. }
    destruct (token_frame s v j k Hwfs Hjk (occ_token _ _ _ _ Hocc) Hwfv)
      as (_ & _ & Hold & Hnew).
    rewrite take_substring by done. split.
    + rewrite <- Hold, Hs. unfold toString. by rewrite encode_decode.
    + rewrite Hchange, (Htext v Hv Hdollar), app_assoc, take_substring by done.
      unfold fs_writeFile. rewrite Hf, Hw, Hr. unfold Buffer_from.
      by rewrite Hnew.
Qed.

End TokenFrame.

Lemma change_first_token_frame_witness :
  change (H := example_JSON) example_fs
    (new_Version (lit "version.js")
       (Some (mkOptions (Some (lit "1.3.0")) None None)))
  = Normal (None,
            <[lit "version.js" := text_file (lit "const VERSION = '1.3.0'")]>
              example_fs).
Proof.
  destruct (@change_first_token_frame example_JSON example_fs
              (new_Version (lit "version.js")
                 (Some (mkOptions (Some (lit "1.3.0")) None None)))
              (lit "const VERSION = '1.2.3'"))
    as (i & j & k & text & Hfirst & _ & _ & _ & _ & _ & _ & Hbytes).
  - split; reflexivity.
  - reflexivity.
  - vm_compute. eexists. reflexivity.
  - assert (dollar ∉ lit "1.3.0") as Hdollar.
    { apply (bool_decide_unpack _). vm_compute. exact I. }
    destruct (Hbytes (text_file (lit "const VERSION = '1.2.3'")) (lit "1.3.0")
                eq_refl eq_refl eq_refl eq_refl Hdollar eq_refl) as [_ Hch].
    rewrite Hch.
    assert (first_occurrence (lit "const VERSION = '1.2.3'") 6 17 22) as H0.
    { apply find_version_first. vm_compute. reflexivity. }
    destruct (first_occurrence_unique _ _ _ _ _ _ _ Hfirst H0) as (-> & -> & ->).
    vm_compute. reflexivity.
Defined.

(** C5 (as claimed).  A stored version with a dollar sign is read as a
    replacement template: [$&] puts the whole match where the token was.
    And a byte that is no well-formed UTF-8, here [e9] before the word,
    comes back as the three bytes of U+FFFD. *)
Lemma change_rewrites_more_than_the_token :
  _change (new_Version (lit "version.js")
             (Some (mkOptions (Some (lit "$&")) None None)))
    (VString (lit "a VERSION = 1.2.3 z"))
  = Normal (VString (lit "a VERSION = VERSION = 1.2.3 z"))
  ∧ change (H := example_JSON) latin1_fs
      (new_Version (lit "version.js")
         (Some (mkOptions (Some (lit "2.0.0")) None None)))
    = Normal (None,
              <[lit "version.js" :=
                  mkFile (mkBuffer (239 :: 191 :: 189
                                    :: UTF8.encode (lit " VERSION 2.0.0")))
                    true true]> latin1_fs).
Proof. split; by vm_compute. Qed.

(** C10 (as claimed).  The file holds the single byte [e9], which is no
    well-formed UTF-8, and no match of the pattern.  The change reports
    success, and the file then holds the three bytes of U+FFFD. *)
Lemma change_without_match_reencodes :
  exec VERSION 2 (toString (mkBuffer [233])) = None
  ∧ change (H := example_JSON) latin1_fs (new_Version (lit "notes.txt") None)
    = Normal (None,
              <[lit "notes.txt" := mkFile (mkBuffer [239; 191; 189]) true true]>
                latin1_fs)
  ∧ latin1_fs !! lit "notes.txt" = Some (mkFile (mkBuffer [233]) true true).
Proof. repeat split; by vm_compute. Qed.
